(** * HTML-6X: the store of the v0.1 runtime and the atomic runtime v0.2

    A shallow embedding of the two runtimes of the repository:

    - [Store] (class [Store] of the v0.1 runtime): named raw data,
      computed bindings, the restricted expression evaluator and the
      schema check;
    - [NucleusManager], [ElectronShell], [AtomicKernel] (the classes of
      [h6x-atomic-runtime.js]): rule parsing, validation, the submit
      protocol and the derived metrics of a parsed atom.

    Conventions of the embedding.

    - A JS string is a [string]: a sequence of code units below 256.
    - A JSON value is a tree ([json]); numbers are integer valued. Where
      identity matters (the store) values live in a heap of arrays and
      objects addressed by locations.
    - A plain object ([{}]) is the list of its own properties in the order
      of their creation ([jsobj]); its enumeration puts the array indices
      first ([entries]). A read goes through the prototype chain
      ([lookup]): the members of [Object.prototype] are functions, and
      [__proto__] is its accessor. An assignment to [__proto__] reaches the
      setter ([assign], [obj_put]).
    - What the engine decides is a parameter ([engine]): the methods of
      [Array.prototype], the rounding and the text of the integers of
      magnitude [2^53] or more, and the number a string converts to.
      [reference_engine] is the instance of the examples.
    - The dictionaries of the store are created with [Object.create(null)]
      and only read and written by key: they are finite maps ([gmap]).
    - A JS function that can throw returns a [result]. *)

From stdpp Require Import gmap strings list pretty.
From Stdlib Require Import Ascii QArith Qcanon.

Close Scope Qc_scope.
Close Scope Q_scope.

Set Default Proof Using "Type".
Set Warnings "-register-all".

(** ** Completions *)

Inductive error :=
| TypeError (msg : string)
| SyntaxError
| DataCloneError
| Error (msg : string).

Inductive result (A : Type) :=
| Ok (a : A)
| Throw (e : error).

Arguments Ok {A} a.
Arguments Throw {A} e.

Global Instance result_ret : MRet result := @Ok.

Global Instance result_bind : MBind result := λ A B f r,
  match r with
  | Ok a => f a
  | Throw e => Throw e
  end.

(** ** Strings and the regular expressions of the source *)

Module JS.

Definition code (c : ascii) : nat := nat_of_ascii c.

Definition between (lo hi : nat) (c : ascii) : bool :=
  (lo <=? code c)%nat && (code c <=? hi)%nat.

(** [\d] *)
Definition is_digit (c : ascii) : bool := between 48 57 c.

(** [\w]: letters, digits and the underscore. *)
Definition is_word_char (c : ascii) : bool :=
  between 97 122 c || between 65 90 c || is_digit c || (code c =? 95)%nat.

(** [\s], which is also what [trim] strips: tab, line feed, vertical tab,
    form feed, carriage return, space and the no-break space. *)
Definition is_space (c : ascii) : bool :=
  between 9 13 c || (code c =? 32)%nat || (code c =? 160)%nat.

(** [[^\s@]] *)
Definition is_email_char (c : ascii) : bool :=
  negb (is_space c) && negb (code c =? 64)%nat.

Definition is_empty (s : string) : bool :=
  match s with
  | EmptyString => true
  | String _ _ => false
  end.

(** A string is truthy when it is not empty. *)
Definition truthy_str (s : string) : bool := negb (is_empty s).

(** An attribute read with [getAttribute] is [null] or a string. *)
Definition truthy_attr (a : option string) : bool :=
  match a with
  | Some s => truthy_str s
  | None => false
  end.

Fixpoint trim_start (s : string) : string :=
  match s with
  | EmptyString => EmptyString
  | String c s' => if is_space c then trim_start s' else s
  end.

Fixpoint trim_end (s : string) : string :=
  match s with
  | EmptyString => EmptyString
  | String c s' =>
      match trim_end s' with
      | EmptyString => if is_space c then EmptyString else String c EmptyString
      | t => String c t
      end
  end.

(** [s.trim()] *)
Definition trim (s : string) : string := trim_end (trim_start s).

(** [s.split(sep)] for a separator of one character. *)
Fixpoint split (sep : ascii) (s : string) : list string :=
  match s with
  | EmptyString => [EmptyString]
  | String c s' =>
      if Ascii.eqb c sep then EmptyString :: split sep s'
      else match split sep s' with
           | [] => [String c EmptyString]
           | p :: ps => String c p :: ps
           end
  end.

(** [s.startsWith(p)] and what follows the prefix. *)
Fixpoint strip_prefix (p s : string) : option string :=
  match p, s with
  | EmptyString, _ => Some s
  | String a p', String b s' => if Ascii.eqb a b then strip_prefix p' s' else None
  | String _ _, EmptyString => None
  end.

Definition startsWith (s p : string) : bool := bool_decide (is_Some (strip_prefix p s)).

(** [s.includes(p)] *)
Fixpoint includes_str (s p : string) : bool :=
  startsWith s p ||
  match s with
  | EmptyString => false
  | String _ s' => includes_str s' p
  end.

(** [x+] for a character class [x], greedy, with backtracking: the
    continuation [k] receives the text matched and the rest of the input;
    the longest run is tried first, then the shorter ones. *)
Fixpoint plus_class {A} (p : ascii → bool) (s : string)
    (k : string → string → option A) : option A :=
  match s with
  | EmptyString => None
  | String c s' =>
      if p c then
        match plus_class p s' (λ m r, k (String c m) r) with
        | Some x => Some x
        | None => k (String c EmptyString) s'
        end
      else None
  end.

(** An unanchored pattern is tried at every position, leftmost first. *)
Fixpoint search {A} (m : string → option A) (s : string) : option A :=
  match m s with
  | Some x => Some x
  | None =>
      match s with
      | EmptyString => None
      | String _ s' => search m s'
      end
  end.

(** [/(\w+)\.filter\((\w+)=(\w+)\)/] at the start of [s]: the three groups. *)
Definition filter_re (s : string) : option (string * string * string) :=
  plus_class is_word_char s (λ name r1,
    r2 ← strip_prefix ".filter(" r1;
    plus_class is_word_char r2 (λ key r3,
      r4 ← strip_prefix "=" r3;
      plus_class is_word_char r4 (λ value r5,
        _ ← strip_prefix ")" r5;
        Some (name, key, value)))).

(** [/(\w+)\.count/] at the start of [s]: the group. *)
Definition count_re (s : string) : option string :=
  plus_class is_word_char s (λ name r, _ ← strip_prefix ".count" r; Some name).

(** [/\d+/] at the start of [s]: the text matched. *)
Definition digits_re (s : string) : option string :=
  plus_class is_digit s (λ m _, Some m).

(** [/^[^\s@]+@[^\s@]+\.[^\s@]+$/.test(s)] *)
Definition email_re (s : string) : bool :=
  bool_decide (is_Some (
    plus_class is_email_char s (λ _ r1,
      r2 ← strip_prefix "@" r1;
      plus_class is_email_char r2 (λ _ r3,
        r4 ← strip_prefix "." r3;
        plus_class is_email_char r4 (λ _ r5,
          if is_empty r5 then Some () else None))))).

(** [parseInt] of a run of decimal digits. *)
Definition digit_val (c : ascii) : Z := Z.of_nat (code c - 48).

Fixpoint parse_digits (acc : Z) (s : string) : Z :=
  match s with
  | EmptyString => acc
  | String c s' => parse_digits (10 * acc + digit_val c) s'
  end.

Definition parseInt (s : string) : Z := parse_digits 0 s.

Fixpoint join (sep : string) (l : list string) : string :=
  match l with
  | [] => EmptyString
  | [s] => s
  | s :: l' => s +:+ sep +:+ join sep l'
  end.

End JS.


(** ** JSON values and plain objects *)

(** The value of [JSON.parse]: a tree. The properties of an object have
    distinct names. *)
Inductive json :=
| JNull
| JBool (b : bool)
| JNum (n : Z)
| JStr (s : string)
| JArr (items : list json)
| JObj (props : list (string * json)).

(** A plain object: its own properties, in insertion order. *)
Definition jsobj (V : Type) : Type := list (string * V).

(** [o[k]]: [None] is [undefined]. *)
Fixpoint obj_get {V} (k : string) (o : jsobj V) : option V :=
  match o with
  | [] => None
  | (k', v) :: o' => if decide (k' = k) then Some v else obj_get k o'
  end.

(** [o[k] = v]: an existing property keeps its place. *)
Fixpoint obj_set {V} (k : string) (v : V) (o : jsobj V) : jsobj V :=
  match o with
  | [] => [(k, v)]
  | (k', v') :: o' => if decide (k' = k) then (k, v) :: o' else (k', v') :: obj_set k v o'
  end.

(** [Object.keys(o)] *)
Definition obj_keys {V} (o : jsobj V) : list string := o.*1.

(** An array index: the canonical decimal text of an integer below
    [2^32 - 1]. *)
Definition array_index (k : string) : option N :=
  let n := Z.to_N (JS.parseInt k) in
  if bool_decide (pretty n = k) && (n <? 4294967295)%N then Some n else None.

(** The order in which the own properties of an object are enumerated
    ([Object.entries], [Object.keys], [JSON.stringify]): the array indices
    in ascending order, then the other names in the order of creation. *)
Fixpoint insert_entry {V} (n : N) (e : string * V) (l : list (N * (string * V)))
    : list (N * (string * V)) :=
  match l with
  | [] => [(n, e)]
  | (m, e') :: l' => if (n <? m)%N then (n, e) :: l else (m, e') :: insert_entry n e l'
  end.

Definition index_entries {V} (o : list (string * V)) : list (N * (string * V)) :=
  foldl (λ acc e, match array_index e.1 with
                  | Some n => insert_entry n e acc
                  | None => acc
                  end) [] o.

Definition entries {V} (o : list (string * V)) : list (string * V) :=
  (index_entries o).*2 ++ filter (λ e, array_index e.1 = None) o.

(** [o[k] = v] on an object literal that only ever receives arrays and
    strings: under the name [__proto__] the assignment reaches the setter of
    [Object.prototype], which adds no property (an array becomes the
    prototype of [o], a string is ignored; the own properties of [o] are all
    that is read afterwards). *)
Definition obj_put {V} (k : string) (v : V) (o : jsobj V) : jsobj V :=
  if decide (k = "__proto__") then o else obj_set k v o.

(** [!!v]: [null], [false], [0] and the empty string are falsy. *)
Definition truthy (v : json) : bool :=
  match v with
  | JNull => false
  | JBool b => b
  | JNum n => negb (n =? 0)%Z
  | JStr s => JS.truthy_str s
  | JArr _ | JObj _ => true
  end.

(** What reading a property gives: nothing, a JSON value, a built-in method
    (with the number of its parameters) or the object [Object.prototype]. *)
Inductive jsval :=
| Undefined
| Data (v : json)
| Method (length : nat)
| ObjectPrototype.

Definition truthy_value (x : jsval) : bool :=
  match x with
  | Undefined => false
  | Data v => truthy v
  | Method _ | ObjectPrototype => true
  end.

(** The methods of [Object.prototype], each with its [length]. *)
Definition Object_prototype : jsobj nat :=
  [("constructor", 1); ("__defineGetter__", 2); ("__defineSetter__", 2);
   ("hasOwnProperty", 1); ("__lookupGetter__", 1); ("__lookupSetter__", 1);
   ("isPrototypeOf", 1); ("propertyIsEnumerable", 1); ("toString", 0);
   ("valueOf", 0); ("toLocaleString", 0)].

(** A name looked up in [Object.prototype]: the accessor [__proto__] gives
    the prototype of the object the lookup started from. *)
Definition from_Object_prototype (prototype : jsval) (k : string) : jsval :=
  if decide (k = "__proto__") then prototype
  else match obj_get k Object_prototype with
       | Some length => Method length
       | None => Undefined
       end.

(** [o[k]] for an object literal [o] of JSON values. *)
Definition lookup_plain (o : jsobj json) (k : string) : jsval :=
  match obj_get k o with
  | Some v => Data v
  | None => from_Object_prototype ObjectPrototype k
  end.

(** The prototype of an object built by assignments to [{}]: it is
    [Object.prototype] until an assignment to [__proto__] replaces it by
    [null], by an array or by an object of the data. *)
Inductive prototype :=
| Object_proto
| Null_proto
| Array_value (items : list json)
| Object_value (props : jsobj json).

Record object := {
  own : jsobj json;
  proto : prototype
}.

(** An object literal. *)
Definition plain (o : jsobj json) : object := {| own := o; proto := Object_proto |}.

(** A number: a double with its value as a fraction, an infinity or
    [NaN]. *)
Inductive numeric :=
| Num (q : Q)
| PosInfinity
| NegInfinity
| NotANumber.

(** [x < y] on numbers: false when either side is [NaN]. *)
Definition numeric_lt (x y : numeric) : bool :=
  match x, y with
  | NotANumber, _ | _, NotANumber => false
  | PosInfinity, _ | _, NegInfinity => false
  | _, PosInfinity | NegInfinity, _ => true
  | Num a, Num b => negb (Qle_bool b a)
  end.

(** What the engine supplies: the methods of [Array.prototype] with their
    lengths, the double a decimal integer of magnitude [2^53] or more is
    read as ([None]: [Infinity]), the text of such a number, and the number
    a string converts to. *)
Record engine := {
  array_method : string → option nat;
  nearest_double : Z → option Z;
  large_number_text : Z → string;
  string_to_number : string → numeric
}.

(** An integer every double holds exactly and prints digit by digit. *)
Definition safe (n : Z) : bool := (Z.abs n <? 2 ^ 53)%Z.

(** [String(n)] for a number. *)
Definition number_to_string (E : engine) (n : Z) : string :=
  if safe n then pretty n else large_number_text E n.

(** [o[k]]: the own property, or what the prototype chain gives. *)
Definition lookup (E : engine) (o : object) (k : string) : jsval :=
  match obj_get k (own o) with
  | Some v => Data v
  | None =>
      match proto o with
      | Object_proto => from_Object_prototype ObjectPrototype k
      | Null_proto => Undefined
      | Object_value props =>
          match obj_get k props with
          | Some v => Data v
          | None => from_Object_prototype (Data (JObj props)) k
          end
      | Array_value items =>
          if decide (k = "length") then Data (JNum (Z.of_nat (length items)))
          else
            match array_index k ≫= λ n, items !! N.to_nat n with
            | Some v => Data v
            | None =>
                match array_method E k with
                | Some length => Method length
                | None => from_Object_prototype (Data (JArr items)) k
                end
            end
      end
  end.

(** [o[k] = v]. Every name but [__proto__] becomes or stays an own
    property. The name [__proto__] is an own property when the object has
    one, or when the lookup meets none or a data property of that name (the
    prototype is [null], or an object of the data that owns [__proto__]);
    otherwise the setter of [Object.prototype] runs: an array or an object
    becomes the prototype, [null] removes it, any other value is ignored. *)
Definition assign (o : object) (k : string) (v : json) : object :=
  let set_own := {| own := obj_set k v (own o); proto := proto o |} in
  let setter :=
    match v with
    | JArr items => {| own := own o; proto := Array_value items |}
    | JObj props => {| own := own o; proto := Object_value props |}
    | JNull => {| own := own o; proto := Null_proto |}
    | _ => o
    end in
  if decide (k = "__proto__") then
    if bool_decide (is_Some (obj_get k (own o))) then set_own
    else
      match proto o with
      | Null_proto => set_own
      | Object_value props =>
          if bool_decide (is_Some (obj_get k props)) then set_own else setter
      | Object_proto | Array_value _ => setter
      end
  else set_own.

(** [String(v)]: an array joins the strings of its items with commas, where
    [null] gives the empty string; an object that leaves [toString] to
    [Object.prototype] gives [[object Object]]. *)
Fixpoint to_string (E : engine) (v : json) : string :=
  match v with
  | JNull => "null"
  | JBool true => "true"
  | JBool false => "false"
  | JNum n => number_to_string E n
  | JStr s => s
  | JArr items =>
      JS.join ","
        (map (λ i, match i with JNull => EmptyString | _ => to_string E i end) items)
  | JObj _ => "[object Object]"
  end.

(** [JSON.stringify]: the characters a string literal escapes. *)
Definition dquote : ascii := "034"%char.

Definition hex_digit (n : nat) : ascii :=
  ascii_of_nat (if (n <? 10)%nat then 48 + n else 87 + n).

Definition escape_char (c : ascii) : string :=
  let n := JS.code c in
  if (n =? 34)%nat then String "\"%char (String dquote EmptyString)
  else if (n =? 92)%nat then "\\"
  else if (n =? 8)%nat then "\b"
  else if (n =? 9)%nat then "\t"
  else if (n =? 10)%nat then "\n"
  else if (n =? 12)%nat then "\f"
  else if (n =? 13)%nat then "\r"
  else if (n <? 32)%nat then
    "\u00" +:+ String (hex_digit (n / 16)) (String (hex_digit (n mod 16)) EmptyString)
  else String c EmptyString.

Fixpoint escape (s : string) : string :=
  match s with
  | EmptyString => EmptyString
  | String c s' => escape_char c +:+ escape s'
  end.

Definition quote (s : string) : string :=
  String dquote (escape s +:+ String dquote EmptyString).

Fixpoint stringify (E : engine) (v : json) : string :=
  match v with
  | JNull => "null"
  | JBool true => "true"
  | JBool false => "false"
  | JNum n => number_to_string E n
  | JStr s => quote s
  | JArr items => "[" +:+ JS.join "," (map (stringify E) items) +:+ "]"
  | JObj props =>
      "{" +:+
      JS.join ","
        (map (λ p, quote p.1 +:+ ":" +:+ p.2)
           (entries (map (λ p, (p.1, stringify E p.2)) props))) +:+
      "}"
  end.

(** [JSON.stringify(o)] for an object built by assignments: its own
    properties, whatever its prototype is. *)
Definition stringify_object (E : engine) (o : object) : string :=
  stringify E (JObj (own o)).

(** [Number(v)] for the comparison [value.length < minLen]: a string is
    read by the engine, an array or an object through its string. *)
Definition to_number (E : engine) (v : json) : numeric :=
  match v with
  | JNull => Num (inject_Z 0)
  | JBool b => Num (inject_Z (if b then 1 else 0))
  | JNum n => Num (inject_Z n)
  | JStr s => string_to_number E s
  | JArr _ | JObj _ => string_to_number E (to_string E v)
  end.

(** ** The atomic runtime: its data *)

(** A number computed by the runtime from two array lengths: an exact
    rational, or what a division by zero gives. Lengths are below 2^32:
    rounding to a double moves no quotient across [1.0]. *)
Inductive number :=
| Finite (q : Qc)
| Infinity
| NaN.

(** [n / d] for two lengths. *)
Definition div_lengths (n d : nat) : number :=
  match d, n with
  | O, O => NaN
  | O, S _ => Infinity
  | S _, _ => Finite (Q2Qc (Z.of_nat n # Pos.of_nat d)%Q)
  end.

(** [x < 1.0] *)
Definition lt_one (x : number) : bool :=
  match x with
  | Finite q => bool_decide (q < 1)%Qc
  | Infinity | NaN => false
  end.

(** The value of a rule: the list of a [validate] or [transform] line, the
    expression of a [compute] line. *)
Inductive rule_val :=
| RList (rules : list string)
| RStr (expression : string).

Record proton := {
  proton_id : string;
  proton_source : option string;
  proton_local : option string;
  proton_cache : string;
  proton_persist : option string;
  proton_fallback : option string;
  proton_data : json
}.

Record neutron := {
  neutron_id : string;
  neutron_type : option string;
  neutron_rules : jsobj rule_val;
  neutron_weight : nat
}.

Inductive energy := ground | excited.

Record electron := {
  electron_id : string;
  electron_on : option string;
  electron_action : option string;
  electron_endpoint : option string;
  electron_method : string;
  electron_redirect : option string;
  electron_bond : option string;
  electron_emit : option string;
  electron_listen : option string;
  electron_energy : energy;
  electron_orbital : jsval
}.

Record atom := {
  atom_name : option string;
  atomicNumber : nat;
  atomicMass : nat;
  stability : number;
  protons : list proton;
  neutrons : list neutron;
  electrons : list electron
}.

(** The result of a validation: [{ valid, errors }]. *)
Record validation := {
  valid : bool;
  errors : jsobj (list string)
}.

(** The markup read by the parser: the attributes of the [proton],
    [neutron] and [electron] descendants of an [atom] element, in document
    order ([querySelectorAll]). *)
Record proton_node := {
  pn_source : option string;
  pn_local : option string;
  pn_cache : option string;
  pn_persist : option string;
  pn_fallback : option string
}.

Record neutron_node := {
  nn_type : option string;
  nn_textContent : string
}.

Record electron_node := {
  en_on : option string;
  en_action : option string;
  en_endpoint : option string;
  en_method : option string;
  en_redirect : option string;
  en_bond : option string;
  en_emit : option string;
  en_listen : option string
}.

Record atom_node := {
  an_name : option string;
  an_protons : list proton_node;
  an_neutrons : list neutron_node;
  an_electrons : list electron_node
}.

(** What the runtime writes to the console. *)
Inductive message :=
| UnstableAtom (name : option string) (s : number)
| Recommendation
| AtomParsed (name : option string) (p n e mass : nat)
| NoEndpoint
| ValidationFailed (errs : jsobj (list string))
| SubmitSuccessful
| SubmitFailed
| ValidationResult (v : validation)
| UnknownAction (action : option string)
| Emitted (name : string)
| ProtonFailed (source : string)
| LoadFailed (name : option string) (e : error)
| DataNotFound (name : string).

(** The calls of a run, in program order: the console, the network, the
    location, the window, the storage, the document, and the two helpers of
    the submit protocol with the value each returned. *)
Inductive call :=
| console_log (m : message)
| console_warn (m : message)
| console_error (m : message)
| fetch_get (url : string)
| fetch (url : string) (method : string) (content_type : string) (body : string)
| set_location (href : option string)
| dispatchEvent (name : string) (detail : object)
| localStorage_setItem (key : option string) (value : string)
| persistToIndexedDB (key : option string)
| node_remove
| gatherProtonData_returned (data : object)
| validateWithNeutrons_returned (v : validation).

(** How a [fetch] settles. *)
Inductive settled (A : Type) :=
| Fulfilled (a : A)
| Rejected.

Arguments Fulfilled {A} a.
Arguments Rejected {A}.

(** ** The atomic runtime: [NucleusManager] *)

(** The registries [protonData], [neutronRules] and [electrons] are written
    by the extractors and read by nothing: they are left out. *)

Module NucleusManager.

Section WithStorage.

(** [localStorage] and [JSON.parse] ([None]: a [SyntaxError]). *)
Variable localStorage : gmap string string.
Variable JSON_parse : string → option json.

Definition loadLocalData (key : string) : json :=
  match localStorage !! key with
  | Some data =>
      if JS.truthy_str data then
        match JSON_parse data with
        | Some v => v
        | None => JNull
        end
      else JNull
  | None => JNull
  end.

Definition extractProton (index : nat) (node : proton_node) : proton :=
  {| proton_id := "p" +:+ pretty index;
     proton_source := pn_source node;
     proton_local := pn_local node;
     proton_cache := if JS.truthy_attr (pn_cache node) then default "memory" (pn_cache node)
                     else "memory";
     proton_persist := pn_persist node;
     proton_fallback := pn_fallback node;
     proton_data := match pn_local node with
                    | Some key => if JS.truthy_str key then loadLocalData key else JNull
                    | None => JNull
                    end |}.

(** The remote loads started while extracting: one [fetch] for every proton
    with a source. *)
Definition remote_loads (ps : list proton) : list call :=
  omap (λ p, match proton_source p with
             | Some src => if JS.truthy_str src then Some (fetch_get src) else None
             | None => None
             end) ps.

Definition extractProtons (atomNode : atom_node) : list proton * list call :=
  let protons := imap extractProton (an_protons atomNode) in
  (protons, remote_loads protons).

End WithStorage.

(** The continuation of [loadRemoteData] once its [fetch] has settled. *)
Definition loadRemoteData_settled (E : engine) (p : proton) (r : settled json)
    : proton * list call :=
  let with_data d :=
    {| proton_id := proton_id p; proton_source := proton_source p;
       proton_local := proton_local p; proton_cache := proton_cache p;
       proton_persist := proton_persist p; proton_fallback := proton_fallback p;
       proton_data := d |} in
  match r with
  | Fulfilled d =>
      (with_data d,
       if decide (proton_persist p = Some "indexeddb") then [persistToIndexedDB (proton_local p)]
       else if decide (proton_persist p = Some "localstorage")
            then [localStorage_setItem (proton_local p) (stringify E d)]
            else [])
  | Rejected =>
      (if JS.truthy_attr (proton_fallback p)
       then with_data (JStr (default EmptyString (proton_fallback p))) else p,
       [console_error (ProtonFailed (default "null" (proton_source p)))])
  end.

(** One line of a rule body: [field <sep> text]. The line is split at
    every separator, the parts are trimmed, and the first two are kept. *)
Definition parseLine (sep : ascii) (mk : string → rule_val)
    (rules : jsobj rule_val) (line : string) : jsobj rule_val :=
  match map JS.trim (JS.split sep line) with
  | field :: rulesStr :: _ =>
      if JS.truthy_str field && JS.truthy_str rulesStr
      then obj_put field (mk rulesStr) rules
      else rules
  | _ => rules
  end.

Definition newline : ascii := "010"%char.

Definition listOf (rulesStr : string) : rule_val :=
  RList (map JS.trim (JS.split "," rulesStr)).

Definition parseNeutronRules (content : string) (type : option string) : jsobj rule_val :=
  if decide (type = Some "validate") then
    foldl (parseLine ":" listOf) [] (JS.split newline content)
  else if decide (type = Some "compute") then
    foldl (parseLine "=" RStr) [] (JS.split newline content)
  else if decide (type = Some "transform") then
    foldl (parseLine ":" listOf) [] (JS.split newline content)
  else [].

Definition extractNeutron (index : nat) (node : neutron_node) : neutron :=
  let content := JS.trim (nn_textContent node) in
  {| neutron_id := "n" +:+ pretty index;
     neutron_type := nn_type node;
     neutron_rules := parseNeutronRules content (nn_type node);
     neutron_weight := 1 |}.

Definition extractNeutrons (atomNode : atom_node) : list neutron :=
  imap extractNeutron (an_neutrons atomNode).

(** [value.length]: throws on [undefined] and [null]; a string and an array
    have a length, an object has one if it owns a property of that name, a
    function has the number of its parameters. *)
Definition length_of (value : jsval) : result (option json) :=
  match value with
  | Undefined => Throw (TypeError "Cannot read properties of undefined (reading 'length')")
  | Data JNull => Throw (TypeError "Cannot read properties of null (reading 'length')")
  | Data (JStr s) => Ok (Some (JNum (Z.of_nat (String.length s))))
  | Data (JArr items) => Ok (Some (JNum (Z.of_nat (length items))))
  | Data (JObj props) => Ok (obj_get "length" props)
  | Data (JBool _) | Data (JNum _) => Ok None
  | Method length => Ok (Some (JNum (Z.of_nat length)))
  | ObjectPrototype => Ok None
  end.

Section WithEngine.

Variable E : engine.

(** [isValidEmail]: the pattern is tested on the text of the value. The
    text of a function and the text of [Object.prototype] hold a space. *)
Definition isValidEmail (email : jsval) : bool :=
  match email with
  | Undefined => JS.email_re "undefined"
  | Data v => JS.email_re (to_string E v)
  | Method _ | ObjectPrototype => false
  end.

(** [len < minLen]: [undefined] on the left is [NaN]; [minLen] is a number
    or [Infinity]. *)
Definition less_than (len : option json) (minLen : option Z) : bool :=
  numeric_lt
    (from_option (to_number E) NotANumber len)
    (from_option (λ m, Num (inject_Z m)) PosInfinity minLen).

(** [parseInt] of a run of digits: the number itself when it is safe, the
    nearest double otherwise. *)
Definition parseInt (digits : string) : option Z :=
  let n := JS.parseInt digits in
  if safe n then Some n else nearest_double E n.

(** The text of [minLen] in the message. *)
Definition minLen_text (minLen : option Z) : string :=
  match minLen with
  | Some m => number_to_string E m
  | None => "Infinity"
  end.

(** The body of [rules.forEach(rule => ...)]. *)
Definition checkRule (value : jsval) (fieldErrors : list string) (rule : string)
    : result (list string) :=
  if bool_decide (rule = "required") && negb (truthy_value value) then
    Ok (fieldErrors ++ ["This field is required"])
  else if bool_decide (rule = "email-format") && negb (isValidEmail value) then
    Ok (fieldErrors ++ ["Invalid email format"])
  else if JS.startsWith rule "minLength" then
    match JS.search JS.digits_re rule with
    | None => Throw (TypeError "Cannot read properties of null (reading '0')")
    | Some digits =>
        let minLen := parseInt digits in
        len ← length_of value;
        if less_than len minLen
        then Ok (fieldErrors ++ ["Minimum length is " +:+ minLen_text minLen])
        else Ok fieldErrors
    end
  else Ok fieldErrors.

(** [forEach] with a body that can throw. *)
Fixpoint forEach {A S} (f : S → A → result S) (s : S) (l : list A) : result S :=
  match l with
  | [] => Ok s
  | x :: l' => s' ← f s x; forEach f s' l'
  end.

(** The body of [Object.entries(neutron.rules).forEach(...)]. *)
Definition checkField (data : object) (errors : jsobj (list string))
    (entry : string * rule_val) : result (jsobj (list string)) :=
  let '(field, rules) := entry in
  let value := lookup E data field in
  match rules with
  | RStr _ => Throw (TypeError "rules.forEach is not a function")
  | RList rules =>
      fieldErrors ← forEach (checkRule value) [] rules;
      if (0 <? length fieldErrors)%nat then Ok (obj_put field fieldErrors errors)
      else Ok errors
  end.

Definition validate (data : object) (n : neutron) : result validation :=
  errors ← forEach (checkField data) [] (entries (neutron_rules n));
  Ok {| valid := bool_decide (length (obj_keys errors) = 0%nat); errors := errors |}.

End WithEngine.

End NucleusManager.

(** ** The atomic runtime: [ElectronShell] *)

Module ElectronShell.

Definition orbitals : jsobj json :=
  [("click", JNum 1); ("submit", JNum 1); ("change", JNum 2); ("input", JNum 2);
   ("focus", JNum 3); ("blur", JNum 3); ("custom", JNum 4)].

(** [orbitals[eventType] || 4]: a missing attribute reads the name [null];
    a name [orbitals] inherits gives the inherited member. *)
Definition getOrbital (eventType : option string) : jsval :=
  let orbital := lookup_plain orbitals (default "null" eventType) in
  if truthy_value orbital then orbital else Data (JNum 4).

Definition extractElectron (index : nat) (node : electron_node) : electron :=
  {| electron_id := "e" +:+ pretty index;
     electron_on := en_on node;
     electron_action := en_action node;
     electron_endpoint := en_endpoint node;
     electron_method := if JS.truthy_attr (en_method node) then default "GET" (en_method node)
                        else "GET";
     electron_redirect := en_redirect node;
     electron_bond := en_bond node;
     electron_emit := en_emit node;
     electron_listen := en_listen node;
     electron_energy := ground;
     electron_orbital := getOrbital (en_on node) |}.

Definition extractElectrons (atomNode : atom_node) : list electron :=
  imap extractElectron (an_electrons atomNode).

(** The body of [atom.protons.forEach(proton => ...)]. *)
Definition gatherProton (data : object) (p : proton) : object :=
  match proton_local p with
  | Some key => if JS.truthy_str key then assign data key (proton_data p) else data
  | None => data
  end.

Definition gatherProtonData (a : atom) : object :=
  foldl gatherProton (plain []) (protons a).

(** [rules.includes('required')]: membership for a list, a substring test
    for a string. *)
Definition includes (rules : rule_val) (x : string) : bool :=
  match rules with
  | RList l => bool_decide (x ∈ l)
  | RStr s => JS.includes_str s x
  end.

(** [response.ok] of the response a fulfilled [fetch] gives. *)
Record response := { ok : bool }.

Section WithEngine.

Variable E : engine.

(** The body of [Object.entries(neutron.rules).forEach(...)]. *)
Definition requireField (data : object) (acc : validation)
    (entry : string * rule_val) : validation :=
  let '(field, rules) := entry in
  if includes rules "required" && negb (truthy_value (lookup E data field)) then
    {| valid := false; errors := obj_put field ["Required field"] (errors acc) |}
  else acc.

(** The body of [atom.neutrons.forEach(neutron => ...)]. *)
Definition validateNeutron (data : object) (acc : validation) (n : neutron) : validation :=
  if decide (neutron_type n = Some "validate") then
    foldl (requireField data) acc (entries (neutron_rules n))
  else acc.

Definition validateWithNeutrons (data : object) (a : atom) : validation :=
  foldl (validateNeutron data) {| valid := true; errors := [] |} (neutrons a).

(** [handleSubmit], given how its [fetch] settles. *)
Definition handleSubmit (e : electron) (a : atom) (settle : settled response) : list call :=
  match electron_endpoint e with
  | Some endpoint =>
      if JS.truthy_str endpoint then
        let data := gatherProtonData a in
        let validation := validateWithNeutrons data a in
        [gatherProtonData_returned data; validateWithNeutrons_returned validation] ++
        if negb (valid validation) then
          [console_error (ValidationFailed (errors validation))]
        else
          fetch endpoint (electron_method e) "application/json" (stringify_object E data) ::
          match settle with
          | Fulfilled r =>
              if ok r then
                console_log SubmitSuccessful ::
                (if JS.truthy_attr (electron_redirect e)
                 then [set_location (electron_redirect e)] else [])
              else []
          | Rejected => [console_error SubmitFailed]
          end
      else [console_error NoEndpoint]
  | None => [console_error NoEndpoint]
  end.

Definition handleValidation (e : electron) (a : atom) : list call :=
  let data := gatherProtonData a in
  let validation := validateWithNeutrons data a in
  [gatherProtonData_returned data; validateWithNeutrons_returned validation;
   console_log (ValidationResult validation)].

Definition emitEvent (eventName : string) (a : atom) : list call :=
  let data := gatherProtonData a in
  [gatherProtonData_returned data;
   dispatchEvent ("atom:" +:+ eventName) data;
   console_log (Emitted eventName)].

(** The actions [executeAction] hands to [handleSubmit]. *)
Definition is_submit_action (action : option string) : bool :=
  bool_decide (action = Some "login" ∨ action = Some "send" ∨ action = Some "submit").

Definition executeAction (e : electron) (a : atom) (settle : settled response) : list call :=
  (if is_submit_action (electron_action e) then handleSubmit e a settle
   else if decide (electron_action e = Some "validate") then handleValidation e a
   else if decide (electron_action e = Some "redirect") then [set_location (electron_redirect e)]
   else [console_warn (UnknownAction (electron_action e))])
  ++
  match electron_emit e with
  | Some name => if JS.truthy_str name then emitEvent name a else []
  | None => []
  end.

End WithEngine.

(** The network calls of a run. *)
Definition is_network_call (c : call) : bool :=
  match c with
  | fetch_get _ | fetch _ _ _ _ => true
  | _ => false
  end.

Definition network_calls (cs : list call) : list call := filter is_network_call cs.

(** A listener on the window: the event it waits for and the atom and
    electron its closure holds. *)
Record listener := {
  listener_event : string;
  listener_atom : atom;
  listener_electron : electron
}.

(** [`atom:${electron.listen}`]: a missing attribute reads [null]. *)
Definition bondEvent (e : electron) : string :=
  "atom:" +:+ default "null" (electron_listen e).

(** [createBond]: the listener it adds to the window. *)
Definition createBond (a : atom) (e : electron) : listener :=
  {| listener_event := bondEvent e; listener_atom := a; listener_electron := e |}.

(** [bindEvents]: the electrons that get a handler on the container, with
    the event each handles, and the listeners added to the window. *)
Definition bindEvents (a : atom) : list (string * electron) * list listener :=
  (omap (λ e, if JS.truthy_attr (electron_on e) && JS.truthy_attr (electron_action e)
              then Some (default EmptyString (electron_on e), e) else None) (electrons a),
   omap (λ e, if JS.truthy_attr (electron_bond e) then Some (createBond a e) else None)
     (electrons a)).

(** What a bond writes to the console. *)
Inductive bond_log :=
| BondReceived (receiver sender : option string)
| BondRefreshing (receiver : option string).

(** The body of the listener of [createBond], run on an event whose detail
    names the sending atom. *)
Definition onSignal (l : listener) (sender : atom) : list bond_log :=
  BondReceived (atom_name (listener_atom l)) (atom_name sender) ::
  (if decide (electron_action (listener_electron l) = Some "refresh")
   then [BondRefreshing (atom_name (listener_atom l))] else []).

(** [window.dispatchEvent]: the listeners of the event run in the order they
    were added. *)
Definition dispatch (ls : list listener) (event : string) (sender : atom) : list bond_log :=
  ls ≫= λ l, if decide (listener_event l = event) then onSignal l sender else [].

(** The event [emitEvent] dispatches. *)
Definition emitted (eventName : string) : string := "atom:" +:+ eventName.

End ElectronShell.

(** ** The atomic runtime: [AtomicKernel] *)

Module AtomicKernel.

Section WithStorage.

Variable localStorage : gmap string string.
Variable JSON_parse : string → option json.

(** [neutrons.length > 0 ? neutrons.length / protons.length : 1.0] *)
Definition stabilityOf (protons : list proton) (neutrons : list neutron) : number :=
  if (0 <? length neutrons)%nat then div_lengths (length neutrons) (length protons)
  else Finite 1%Qc.

(** The stability check of [parseAtom]. *)
Definition unstable (stability : number) (atomicNumber : nat) : bool :=
  lt_one stability && (2 <? atomicNumber)%nat.

Definition parseAtom (atomNode : atom_node) : atom * list call :=
  let name := an_name atomNode in
  let '(protons, loads) := NucleusManager.extractProtons localStorage JSON_parse atomNode in
  let neutrons := NucleusManager.extractNeutrons atomNode in
  let electrons := ElectronShell.extractElectrons atomNode in
  let atomicNumber := length protons in
  let atomicMass := (length protons + length neutrons)%nat in
  let stability := stabilityOf protons neutrons in
  let advisory :=
    if unstable stability atomicNumber
    then [console_warn (UnstableAtom name stability); console_warn Recommendation]
    else [] in
  ({| atom_name := name; atomicNumber := atomicNumber; atomicMass := atomicMass;
      stability := stability; protons := protons; neutrons := neutrons;
      electrons := electrons |},
   loads ++ advisory ++
   [console_log (AtomParsed name atomicNumber (length neutrons) (length electrons) atomicMass)]).

End WithStorage.

(** The advisory of the stability check is in the log. *)
Definition is_advisory (c : call) : bool :=
  match c with
  | console_warn (UnstableAtom _ _) => true
  | _ => false
  end.

Definition advisory_emitted (log : list call) : bool := existsb is_advisory log.

End AtomicKernel.

(** ** The atomic runtime: [PeriodicTable] *)

Module PeriodicTable.

Definition getPeriod (atomicNumber : nat) : nat :=
  if (atomicNumber <=? 2)%nat then 1
  else if (atomicNumber <=? 10)%nat then 2
  else if (atomicNumber <=? 18)%nat then 3
  else 4.

Definition getGroup (a : atom) : string :=
  if (length (electrons a) =? 0)%nat then "Noble Gas (Inert)"
  else if (length (electrons a) =? 1)%nat then "Alkali (Reactive)"
  else if (length (protons a) <=? length (electrons a))%nat then "Halogen (Highly Reactive)"
  else "Transition Metal (Stable)".

(** [register]: the registry, a [Map] keyed by the name of the atom, and
    the period and group it logs. *)
Definition register (elements : gmap (option string) atom) (a : atom)
    : gmap (option string) atom * (nat * string) :=
  (<[atom_name a := a]> elements, (getPeriod (atomicNumber a), getGroup a)).

Definition getElement (elements : gmap (option string) atom) (name : option string)
    : option atom :=
  elements !! name.

End PeriodicTable.

(** ** The atomic runtime: [BondingManager] *)

Module BondingManager.

(** A bond as [detectBonds] reports it and as [createBond] stores it; the
    strength of the one and the creation time of the other are left out. *)
Record bond := {
  bond_from : option string;
  bond_to : string;
  bond_type : string
}.

(** [atom.querySelectorAll('electron[bond]')]: the electrons that carry the
    attribute, whatever its value. *)
Definition bondsOf (atomNode : atom_node) : list bond :=
  omap (λ eNode, match en_bond eNode with
                 | Some target =>
                     Some {| bond_from := an_name atomNode; bond_to := target;
                             bond_type := "covalent" |}
                 | None => None
                 end) (an_electrons atomNode).

Definition detectBonds (atoms : list atom_node) : list bond :=
  atoms ≫= bondsOf.

Definition createBond (bonds : list bond) (fromAtom : option string) (toAtom : string)
    (bondType : string) : list bond :=
  bonds ++ [{| bond_from := fromAtom; bond_to := toAtom; bond_type := bondType |}].

(** [AtomicKernel.parseMolecule] on the atoms of a molecule: the registry
    of bonds afterwards. *)
Definition parseMolecule (bonds : list bond) (atoms : list atom_node) : list bond :=
  foldl (λ acc b, createBond acc (bond_from b) (bond_to b) (bond_type b)) bonds
    (detectBonds atoms).

End BondingManager.

(** ** The v0.1 runtime: [Store] *)

Module Store.

(** Arrays and objects have an identity: a value is a primitive or the
    location of an array or an object in the heap. A location is an index
    into the heap, and an allocation extends the heap at its end. *)
Abbreviation loc := nat.

Inductive val :=
| VNull
| VBool (b : bool)
| VNum (n : Z)
| VStr (s : string)
| VRef (l : loc).

Inductive obj :=
| OArr (items : list val)
| OObj (props : jsobj val).

Abbreviation heap := (list obj).

Global Instance val_eq_dec : EqDecision val.
Proof. solve_decision. Defined.

Record schema := { schema_type : option string }.

Record store := {
  data : gmap string val;
  computed : gmap string string;
  state : gmap string (option string);
  schemas : gmap string schema
}.

(** An [h6x-data] element. *)
Record data_node := {
  node_name : option string;
  node_persist : option string;
  node_schema : option string;
  node_compute : option string;
  node_textContent : string
}.

(** A property key: [null] is read as the key [null]. *)
Definition key_of (name : option string) : string := default "null" name.

Definition truthy_val (v : val) : bool :=
  match v with
  | VNull => false
  | VBool b => b
  | VNum n => negb (n =? 0)%Z
  | VStr s => JS.truthy_str s
  | VRef _ => true
  end.

Section AllocAll.

Context {A B : Type} (f : A → heap → B * heap).

(** Allocate the members of a list from left to right. *)
Fixpoint alloc_all (xs : list A) (h : heap) : list B * heap :=
  match xs with
  | [] => ([], h)
  | x :: xs' =>
      let '(y, h1) := f x h in
      let '(ys, h2) := alloc_all xs' h1 in
      (y :: ys, h2)
  end.

End AllocAll.

(** The value [JSON.parse] builds for a tree: every array and every object
    of the tree is a new object of the heap. *)
Fixpoint alloc (t : json) (h : heap) : val * heap :=
  match t with
  | JNull => (VNull, h)
  | JBool b => (VBool b, h)
  | JNum n => (VNum n, h)
  | JStr s => (VStr s, h)
  | JArr items =>
      let '(vs, h1) := alloc_all alloc items h in
      (VRef (length h1), h1 ++ [OArr vs])
  | JObj props =>
      let '(ps, h1) :=
        alloc_all (λ p h, let '(v, h') := alloc p.2 h in ((p.1, v), h')) props h in
      (VRef (length h1), h1 ++ [OObj ps])
  end.

(** The tree a value stands for, read through the heap; the fuel bounds the
    depth. *)
Fixpoint read (fuel : nat) (h : heap) (v : val) : option json :=
  match v with
  | VNull => Some JNull
  | VBool b => Some (JBool b)
  | VNum n => Some (JNum n)
  | VStr s => Some (JStr s)
  | VRef l =>
      match fuel with
      | O => None
      | S fuel' =>
          match h !! l with
          | Some (OArr vs) => JArr <$> mapM (read fuel' h) vs
          | Some (OObj ps) => JObj <$> mapM (λ p, (λ t, (p.1, t)) <$> read fuel' h p.2) ps
          | None => None
          end
      end
  end.

(** [structuredClone(v)]: serialize, then build the copy from new objects.
    A tree in a heap is never deeper than the heap is long. Every value
    [load] stores is a tree; on a value that is not one (a cycle made from
    outside) the model gives up where the browser copies the graph. *)
Definition structuredClone (h : heap) (v : val) : result (val * heap) :=
  match read (S (length h)) h v with
  | Some t => Ok (alloc t h)
  | None => Throw DataCloneError
  end.

Definition isArray (h : heap) (v : val) : bool :=
  match v with
  | VRef l => match h !! l with Some (OArr _) => true | _ => false end
  | _ => false
  end.

(** [typeof v === "object"] *)
Definition typeof_object (v : val) : bool :=
  match v with
  | VNull | VRef _ => true
  | _ => false
  end.

(** [Store.validate] *)
Definition validate (h : heap) (payload : val) (sch : schema) : result bool :=
  if bool_decide (schema_type sch = Some "array") && negb (isArray h payload) then
    Throw (Error "Data must be an array")
  else if bool_decide (schema_type sch = Some "object") && negb (typeof_object payload) then
    Throw (Error "Data must be an object")
  else Ok true.

Section WithParser.

Variable JSON_parse : string → option json.

(** The schema check of [load]: [if (schema && this.schemas[schema])]. *)
Definition checkSchema (s : store) (h : heap) (schema : option string) (payload : val)
    : result bool :=
  match schema with
  | Some sname =>
      if JS.truthy_str sname then
        match schemas s !! sname with
        | Some sch => validate h payload sch
        | None => Ok true
        end
      else Ok true
  | None => Ok true
  end.

Definition set_data (s : store) (name : string) (payload : val) : store :=
  {| data := <[name := payload]> (data s); computed := computed s;
     state := state s; schemas := schemas s |}.

Definition set_computed (s : store) (name : string) (expr : string) : store :=
  {| data := data s; computed := <[name := expr]> (computed s);
     state := state s; schemas := schemas s |}.

(** [Store.load]: the [try] block ends at the first throw, the [catch]
    block logs the error, and the call itself completes normally. *)
Definition load (s : store) (h : heap) (node : data_node)
    : result (store * heap * list call) :=
  let name := node_name node in
  if JS.truthy_attr (node_compute node) then
    Ok (set_computed s (key_of name) (default EmptyString (node_compute node)), h,
        [node_remove])
  else
    match JSON_parse (JS.trim (node_textContent node)) with
    | None => Ok (s, h, [console_error (LoadFailed name SyntaxError)])
    | Some t =>
        let '(payload, h1) := alloc t h in
        match checkSchema s h1 (node_schema node) payload with
        | Throw e => Ok (s, h1, [console_error (LoadFailed name e)])
        | Ok _ =>
            Ok (set_data s (key_of name) payload, h1,
                (if decide (node_persist node = Some "indexeddb")
                 then [persistToIndexedDB name] else []) ++ [node_remove])
        end
    end.

End WithParser.

(** [item[key]] for an item of a collection. A number and a boolean own
    no property; a string and an array have a length and their indices. The
    methods an item inherits are functions, equal to no boolean and to no
    string: they read as [undefined] here. *)
Definition index_named (key : string) (n : nat) : option nat :=
  head (filter (λ i, pretty i = key) (seq 0 n)).

Definition char_at (s : string) (i : nat) : option val :=
  (λ c, VStr (String c EmptyString)) <$> String.get i s.

Definition get_prop (h : heap) (item : val) (key : string) : result (option val) :=
  match item with
  | VNull =>
      Throw (TypeError ("Cannot read properties of null (reading '" +:+ key +:+ "')"))
  | VBool _ | VNum _ => Ok None
  | VStr s =>
      if decide (key = "length") then Ok (Some (VNum (Z.of_nat (String.length s))))
      else Ok (index_named key (String.length s) ≫= char_at s)
  | VRef l =>
      match h !! l with
      | Some (OObj props) => Ok (obj_get key props)
      | Some (OArr items) =>
          if decide (key = "length") then Ok (Some (VNum (Z.of_nat (length items))))
          else Ok (index_named key (length items) ≫= (items !!.))
      | None => Ok None
      end
  end.

(** The callback of [data.filter]. *)
Definition matches (h : heap) (key value : string) (item : val) : result bool :=
  field ← get_prop h item key;
  Ok (if decide (value = "true") then bool_decide (field = Some (VBool true))
      else if decide (value = "false") then bool_decide (field = Some (VBool false))
      else bool_decide (field = Some (VStr value))).

(** [items.filter(cb)] with a callback that can throw. *)
Fixpoint filter_items (cb : val → result bool) (items : list val) : result (list val) :=
  match items with
  | [] => Ok []
  | item :: items' =>
      keep ← cb item;
      rest ← filter_items cb items';
      Ok (if keep : bool then item :: rest else rest)
  end.

(** [this.data[dataName]], falsy when absent. *)
Definition truthy_data (d : option val) : bool :=
  match d with
  | Some v => truthy_val v
  | None => false
  end.

Definition evalComputed (s : store) (h : heap) (expr : string) : result (val * heap) :=
  match JS.search JS.filter_re expr with
  | Some (dataName, key, value) =>
      let d := data s !! dataName in
      if negb (truthy_data d) then Ok (VNull, h)
      else
        match d with
        | Some (VRef l) =>
            match h !! l with
            | Some (OArr items) =>
                kept ← filter_items (matches h key value) items;
                Ok (VRef (length h), h ++ [OArr kept])
            | _ => Throw (TypeError "data.filter is not a function")
            end
        | _ => Throw (TypeError "data.filter is not a function")
        end
  | None =>
      match JS.search JS.count_re expr with
      | Some dataName =>
          match data s !! dataName with
          | Some (VRef l) =>
              match h !! l with
              | Some (OArr items) => Ok (VNum (Z.of_nat (length items)), h)
              | _ => Ok (VNum 0, h)
              end
          | _ => Ok (VNum 0, h)
          end
      | None => Ok (VNull, h)
      end
  end.

(** [Store.get] *)
Definition get (s : store) (h : heap) (name : string) : result (val * heap * list call) :=
  if JS.truthy_attr (computed s !! name) then
    r ← evalComputed s h (default EmptyString (computed s !! name));
    Ok (r.1, r.2, [])
  else if negb (truthy_data (data s !! name)) then
    Ok (VNull, h, [console_warn (DataNotFound name)])
  else
    r ← structuredClone h (default VNull (data s !! name));
    Ok (r.1, r.2, []).

(** A write to an object from outside the store: [o.k = v], [a[i] = v],
    [a.push(v)] all replace the object at one location. *)
Definition write (h : heap) (l : loc) (o : obj) : heap := <[l := o]> h.

(** The locations a value reaches through the heap. *)
Inductive reaches (h : heap) : val → loc → Prop :=
| reaches_here l : reaches h (VRef l) l
| reaches_item l items v l' :
    h !! l = Some (OArr items) → v ∈ items → reaches h v l' → reaches h (VRef l) l'
| reaches_prop l props k v l' :
    h !! l = Some (OObj props) → (k, v) ∈ props → reaches h v l' → reaches h (VRef l) l'.

(** An empty store. *)
Definition empty : store := {| data := ∅; computed := ∅; state := ∅; schemas := ∅ |}.

(** An [h6x-state] element. *)
Record state_node := {
  state_name : option string;
  state_initial : option string
}.

Definition set_state (s : store) (name : string) (value : option string) : store :=
  {| data := data s; computed := computed s;
     state := <[name := value]> (state s); schemas := schemas s |}.

(** [Store.loadState]: [initial || null]. *)
Definition loadState (s : store) (node : state_node) : store * list call :=
  (set_state s (key_of (state_name node))
     (if JS.truthy_attr (state_initial node) then state_initial node else None),
   [node_remove]).

(** [Store.getState]: [None] is [undefined], [Some None] is [null]. *)
Definition getState (s : store) (name : string) : option (option string) :=
  state s !! name.

(** [Store.setState] with [notifyStateChange], for a value that is a string
    or [null]. *)
Definition setState (s : store) (name : string) (value : option string)
    : store * list call :=
  (set_state s name value,
   [dispatchEvent "h6x:state-change"
      (plain [("name", JStr name);
              ("value", match value with Some v => JStr v | None => JNull end)])]).

Section Boot.

Variable JSON_parse : string → option json.

(** The first two phases of [H6XRuntime.boot]: every [h6x-data] element is
    loaded, then every [h6x-state] element, in document order. *)
Fixpoint loadAll (s : store) (h : heap) (nodes : list data_node)
    : result (store * heap * list call) :=
  match nodes with
  | [] => Ok (s, h, [])
  | node :: nodes' =>
      r ← load JSON_parse s h node;
      r' ← loadAll r.1.1 r.1.2 nodes';
      Ok (r'.1.1, r'.1.2, r.2 ++ r'.2)
  end.

Definition loadStates (s : store) (nodes : list state_node) : store * list call :=
  foldl (λ acc node, let r := loadState acc.1 node in (r.1, acc.2 ++ r.2)) (s, []) nodes.

Definition bootStore (s : store) (h : heap) (dataNodes : list data_node)
    (stateNodes : list state_node) : result (store * heap * list call) :=
  r ← loadAll s h dataNodes;
  Ok ((loadStates r.1.1 stateNodes).1, r.1.2, r.2 ++ (loadStates r.1.1 stateNodes).2).

End Boot.

End Store.

(** ** The v0.1 runtime: [Renderer] and [H6XRuntime] *)

Module Renderer.

(** The serialization of a text node by [innerHTML]: the ampersand, the
    no-break space and the angle brackets become character references. *)
Definition escapeChar (c : ascii) : string :=
  let n := JS.code c in
  if (n =? 38)%nat then "&amp;"
  else if (n =? 160)%nat then "&nbsp;"
  else if (n =? 60)%nat then "&lt;"
  else if (n =? 62)%nat then "&gt;"
  else String c EmptyString.

Fixpoint escapeText (s : string) : string :=
  match s with
  | EmptyString => EmptyString
  | String c s' => escapeChar c +:+ escapeText s'
  end.

(** [Renderer.sanitize]: [null] and [undefined] give the empty string, any
    other value the serialization of its text. *)
Definition sanitize (E : engine) (value : option json) : string :=
  match value with
  | None | Some JNull => EmptyString
  | Some v => escapeText (to_string E v)
  end.

End Renderer.

Module H6XRuntime.

(** The items of [renderSidebar]: the trimmed lines of the panel text that
    are not empty. *)
Definition sidebarItems (textContent : string) : list string :=
  filter (λ i, JS.truthy_str i = true) (map JS.trim (JS.split NucleusManager.newline textContent)).

End H6XRuntime.

(** ** The vocabulary of the statements *)

(** The character [c] occurs in [s]. *)
Fixpoint has_char (c : ascii) (s : string) : bool :=
  match s with
  | EmptyString => false
  | String c' s' => Ascii.eqb c' c || has_char c s'
  end.

Fixpoint all_chars (p : ascii → bool) (s : string) : bool :=
  match s with
  | EmptyString => true
  | String c s' => p c && all_chars p s'
  end.

(** A bare token of the expression grammar: what [\w+] matches in full. *)
Definition is_word (s : string) : bool :=
  JS.truthy_str s && all_chars JS.is_word_char s.

(** The local key under which a data source is gathered, if it has one. *)
Definition local_key (p : proton) : option string :=
  match proton_local p with
  | Some key => if JS.truthy_str key then Some key else None
  | None => None
  end.

(** A rule set as the parser builds it: no field is named [__proto__]. *)
Definition ordinary_fields (n : neutron) : Prop :=
  Forall (λ entry : string * rule_val, entry.1 ≠ "__proto__") (neutron_rules n).

(** The rules of a field list [required]: as a token of the list, or
    within the text when the rules are a text. *)
Definition lists_required (rules : rule_val) : bool :=
  match rules with
  | RList tokens => bool_decide ("required" ∈ tokens)
  | RStr text => JS.includes_str text "required"
  end.

(** A rule set fails the check of the submit path: it is of kind [validate]
    and one of its fields lists [required] while the value read from the
    data under the name of the field is falsy. *)
Definition field_fails (E : engine) (data : object) (entry : string * rule_val) : bool :=
  lists_required entry.2 && negb (truthy_value (lookup E data entry.1)).

Definition rule_set_fails (E : engine) (data : object) (n : neutron) : bool :=
  bool_decide (neutron_type n = Some "validate") &&
  existsb (field_fails E data) (neutron_rules n).

(** The stability the specification gives a component: the ratio of the
    rule count to the source count, and [1.0] without sources. *)
Definition stability_as_specified (ruleCount sourceCount : nat) : number :=
  if (sourceCount =? 0)%nat then Finite 1%Qc else div_lengths ruleCount sourceCount.

(** The advisory condition the specification gives. *)
Definition advisory_as_specified (ruleCount sourceCount : nat) : bool :=
  lt_one (div_lengths ruleCount sourceCount) && (2 <? sourceCount)%nat.

(** The items of a named collection of the store, when it is an array. *)
Definition collection (s : Store.store) (h : Store.heap) (name : string)
    : option (list Store.val) :=
  match Store.data s !! name with
  | Some (Store.VRef l) =>
      match h !! l with
      | Some (Store.OArr items) => Some items
      | _ => None
      end
  | _ => None
  end.

(** The field of an item named by a key ([None]: no such field). *)
Definition field_of (h : Store.heap) (item : Store.val) (key : string) : option Store.val :=
  match Store.get_prop h item key with
  | Ok f => f
  | Throw _ => None
  end.

(** A field matches a literal: [true] and [false] as booleans, any other
    token as a string. *)
Definition literal_matches (lit : string) (field : option Store.val) : bool :=
  if decide (lit = "true") then bool_decide (field = Some (Store.VBool true))
  else if decide (lit = "false") then bool_decide (field = Some (Store.VBool false))
  else bool_decide (field = Some (Store.VStr lit)).

(** A payload mismatches the declared type of a schema, as [Store.validate]
    tests it: not an array under [array], a number, a string or a boolean
    under [object]. *)
Definition mismatches (sch : Store.schema) (t : json) : bool :=
  match Store.schema_type sch with
  | Some ty =>
      if decide (ty = "array") then
        match t with JArr _ => false | _ => true end
      else if decide (ty = "object") then
        match t with JBool _ | JNum _ | JStr _ => true | _ => false end
      else false
  | None => false
  end.

(** The depth of a tree: the fuel that reads it back. *)
Fixpoint depth (t : json) : nat :=
  match t with
  | JArr items => S (foldr (λ i d, depth i `max` d) 0 items)
  | JObj props => S (foldr (λ p d, depth p.2 `max` d) 0 props)
  | _ => 0
  end.

(** A tree with an identity: an array or an object. *)
Definition is_compound (t : json) : bool :=
  match t with
  | JArr _ | JObj _ => true
  | _ => false
  end.

(** The input after a run of a character class: empty, or a character
    outside the class. *)
Definition stops (p : ascii → bool) (r : string) : bool :=
  match r with
  | EmptyString => true
  | String c _ => negb (p c)
  end.

(** [h'] keeps every object of [h] where it is: the heap was extended, or
    written at locations [h] does not have. *)
Definition agree (h h' : Store.heap) : Prop := ∀ i o, h !! i = Some o → h' !! i = Some o.

(** What allocating the tree [t] in [h] gives: the heap is extended, the
    value reads back as [t], and it reaches new objects only. *)
Definition allocated (h : Store.heap) (t : json) (v : Store.val) (h' : Store.heap) : Prop :=
  agree h h' ∧ length h ≤ length h' ∧
  Store.read (depth t) h' v = Some t ∧
  depth t + length h ≤ length h' ∧
  ∀ l, Store.reaches h' v l → length h ≤ l < length h'.

(** ** Sample markup and data *)

(** A data source that is only remote, and a component of three of them
    with no rule. *)
Definition remote_source : proton_node :=
  {| pn_source := Some "/api/items"; pn_local := None; pn_cache := None;
     pn_persist := None; pn_fallback := None |}.

Definition three_sources : atom_node :=
  {| an_name := Some "catalog";
     an_protons := [remote_source; remote_source; remote_source];
     an_neutrons := []; an_electrons := [] |}.

(** A component of two rule sets and no data source. *)
Definition required_email : neutron_node :=
  {| nn_type := Some "validate"; nn_textContent := "email: required" |}.

Definition rules_only : atom_node :=
  {| an_name := Some "policy"; an_protons := [];
     an_neutrons := [required_email; required_email]; an_electrons := [] |}.

(** The rule sets of [password: minLength(8)] and of [email: required]. *)
Definition password_rule : neutron :=
  NucleusManager.extractNeutron 0
    {| nn_type := Some "validate"; nn_textContent := "password: minLength(8)" |}.

Definition email_rule : neutron := NucleusManager.extractNeutron 0 required_email.

(** A login form: the local source [email], the rule [email: required], and
    a [login] action posting to an endpoint. *)
Definition email_source (value : json) : proton :=
  {| proton_id := "p0"; proton_source := None; proton_local := Some "email";
     proton_cache := "memory"; proton_persist := None; proton_fallback := None;
     proton_data := value |}.

Definition login_electron : electron :=
  ElectronShell.extractElectron 0
    {| en_on := Some "submit"; en_action := Some "login"; en_endpoint := Some "/api/login";
       en_method := Some "POST"; en_redirect := Some "/home"; en_bond := None;
       en_emit := Some "logged-in"; en_listen := None |}.

Definition login_atom (email : json) : atom :=
  {| atom_name := Some "login"; atomicNumber := 1; atomicMass := 2;
     stability := Finite 1%Qc; protons := [email_source email];
     neutrons := [email_rule]; electrons := [login_electron] |}.




(** The collection [[{id:1,active:true},{id:2,active:false}]], the element
    that declares it, and the store and heap after loading it. *)
Definition users_json : json :=
  JArr [JObj [("id", JNum 1); ("active", JBool true)];
        JObj [("id", JNum 2); ("active", JBool false)]].

Definition parse_users (text : string) : option json := Some users_json.

Definition users_node : Store.data_node :=
  {| Store.node_name := Some "users"; Store.node_persist := None;
     Store.node_schema := None; Store.node_compute := None;
     Store.node_textContent := "[users]" |}.

Definition users_heap : Store.heap :=
  [Store.OObj [("id", Store.VNum 1); ("active", Store.VBool true)];
   Store.OObj [("id", Store.VNum 2); ("active", Store.VBool false)];
   Store.OArr [Store.VRef 0; Store.VRef 1]].

Definition users_store : Store.store := Store.set_data Store.empty "users" (Store.VRef 2).

(** A computed binding declared under the name of the collection. *)
Definition users_count_node : Store.data_node :=
  {| Store.node_name := Some "users"; Store.node_persist := None;
     Store.node_schema := None; Store.node_compute := Some "users.count";
     Store.node_textContent := EmptyString |}.

(** A collection of five tasks, and an empty one. *)
Definition tasks_heap : Store.heap :=
  [Store.OArr [Store.VNum 1; Store.VNum 2; Store.VNum 3; Store.VNum 4; Store.VNum 5];
   Store.OArr []].

Definition tasks_store : Store.store :=
  Store.set_data (Store.set_data Store.empty "tasks" (Store.VRef 0)) "done" (Store.VRef 1).

(** A store with the schema [list] of type [array] and an earlier
    registration of [tasks]; an element that declares [tasks] against the
    schema with the payload [5]. *)
Definition schema_store : Store.store :=
  {| Store.data := {[ "tasks" := Store.VRef 0 ]}; Store.computed := ∅; Store.state := ∅;
     Store.schemas := {[ "list" := {| Store.schema_type := Some "array" |} ]} |}.

Definition parse_five (text : string) : option json := Some (JNum 5).

Definition five_node : Store.data_node :=
  {| Store.node_name := Some "tasks"; Store.node_persist := None;
     Store.node_schema := Some "list"; Store.node_compute := None;
     Store.node_textContent := "5" |}.

(** A component whose one data source has the local key [__proto__] and
    the array [[1, 2]] as its data. *)
Definition proto_key_atom : atom :=
  {| atom_name := Some "odd"; atomicNumber := 1; atomicMass := 1;
     stability := Finite 1%Qc;
     protons := [{| proton_id := "p0"; proton_source := None;
                    proton_local := Some "__proto__"; proton_cache := "memory";
                    proton_persist := None; proton_fallback := None;
                    proton_data := JArr [JNum 1; JNum 2] |}];
     neutrons := []; electrons := [] |}.

(** A component whose password [abc] is shorter than its rule set
    [password: minLength(8)] asks. *)
Definition short_password_atom : atom :=
  {| atom_name := Some "login"; atomicNumber := 1; atomicMass := 2;
     stability := Finite 1%Qc;
     protons := [{| proton_id := "p0"; proton_source := None;
                    proton_local := Some "password"; proton_cache := "memory";
                    proton_persist := None; proton_fallback := None;
                    proton_data := JStr "abc" |}];
     neutrons := [password_rule]; electrons := [login_electron] |}.

(** The collection [[{active:true}, null]], the element that declares it,
    and the store and heap after loading it. *)
Definition flagged_json : json := JArr [JObj [("active", JBool true)]; JNull].

Definition parse_flagged (text : string) : option json := Some flagged_json.

Definition flagged_node : Store.data_node :=
  {| Store.node_name := Some "users"; Store.node_persist := None;
     Store.node_schema := None; Store.node_compute := None;
     Store.node_textContent := "[flagged]" |}.

Definition flagged_heap : Store.heap :=
  [Store.OObj [("active", Store.VBool true)]; Store.OArr [Store.VRef 0; Store.VNull]].

Definition flagged_store : Store.store := Store.set_data Store.empty "users" (Store.VRef 1).

(** ** A reference engine *)

(** The methods of [Array.prototype] (ECMAScript 2023) with their lengths. *)
Definition Array_prototype : list (string * nat) :=
  [("at", 1); ("concat", 1); ("constructor", 1); ("copyWithin", 2); ("entries", 0);
   ("every", 1); ("fill", 1); ("filter", 1); ("find", 1); ("findIndex", 1);
   ("findLast", 1); ("findLastIndex", 1); ("flat", 0); ("flatMap", 1); ("forEach", 1);
   ("includes", 1); ("indexOf", 1); ("join", 1); ("keys", 0); ("lastIndexOf", 1);
   ("map", 1); ("pop", 0); ("push", 1); ("reduce", 1); ("reduceRight", 1);
   ("reverse", 0); ("shift", 0); ("slice", 2); ("some", 1); ("sort", 1); ("splice", 2);
   ("toLocaleString", 0); ("toReversed", 0); ("toSorted", 1); ("toSpliced", 2);
   ("toString", 0); ("unshift", 1); ("values", 0); ("with", 2)].

(** The double nearest to an integer, ties to even; [None] is an infinity. *)
Definition round_to_double (n : Z) : option Z :=
  let a := Z.abs n in
  let e := (Z.log2 a - 52)%Z in
  if (e <=? 0)%Z then Some n
  else
    let q := Z.shiftr a e in
    let r := (a - Z.shiftl q e)%Z in
    let half := Z.shiftl 1 (e - 1) in
    let q' := if (half <? r)%Z || ((r =? half)%Z && Z.odd q) then (q + 1)%Z else q in
    let v := Z.shiftl q' e in
    if (2 ^ 1024 <=? v)%Z then None else Some (Z.sgn n * v)%Z.

(** [Number::toString] for a positive integer-valued double [v]: the
    shortest digits [s] and the exponent [n] with [s * 10^(n-k)] read back
    as [v], the closest to [v] among the shortest. *)
Definition decimal_digits (v : Z) : Z := Z.of_nat (String.length (pretty v)).

Definition shortest_candidates (v : Z) : list (Z * Z * Z * Z) :=
  k ← Z.of_nat <$> seq 1 17;
  n ← [decimal_digits v; (decimal_digits v + 1)%Z];
  let j := (n - k)%Z in
  if (j <? 0)%Z then []
  else
    s ← [(v / 10 ^ j)%Z; (v / 10 ^ j + 1)%Z];
    if (10 ^ (k - 1) <=? s)%Z && (s <? 10 ^ k)%Z &&
       bool_decide (round_to_double (s * 10 ^ j) = Some v)
    then [(k, Z.abs (s * 10 ^ j - v), s, n)%Z]
    else [].

Definition closer (x y : Z * Z * Z * Z) : Z * Z * Z * Z :=
  let '(k1, d1, _, _) := x in
  let '(k2, d2, _, _) := y in
  if (k2 <? k1)%Z || ((k2 =? k1)%Z && (d2 <? d1)%Z) then y else x.

Fixpoint zeros (n : nat) : string :=
  match n with
  | O => EmptyString
  | S n' => String "0" (zeros n')
  end.

Definition positive_double_text (v : Z) : string :=
  match shortest_candidates v with
  | [] => pretty v
  | c :: cs =>
      let '(k, _, s, n) := foldl closer c cs in
      let digits := pretty s in
      if (n <=? 21)%Z then digits +:+ zeros (Z.to_nat (n - k))
      else
        match digits with
        | String d rest =>
            String d (if (k =? 1)%Z then EmptyString else String "." rest) +:+
            "e+" +:+ pretty (n - 1)%Z
        | EmptyString => EmptyString
        end
  end.

Definition double_text (v : Z) : string :=
  if (v <? 0)%Z then "-" +:+ positive_double_text (- v) else positive_double_text v.

(** The double nearest to a fraction, ties to even: the fraction is cut
    to 53 bits at its leading bit, or at [2^-1074] below the normal range. *)
Definition round_fraction (a : Z) (b : positive) : numeric :=
  let m := Z.abs a in
  if (m =? 0)%Z then Num (inject_Z 0)
  else
    let e0 := (Z.log2 m - Z.log2 (Zpos b))%Z in
    let e := if (Z.shiftl m (- e0) <? Zpos b)%Z then (e0 - 1)%Z else e0 in
    let u := Z.max (e - 52) (-1074) in
    let n := Z.shiftl m (- Z.min u 0) in
    let d := Z.shiftl (Zpos b) (Z.max u 0) in
    let q := (n / d)%Z in
    let r := (n mod d)%Z in
    let q' := if (d <? 2 * r)%Z || ((2 * r =? d)%Z && Z.odd q) then (q + 1)%Z else q in
    if (2 ^ 1024 <=? Z.shiftl q' u)%Z then (if (a <? 0)%Z then NegInfinity else PosInfinity)
    else if (0 <=? u)%Z then Num (inject_Z (Z.sgn a * Z.shiftl q' u))
    else Num (Qred (Z.sgn a * q' # Z.to_pos (2 ^ (- u)))).

(** [Number(s)] (StringToNumber): the blank string is [0]; a decimal
    literal has an optional sign, digits with an optional fraction and an
    optional exponent, or is [Infinity]; [0x], [0o] and [0b] introduce an
    unsigned integer in another base; anything else is [NaN]. *)
Fixpoint span (p : ascii → bool) (s : string) : string * string :=
  match s with
  | String c s' =>
      if p c then let '(a, b) := span p s' in (String c a, b) else (EmptyString, s)
  | EmptyString => (EmptyString, EmptyString)
  end.

Definition digit_in (base : nat) (c : ascii) : option Z :=
  let n := JS.code c in
  let d := if JS.between 48 57 c then Some (n - 48)%nat
           else if JS.between 97 102 c then Some (n - 87)%nat
           else if JS.between 65 70 c then Some (n - 55)%nat
           else None in
  match d with
  | Some d => if (d <? base)%nat then Some (Z.of_nat d) else None
  | None => None
  end.

Fixpoint digits_in (base : nat) (acc : Z) (s : string) : option Z :=
  match s with
  | EmptyString => Some acc
  | String c s' =>
      match digit_in base c with
      | Some d => digits_in base (Z.of_nat base * acc + d)%Z s'
      | None => None
      end
  end.

Definition based_literal (base : nat) (digits : string) : numeric :=
  if JS.is_empty digits then NotANumber
  else match digits_in base 0 digits with
       | Some n => round_fraction n 1
       | None => NotANumber
       end.

Definition exponent_of (rest : string) : option Z :=
  match rest with
  | EmptyString => Some 0%Z
  | String c rest' =>
      if bool_decide (c = "e"%char ∨ c = "E"%char) then
        let '(sign, digits) :=
          match rest' with
          | String "+" d => (1%Z, d)
          | String "-" d => ((-1)%Z, d)
          | _ => (1%Z, rest')
          end in
        if JS.is_empty digits then None
        else (λ n, sign * n)%Z <$> digits_in 10 0 digits
      else None
  end.

Definition decimal_literal (sign : Z) (t : string) : numeric :=
  if bool_decide (t = "Infinity") then (if (sign <? 0)%Z then NegInfinity else PosInfinity)
  else
    let '(whole, rest) := span JS.is_digit t in
    let '(fraction, rest') :=
      match rest with
      | String "." r => span JS.is_digit r
      | _ => (EmptyString, rest)
      end in
    if JS.is_empty whole && JS.is_empty fraction then NotANumber
    else
      match exponent_of rest' with
      | Some e =>
          let mantissa := (sign * JS.parseInt (whole +:+ fraction))%Z in
          let e' := (e - Z.of_nat (String.length fraction))%Z in
          if (0 <=? e')%Z then round_fraction (mantissa * 10 ^ e') 1
          else round_fraction mantissa (Z.to_pos (10 ^ (- e')))
      | None => NotANumber
      end.

Definition read_number (s : string) : numeric :=
  match JS.trim s with
  | EmptyString => Num (inject_Z 0)
  | String "0" (String ("x" | "X") d) => based_literal 16 d
  | String "0" (String ("o" | "O") d) => based_literal 8 d
  | String "0" (String ("b" | "B") d) => based_literal 2 d
  | String "+" t => decimal_literal 1 t
  | String "-" t => decimal_literal (-1) t
  | t => decimal_literal 1 t
  end.

(** An engine for the examples: the methods of ECMAScript 2023, numbers
    rounded to the nearest double and printed with the shortest digits. *)
Definition reference_engine : engine :=
  {| array_method := λ k, obj_get k Array_prototype;
     nearest_double := round_to_double;
     large_number_text := double_text;
     string_to_number := read_number |}.

(** ** The vocabulary of the further statements *)

(** A part of an address: not empty, without whitespace and without [@]. *)
Definition email_part (x : string) : bool :=
  JS.truthy_str x && all_chars JS.is_email_char x.

(** The events dispatched on the window, and the navigations, of a run. *)
Definition is_dispatch (c : call) : bool :=
  match c with
  | dispatchEvent _ _ => true
  | _ => false
  end.

Definition is_navigation (c : call) : bool :=
  match c with
  | set_location _ => true
  | _ => false
  end.

(** The [fetch] of a submit was answered with [response.ok]. *)
Definition answered_ok (settle : settled ElectronShell.response) : bool :=
  match settle with
  | Fulfilled r => ElectronShell.ok r
  | Rejected => false
  end.

(** The one message of the submit path. *)
Definition required_field_only (entry : string * list string) : Prop :=
  entry.2 = ["Required field"].

(** A string without whitespace at either end. *)
Definition trimmed (s : string) : Prop := JS.trim s = s.

(** A string that does not start with whitespace. *)
Definition starts_clean (s : string) : bool :=
  match s with
  | EmptyString => true
  | String c _ => negb (JS.is_space c)
  end.

(** The separator and the value of a line, by rule kind. *)
Definition rule_shape (type : option string) : option (ascii * (string → rule_val)) :=
  if decide (type = Some "validate") then Some (":"%char, NucleusManager.listOf)
  else if decide (type = Some "compute") then Some ("="%char, RStr)
  else if decide (type = Some "transform") then Some (":"%char, NucleusManager.listOf)
  else None.

(** The entry a line declares, if it declares one: the first two parts of
    the line, trimmed, when neither is empty. *)
Definition line_entry (sep : ascii) (mk : string → rule_val) (line : string)
    : option (string * rule_val) :=
  match map JS.trim (JS.split sep line) with
  | field :: rulesStr :: _ =>
      if JS.truthy_str field && JS.truthy_str rulesStr then Some (field, mk rulesStr) else None
  | _ => None
  end.

(** The entries the lines of a rule body declare, in order. *)
Definition declared (type : option string) (content : string) : list (string * rule_val) :=
  match rule_shape type with
  | Some (sep, mk) => omap (line_entry sep mk) (JS.split NucleusManager.newline content)
  | None => []
  end.

(** A rule value as the parser builds it: a list of trimmed tokens, not
    empty, or a trimmed expression, not empty. *)
Definition well_formed_value (v : rule_val) : Prop :=
  match v with
  | RList tokens => tokens ≠ [] ∧ Forall trimmed tokens
  | RStr expression => JS.truthy_str expression = true ∧ trimmed expression
  end.

(** The value fits the kind: lists for [validate] and [transform],
    expressions for [compute]. *)
Definition value_of_kind (type : option string) (v : rule_val) : Prop :=
  match v with
  | RList _ => type = Some "validate" ∨ type = Some "transform"
  | RStr _ => type = Some "compute"
  end.

(** The electron is bonded and listens for the signal. *)
Definition listens_for (signal : string) (e : electron) : bool :=
  JS.truthy_attr (electron_bond e) &&
  bool_decide (default "null" (electron_listen e) = signal).

(** The listeners on the window once the events of the atoms are bound,
    one atom after the other. *)
Definition window_listeners (atoms : list atom) : list ElectronShell.listener :=
  atoms ≫= λ a, (ElectronShell.bindEvents a).2.

(** The registry after the atoms are registered, one after the other. *)
Definition registered (atoms : list atom) : gmap (option string) atom :=
  foldl (λ elements a, (PeriodicTable.register elements a).1) ∅ atoms.

(** The call writes an error to the console. *)
Definition is_error (c : call) : bool :=
  match c with
  | console_error _ => true
  | _ => false
  end.

(** [initial || null] *)
Definition initial_or_null (node : Store.state_node) : option string :=
  if JS.truthy_attr (Store.state_initial node) then Store.state_initial node else None.

(** A parser that knows the text of [users_node] only, and an element whose
    text it rejects. *)
Definition parse_users_only (text : string) : option json :=
  if decide (text = "[users]") then Some users_json else None.

Definition broken_node : Store.data_node :=
  {| Store.node_name := Some "broken"; Store.node_persist := None;
     Store.node_schema := None; Store.node_compute := None;
     Store.node_textContent := "{oops" |}.

(** An element that declares [total] with no schema. *)
Definition total_node : Store.data_node :=
  {| Store.node_name := Some "total"; Store.node_persist := None;
     Store.node_schema := None; Store.node_compute := None;
     Store.node_textContent := "0" |}.

(** A character the serialization of a text node leaves as it is. *)
Definition plain_char (c : ascii) : bool :=
  let n := JS.code c in
  negb ((n =? 38)%nat || (n =? 160)%nat || (n =? 60)%nat || (n =? 62)%nat).

(** * Properties *)

(** * The regular expressions *)

Lemma plus_class_stops {A} p r (k : string → string → option A) :
  stops p r = true → JS.plus_class p r k = None.
Proof.
  destruct r as [|c r]; simpl; [done|].
  by intros ->%negb_true_iff.
Qed.

(** A full run followed by a stop: the longest match is the first one tried. *)
Lemma plus_class_run {A} p w r (k : string → string → option A) x :
  JS.truthy_str w = true → all_chars p w = true → stops p r = true →
  k w r = Some x →
  JS.plus_class p (w +:+ r) k = Some x.
Proof.
  revert k. induction w as [|c w IH]; intros k Hne Hall Hstop Hk; [done|].
  simpl in Hall. apply andb_true_iff in Hall as [Hc Hall].
  simpl. rewrite Hc.
  destruct w as [|c' w].
  - simpl. by rewrite plus_class_stops.
  - by rewrite (IH (λ m r, k (String c m) r)).
Qed.

(** Whatever matches is a split of the input into a run and a rest. *)
Lemma plus_class_Some {A} p s (k : string → string → option A) x :
  JS.plus_class p s k = Some x →
  ∃ m r, s = m +:+ r ∧ k m r = Some x.
Proof.
  revert k. induction s as [|c s IH]; intros k; simpl; [done|].
  destruct (p c); [|done].
  destruct (JS.plus_class p s _) eqn:Hrec.
  - intros [= ->]. apply IH in Hrec as (m & r & -> & Hk).
    exists (String c m), r. split; [reflexivity|done].
  - intros Hk. exists (String c EmptyString), s. split; [reflexivity|done].
Qed.

Lemma strip_prefix_Some p s r : JS.strip_prefix p s = Some r → s = p +:+ r.
Proof.
  revert s. induction p as [|a p IH]; intros [|b s]; simpl; try done.
  - by intros [= <-].
  - by intros [= <-].
  - destruct (Ascii.eqb a b) eqn:Hab; [|done].
    apply Ascii.eqb_eq in Hab as ->. by intros ->%IH.
Qed.

Lemma strip_prefix_app p r : JS.strip_prefix p (p +:+ r) = Some r.
Proof.
  induction p as [|a p IH]; simpl; [by destruct r|].
  by rewrite Ascii.eqb_refl.
Qed.

Lemma has_char_app c a b : has_char c (a +:+ b) = has_char c a || has_char c b.
Proof.
  induction a as [|x a IH]; simpl; [done|].
  by rewrite IH, orb_assoc.
Qed.

Lemma all_chars_has_char p c s :
  all_chars p s = true → p c = false → has_char c s = false.
Proof.
  intros Hall Hc. induction s as [|x s IH]; simpl in *; [done|].
  apply andb_true_iff in Hall as [Hx Hall].
  rewrite (IH Hall), orb_false_r.
  destruct (Ascii.eqb x c) eqn:Hxc; [|done].
  apply Ascii.eqb_eq in Hxc as ->. congruence.
Qed.

Lemma search_here {A} (m : string → option A) s x : m s = Some x → JS.search m s = Some x.
Proof. intros H. destruct s; simpl; by rewrite H. Qed.

Lemma search_None {A} (m : string → option A) c s :
  (∀ t, has_char c t = false → m t = None) →
  has_char c s = false → JS.search m s = None.
Proof.
  intros Hm. induction s as [|x s IH]; intros H.
  - simpl. by rewrite (Hm EmptyString H).
  - cbn [JS.search]. rewrite (Hm (String x s) H).
    simpl in H. apply orb_false_elim in H as [_ H]. by apply IH.
Qed.

(** The filter pattern needs an opening parenthesis. *)
Lemma filter_re_None t : has_char "(" t = false → JS.filter_re t = None.
Proof.
  intros Hno. destruct (JS.filter_re t) as [x|] eqn:Hre; [|done].
  unfold JS.filter_re in Hre.
  apply plus_class_Some in Hre as (m & r & -> & Hk).
  destruct (JS.strip_prefix ".filter(" r) as [r2|] eqn:Hr; [|done].
  apply strip_prefix_Some in Hr as ->.
  rewrite has_char_app in Hno. apply orb_false_elim in Hno as [_ Hno].
  done.
Qed.

Lemma is_word_inv s :
  is_word s = true → JS.truthy_str s = true ∧ all_chars JS.is_word_char s = true.
Proof. unfold is_word. by intros ?%andb_true_iff. Qed.

Lemma search_count name :
  is_word name = true →
  JS.search JS.filter_re (name +:+ ".count") = None ∧
  JS.search JS.count_re (name +:+ ".count") = Some name.
Proof.
  intros [Hne Hall]%is_word_inv. split.
  - apply (search_None _ "("); [apply filter_re_None|].
    rewrite has_char_app, (all_chars_has_char _ _ _ Hall); done.
  - apply search_here. unfold JS.count_re.
    by apply plus_class_run.
Qed.

Lemma search_filter name key lit :
  is_word name = true → is_word key = true → is_word lit = true →
  JS.search JS.filter_re (name +:+ ".filter(" +:+ key +:+ "=" +:+ lit +:+ ")")
    = Some (name, key, lit).
Proof.
  intros [Hn1 Hn2]%is_word_inv [Hk1 Hk2]%is_word_inv [Hl1 Hl2]%is_word_inv.
  apply search_here. unfold JS.filter_re.
  apply plus_class_run; [done|done|reflexivity|].
  cbv beta. rewrite strip_prefix_app. cbn [mbind option_bind].
  apply plus_class_run; [done|done|reflexivity|].
  cbv beta. rewrite strip_prefix_app. cbn [mbind option_bind].
  apply plus_class_run; [done|done|reflexivity|].
  reflexivity.
Qed.

(** * Rule parsing *)

Lemma split_without_separator sep s :
  has_char sep s = false → JS.split sep s = [s].
Proof.
  induction s as [|c s IH]; simpl; [done|].
  intros [Hc Hs]%orb_false_elim.
  by rewrite Hc, IH.
Qed.

Lemma parseLine_without_separator sep mk rules line :
  has_char sep line = false → NucleusManager.parseLine sep mk rules line = rules.
Proof.
  intros H. unfold NucleusManager.parseLine.
  by rewrite split_without_separator.
Qed.

Lemma foldl_filter_neutral {A B} (f : B → A → B) (p : A → bool) (l : list A) (b : B) :
  (∀ b x, p x = false → f b x = b) →
  foldl f b (filter (λ x, p x = true) l) = foldl f b l.
Proof.
  intros Hf. revert b.
  induction l as [|x l IH]; intros b; [done|].
  rewrite filter_cons. destruct (decide (p x = true)) as [Hp|Hp]; simpl.
  - apply IH.
  - apply not_true_is_false in Hp. by rewrite (Hf b x Hp).
Qed.

(** C10. Rule parsing is a total function of the rule text and the rule
    kind: no step of it can throw. The lines without the separator of their
    kind ([:] for [validate] and [transform], [=] for [compute]) contribute
    nothing: the rule set is the one parsed from the other lines alone. A
    kind that is none of the three gives the empty rule set. *)
Theorem parseNeutronRules_skips_lines_without_separator content type :
  let lines sep :=
    filter (λ line, has_char sep line = true) (JS.split NucleusManager.newline content) in
  NucleusManager.parseNeutronRules content type =
    if decide (type = Some "validate") then
      foldl (NucleusManager.parseLine ":" NucleusManager.listOf) [] (lines ":"%char)
    else if decide (type = Some "compute") then
      foldl (NucleusManager.parseLine "=" RStr) [] (lines "="%char)
    else if decide (type = Some "transform") then
      foldl (NucleusManager.parseLine ":" NucleusManager.listOf) [] (lines ":"%char)
    else [].
Proof.
  intros lines. unfold NucleusManager.parseNeutronRules, lines.
  repeat case_decide; try done; symmetry;
    apply (foldl_filter_neutral _ (has_char _)); intros;
    by apply parseLine_without_separator.
Qed.

Example parse_login_rules :
  NucleusManager.parseNeutronRules
    ("email: required, email-format" +:+ String NucleusManager.newline
     ("no separator here" +:+ String NucleusManager.newline "password: minLength(8)"))
    (Some "validate")
  = [("email", RList ["required"; "email-format"]); ("password", RList ["minLength(8)"])].
Proof. reflexivity. Qed.

Example parse_unknown_kind content :
  NucleusManager.parseNeutronRules content (Some "security") = [].
Proof. reflexivity. Qed.

(** * Plain objects *)

Lemma insert_entry_perm {V} n (e : string * V) l : insert_entry n e l ≡ₚ (n, e) :: l.
Proof.
  induction l as [|[m e'] l IH]; simpl; [done|].
  destruct (n <? m)%N; [done|]. rewrite IH. apply Permutation_swap.
Qed.

Lemma index_entries_from {V} (o : list (string * V)) acc :
  (foldl (λ acc e, match array_index e.1 with
                   | Some n => insert_entry n e acc
                   | None => acc
                   end) acc o).*2 ≡ₚ
    acc.*2 ++ filter (λ e, array_index e.1 ≠ None) o.
Proof.
  revert acc. induction o as [|e o IH]; intros acc.
  - simpl. by rewrite app_nil_r.
  - cbn [foldl]. rewrite IH, filter_cons. destruct (array_index e.1) as [n|] eqn:Hn.
    + rewrite decide_True by done. rewrite insert_entry_perm.
      rewrite fmap_cons. cbn [snd]. apply Permutation_middle.
    + by rewrite decide_False by (by intros []).
Qed.

Lemma entries_perm {V} (o : list (string * V)) : entries o ≡ₚ o.
Proof.
  unfold entries, index_entries. rewrite index_entries_from. simpl.
  induction o as [|e o IH]; [done|].
  rewrite !filter_cons. destruct (decide (array_index e.1 = None)) as [He|He].
  - rewrite decide_False by (by intros []). rewrite <- Permutation_middle. by f_equiv.
  - rewrite decide_True by done. cbn [app]. by f_equiv.
Qed.

Lemma entries_elem_of {V} (o : list (string * V)) e : e ∈ entries o ↔ e ∈ o.
Proof. by rewrite entries_perm. Qed.

Lemma entries_Forall {V} (P : string * V → Prop) (o : list (string * V)) :
  Forall P (entries o) ↔ Forall P o.
Proof. by rewrite entries_perm. Qed.

Lemma entries_not_nil {V} (o : list (string * V)) : o ≠ [] → entries o ≠ [].
Proof.
  intros Ho Hnil. pose proof (entries_perm o) as Hperm.
  rewrite Hnil in Hperm. by apply Permutation_nil_l in Hperm.
Qed.

Lemma existsb_perm {A} (f : A → bool) l1 l2 : l1 ≡ₚ l2 → existsb f l1 = existsb f l2.
Proof.
  induction 1 as [|x l1 l2 _ IH|x y l|l1 l2 l3 _ IH1 _ IH2]; simpl.
  - done.
  - by rewrite IH.
  - by destruct (f x), (f y).
  - by rewrite IH1.
Qed.

Lemma existsb_entries {V} (f : string * V → bool) (o : list (string * V)) :
  existsb f (entries o) = existsb f o.
Proof. apply existsb_perm, entries_perm. Qed.

Lemma obj_get_set {V} (k k' : string) (v : V) (o : jsobj V) :
  obj_get k (obj_set k' v o) = if decide (k' = k) then Some v else obj_get k o.
Proof.
  induction o as [|[k0 v0] o IH]; simpl.
  - by destruct (decide (k' = k)).
  - destruct (decide (k0 = k')) as [->|Hne]; simpl.
    + by destruct (decide (k' = k)).
    + destruct (decide (k0 = k)) as [->|]; [|done].
      by rewrite decide_False.
Qed.

Lemma obj_get_put {V} (k k' : string) (v : V) (o : jsobj V) :
  obj_get k (obj_put k' v o) =
    if decide (k' = "__proto__") then obj_get k o
    else if decide (k' = k) then Some v else obj_get k o.
Proof. unfold obj_put. case_decide; [done|]. apply obj_get_set. Qed.

(** An assignment changes the own property of its name and, unless the
    name is [__proto__], no other. *)
Lemma assign_own o k v key :
  key ≠ "__proto__" →
  obj_get key (own (assign o k v)) =
    if decide (k = key) then Some v else obj_get key (own o).
Proof.
  intros Hkey. unfold assign.
  destruct (decide (k = "__proto__")) as [->|Hk].
  - rewrite decide_False by done.
    assert (obj_get key (obj_set "__proto__" v (own o)) = obj_get key (own o)) as Hset.
    { rewrite obj_get_set. by rewrite decide_False. }
    case_bool_decide; [done|].
    destruct (proto o) as [| |items|props]; try done.
    + by destruct v.
    + by destruct v.
    + case_bool_decide; [done|]. by destruct v.
  - simpl. apply obj_get_set.
Qed.

(** * Validation by the nucleus *)

Section Validation.

Variable E : engine.

(** On an absent field [required] adds its error. *)
Lemma checkRule_required_absent fieldErrors :
  NucleusManager.checkRule E Undefined fieldErrors "required" =
    Ok (fieldErrors ++ ["This field is required"]).
Proof. reflexivity. Qed.

(** On an absent field [email-format] adds its error: the pattern is tested
    on the text [undefined]. *)
Lemma checkRule_email_absent fieldErrors :
  NucleusManager.checkRule E Undefined fieldErrors "email-format" =
    Ok (fieldErrors ++ ["Invalid email format"]).
Proof. reflexivity. Qed.

(** On an absent field every rule that starts with [minLength] throws. *)
Lemma checkRule_minLength_absent fieldErrors rule :
  JS.startsWith rule "minLength" = true →
  ∃ e, NucleusManager.checkRule E Undefined fieldErrors rule = Throw e.
Proof.
  intros Hstart. unfold NucleusManager.checkRule.
  rewrite (bool_decide_eq_false_2 (rule = "required")) by (by intros ->).
  rewrite (bool_decide_eq_false_2 (rule = "email-format")) by (by intros ->).
  rewrite Hstart; simpl.
  destruct (JS.search JS.digits_re rule); eauto.
Qed.

(** Without a rule that starts with [minLength] the validation of a parsed
    rule set of lists returns on every data object. *)
Lemma checkRule_returns value fieldErrors rule :
  JS.startsWith rule "minLength" = false →
  ∃ errs, NucleusManager.checkRule E value fieldErrors rule = Ok errs.
Proof.
  intros Hstart. unfold NucleusManager.checkRule. rewrite Hstart.
  destruct (_ && _); [eauto|]. destruct (_ && _); eauto.
Qed.

Lemma forEach_returns {A S} (f : S → A → result S) (P : A → Prop) l s :
  (∀ s x, P x → ∃ s', f s x = Ok s') → Forall P l →
  ∃ s', NucleusManager.forEach f s l = Ok s'.
Proof.
  intros Hf Hl. revert s. induction Hl as [|x l Hx _ IH]; intros s; simpl; [eauto|].
  destruct (Hf s x Hx) as [s' ->]. simpl. apply IH.
Qed.

Lemma checkField_returns data errs entry :
  (∃ rules, entry.2 = RList rules ∧
     Forall (λ rule, JS.startsWith rule "minLength" = false) rules) →
  ∃ errs', NucleusManager.checkField E data errs entry = Ok errs'.
Proof.
  destruct entry as [field rv]. simpl. intros (rules & -> & Hall).
  destruct (forEach_returns (NucleusManager.checkRule E (lookup E data field)) _ rules []
              (λ fe rule, checkRule_returns _ fe rule) Hall) as [fe ->].
  simpl. destruct (0 <? length fe); eauto.
Qed.

Lemma validate_returns data n :
  Forall (λ entry, ∃ rules, entry.2 = RList rules ∧
            Forall (λ rule, JS.startsWith rule "minLength" = false) rules)
         (neutron_rules n) →
  ∃ v, NucleusManager.validate E data n = Ok v.
Proof.
  intros Hrules. apply entries_Forall in Hrules. unfold NucleusManager.validate.
  destruct (forEach_returns (NucleusManager.checkField E data) _ _ []
              (checkField_returns data) Hrules) as [errs ->].
  simpl. eauto.
Qed.

(** C6. On a data object without the field [password], the rule set
    [password: minLength(8)] makes [validate] throw a [TypeError]: the rule
    is evaluated on the undefined value, not skipped. The rule set
    [email: required] fails the absent field [email] with its error. *)
Theorem validate_throws_on_absent_field :
  NucleusManager.validate E (plain []) password_rule =
    Throw (TypeError "Cannot read properties of undefined (reading 'length')") ∧
  NucleusManager.validate E (plain []) email_rule =
    Ok {| valid := false; errors := [("email", ["This field is required"])] |}.
Proof. split; reflexivity. Qed.

End Validation.

(** * Gathering *)

Lemma gatherProton_get data p key :
  key ≠ "__proto__" →
  obj_get key (own (ElectronShell.gatherProton data p)) =
    if decide (local_key p = Some key) then Some (proton_data p) else obj_get key (own data).
Proof.
  intros Hkey. unfold ElectronShell.gatherProton, local_key.
  destruct (proton_local p) as [k|]; [|by rewrite decide_False].
  destruct (JS.truthy_str k); [|by rewrite decide_False].
  rewrite assign_own by done.
  destruct (decide (k = key)) as [->|Hne].
  - by rewrite decide_True.
  - rewrite decide_False; [done|congruence].
Qed.

Lemma gather_lookup ps data key :
  key ≠ "__proto__" →
  obj_get key (own (foldl ElectronShell.gatherProton data ps)) =
    match last (filter (λ p, local_key p = Some key) ps) with
    | Some p => Some (proton_data p)
    | None => obj_get key (own data)
    end.
Proof.
  intros Hkey. revert data.
  induction ps as [|p ps IH] using rev_ind; intros data; [done|].
  rewrite foldl_app, filter_app; simpl.
  rewrite gatherProton_get, filter_cons, filter_nil by done.
  destruct (decide (local_key p = Some key)).
  - by rewrite last_snoc.
  - by rewrite app_nil_r, IH.
Qed.




(** A data source with the local key [__proto__] whose data is an array:
    the assignment runs the setter of [Object.prototype]; the gathered
    object gets no property and the array as its prototype. *)
Example gather_proto_key :
  ElectronShell.gatherProtonData proto_key_atom =
    {| own := []; proto := Array_value [JNum 1; JNum 2] |} ∧
  lookup reference_engine (ElectronShell.gatherProtonData proto_key_atom) "length" =
    Data (JNum 2) ∧
  stringify_object reference_engine (ElectronShell.gatherProtonData proto_key_atom) = "{}".
Proof. split_and!; reflexivity. Qed.

Lemma filter_local_key_nil ps key :
  key ∉ omap local_key ps → filter (λ p, local_key p = Some key) ps = [].
Proof.
  intros Hnot. induction ps as [|q ps IH]; [done|].
  rewrite filter_cons. simpl in Hnot.
  destruct (decide (local_key q = Some key)) as [Hq|Hq].
  - rewrite Hq in Hnot. set_solver.
  - apply IH. destruct (local_key q); set_solver.
Qed.

(** With pairwise distinct local keys every data source finds its own data
    under its key. *)
Lemma gatherProtonData_distinct_keys a p key :
  key ≠ "__proto__" →
  NoDup (omap local_key (protons a)) →
  p ∈ protons a → local_key p = Some key →
  obj_get key (own (ElectronShell.gatherProtonData a)) = Some (proton_data p).
Proof.
  intros Hproto Hnodup Hp Hkey.
  unfold ElectronShell.gatherProtonData. rewrite gather_lookup by done.
  assert (last (filter (λ q, local_key q = Some key) (protons a)) = Some p) as ->; [|done].
  induction (protons a) as [|q ps IH]; [by apply elem_of_nil in Hp|].
  rewrite filter_cons. simpl in Hnodup.
  destruct (decide (local_key q = Some key)) as [Hq|Hq].
  - rewrite Hq in Hnodup. apply NoDup_cons in Hnodup as [Hnot _].
    rewrite (filter_local_key_nil _ _ Hnot). simpl.
    apply elem_of_cons in Hp as [->|Hp]; [done|].
    exfalso. apply Hnot. apply list_elem_of_omap. eauto.
  - apply elem_of_cons in Hp as [->|Hp]; [done|].
    apply IH; [|done].
    destruct (local_key q); [by apply NoDup_cons in Hnodup as [_ ?]|done].
Qed.

(** * The submit protocol *)

Section Submit.

Variable E : engine.

Lemma includes_required rules :
  ElectronShell.includes rules "required" = lists_required rules.
Proof. by destruct rules. Qed.

Lemma requireField_valid data entries acc :
  valid (foldl (ElectronShell.requireField E data) acc entries) =
    valid acc && negb (existsb (field_fails E data) entries).
Proof.
  revert acc. induction entries as [|[field rules] entries IH]; intros acc; simpl.
  - by rewrite andb_true_r.
  - rewrite IH. unfold field_fails at 2; simpl. rewrite includes_required.
    destruct (lists_required rules && negb (truthy_value (lookup E data field)));
      simpl; [|done].
    by rewrite andb_false_r.
Qed.

Lemma validateNeutron_valid data ns acc :
  valid (foldl (ElectronShell.validateNeutron E data) acc ns) =
    valid acc && negb (existsb (rule_set_fails E data) ns).
Proof.
  revert acc. induction ns as [|n ns IH]; intros acc; simpl.
  - by rewrite andb_true_r.
  - rewrite IH. unfold ElectronShell.validateNeutron, rule_set_fails at 2.
    destruct (decide (neutron_type n = Some "validate")) as [Hn|Hn].
    + rewrite bool_decide_eq_true_2 by done.
      rewrite requireField_valid, existsb_entries; simpl.
      rewrite negb_orb. by rewrite andb_assoc.
    + by rewrite bool_decide_eq_false_2 by done.
Qed.

Lemma validateWithNeutrons_valid data a :
  valid (ElectronShell.validateWithNeutrons E data a) =
    negb (existsb (rule_set_fails E data) (neutrons a)).
Proof. unfold ElectronShell.validateWithNeutrons. by rewrite validateNeutron_valid. Qed.

Lemma network_calls_app cs1 cs2 :
  ElectronShell.network_calls (cs1 ++ cs2) =
    ElectronShell.network_calls cs1 ++ ElectronShell.network_calls cs2.
Proof. apply filter_app. Qed.

Lemma emit_no_network e a :
  ElectronShell.network_calls
    match electron_emit e with
    | Some name => if JS.truthy_str name then ElectronShell.emitEvent name a else []
    | None => []
    end = [].
Proof.
  destruct (electron_emit e) as [name|]; [|done].
  by destruct (JS.truthy_str name).
Qed.

Lemma after_fetch_no_network e (settle : settled ElectronShell.response) :
  ElectronShell.network_calls
    match settle with
    | Fulfilled r =>
        if ElectronShell.ok r then
          console_log SubmitSuccessful ::
          (if JS.truthy_attr (electron_redirect e)
           then [set_location (electron_redirect e)] else [])
        else []
    | Rejected => [console_error SubmitFailed]
    end = [].
Proof.
  destruct settle as [r|]; [|done].
  destruct (ElectronShell.ok r); [|done].
  by destruct (JS.truthy_attr (electron_redirect e)).
Qed.

(** C1 (amended). For a submit-class action ([login], [send], [submit]) of
    a component with an endpoint: when a rule set of kind [validate] lists
    [required] for a field whose value in the gathered data reads falsy,
    the run issues no network call; otherwise it issues exactly one, a
    [fetch] to the endpoint whose body is the gathered data serialized as
    JSON; and [validateWithNeutrons] has returned, over all the rule sets,
    before that call is issued. The other rules of a rule set are not
    looked at. *)
Theorem submit_sequencing e a settle endpoint :
  ElectronShell.is_submit_action (electron_action e) = true →
  electron_endpoint e = Some endpoint →
  JS.truthy_str endpoint = true →
  let data := ElectronShell.gatherProtonData a in
  let validation := ElectronShell.validateWithNeutrons E data a in
  let request :=
    fetch endpoint (electron_method e) "application/json" (stringify_object E data) in
  let run := ElectronShell.executeAction E e a settle in
  if existsb (rule_set_fails E data) (neutrons a)
  then valid validation = false ∧ ElectronShell.network_calls run = []
  else valid validation = true ∧
       ElectronShell.network_calls run = [request] ∧
       ∃ pre post,
         run = pre ++ request :: post ∧
         validateWithNeutrons_returned validation ∈ pre ∧
         ElectronShell.network_calls pre = [] ∧
         ElectronShell.network_calls post = [].
Proof.
  intros Hact Hend Htruthy data validation request run.
  pose proof (validateWithNeutrons_valid data a) as Hvalid.
  pose proof (after_fetch_no_network e settle) as Hafter.
  pose proof (emit_no_network e a) as Hemit.
  subst run. unfold ElectronShell.executeAction, ElectronShell.handleSubmit.
  rewrite Hact, Hend, Htruthy.
  fold data validation request in Hvalid |- *.
  set (after := match settle with Fulfilled _ => _ | Rejected => _ end) in *.
  set (emit := match electron_emit e with Some _ => _ | None => _ end) in *.
  destruct (existsb (rule_set_fails E data) (neutrons a)); simpl in Hvalid;
    rewrite Hvalid; simpl negb; cbv iota.
  - split; [done|]. by rewrite network_calls_app, Hemit.
  - split; [done|].
    assert (Hpost : ElectronShell.network_calls (after ++ emit) = []).
    { by rewrite network_calls_app, Hafter, Hemit. }
    change (?l ++ emit) with
      ([gatherProtonData_returned data; validateWithNeutrons_returned validation] ++
       request :: (after ++ emit)).
    split.
    + rewrite network_calls_app.
      unfold ElectronShell.network_calls at 2.
      rewrite filter_cons_True by done.
      fold (ElectronShell.network_calls (after ++ emit)).
      by rewrite Hpost.
    + eexists _, _. split; [reflexivity|].
      split; [set_solver|]. by split.
Qed.

End Submit.

Lemma submit_sequencing_witness :
  ElectronShell.network_calls
    (ElectronShell.executeAction reference_engine login_electron
       (login_atom (JStr "a@b.com")) (Fulfilled {| ElectronShell.ok := true |})) =
    [fetch "/api/login" "POST" "application/json"
       (stringify_object reference_engine
          (ElectronShell.gatherProtonData (login_atom (JStr "a@b.com"))))] ∧
  ElectronShell.network_calls
    (ElectronShell.executeAction reference_engine login_electron
       (login_atom (JStr EmptyString)) (Fulfilled {| ElectronShell.ok := true |})) = [].
Proof.
  split.
  - exact (proj1 (proj2 (submit_sequencing reference_engine login_electron
      (login_atom (JStr "a@b.com"))
      (Fulfilled {| ElectronShell.ok := true |}) "/api/login" eq_refl eq_refl eq_refl))).
  - exact (proj2 (submit_sequencing reference_engine login_electron
      (login_atom (JStr EmptyString))
      (Fulfilled {| ElectronShell.ok := true |}) "/api/login" eq_refl eq_refl eq_refl)).
Defined.

(** C1, as stated, fails on a rule set that fails on another rule than
    [required]: the password [abc] fails [password: minLength(8)] under
    [NucleusManager.validate], and the submit still issues its request. *)
Lemma submit_ignores_other_rules :
  let data := ElectronShell.gatherProtonData short_password_atom in
  password_rule ∈ neutrons short_password_atom ∧
  neutron_type password_rule = Some "validate" ∧
  NucleusManager.validate reference_engine data password_rule =
    Ok {| valid := false; errors := [("password", ["Minimum length is 8"])] |} ∧
  ElectronShell.network_calls
    (ElectronShell.executeAction reference_engine login_electron short_password_atom
       (Fulfilled {| ElectronShell.ok := true |})) =
    [fetch "/api/login" "POST" "application/json" (stringify_object reference_engine data)].
Proof. split_and!; [set_solver|reflexivity..]. Qed.

(** The name [constructor] reads as the inherited function, which is
    truthy: a rule [constructor: required] fails no data. *)
Example submit_inherited_name :
  valid (ElectronShell.validateWithNeutrons reference_engine (plain [])
           {| atom_name := None; atomicNumber := 0; atomicMass := 1;
              stability := Finite 1%Qc; protons := [];
              neutrons := [NucleusManager.extractNeutron 0
                             {| nn_type := Some "validate";
                                nn_textContent := "constructor: required" |}];
              electrons := [] |}) = true.
Proof. reflexivity. Qed.

(** * The derived metrics of a parsed atom *)

Section ParseAtom.

Variable localStorage : gmap string string.
Variable JSON_parse : string → option json.

Lemma parseAtom_counts node :
  let a := (AtomicKernel.parseAtom localStorage JSON_parse node).1 in
  length (protons a) = length (an_protons node) ∧
  length (neutrons a) = length (an_neutrons node) ∧
  atomicNumber a = length (an_protons node) ∧
  atomicMass a = length (an_protons node) + length (an_neutrons node).
Proof.
  unfold AtomicKernel.parseAtom, NucleusManager.extractProtons,
    NucleusManager.extractNeutrons; simpl.
  by rewrite !length_imap.
Qed.

Lemma parseAtom_stability node :
  stability (AtomicKernel.parseAtom localStorage JSON_parse node).1 =
    if (0 <? length (an_neutrons node))%nat
    then div_lengths (length (an_neutrons node)) (length (an_protons node))
    else Finite 1%Qc.
Proof.
  unfold AtomicKernel.parseAtom, NucleusManager.extractProtons,
    NucleusManager.extractNeutrons, AtomicKernel.stabilityOf; simpl.
  by rewrite !length_imap.
Qed.

Lemma remote_loads_no_advisory ps :
  existsb AtomicKernel.is_advisory (NucleusManager.remote_loads ps) = false.
Proof.
  induction ps as [|p ps IH]; [done|].
  unfold NucleusManager.remote_loads in *; simpl.
  destruct (proton_source p) as [src|]; [|done].
  by destruct (JS.truthy_str src).
Qed.

Lemma parseAtom_advisory node :
  AtomicKernel.advisory_emitted (AtomicKernel.parseAtom localStorage JSON_parse node).2 =
    AtomicKernel.unstable
      (stability (AtomicKernel.parseAtom localStorage JSON_parse node).1)
      (length (an_protons node)).
Proof.
  unfold AtomicKernel.advisory_emitted.
  unfold AtomicKernel.parseAtom, NucleusManager.extractProtons,
    NucleusManager.extractNeutrons; simpl.
  rewrite !existsb_app, remote_loads_no_advisory, !length_imap; simpl.
  destruct (AtomicKernel.unstable _ _); simpl; reflexivity.
Qed.

End ParseAtom.

Lemma div_lengths_lt_one n d : lt_one (div_lengths n d) = bool_decide (n < d ∧ 0 < d).
Proof.
  destruct d as [|d].
  - destruct n; simpl; symmetry; first [reflexivity | apply bool_decide_eq_false_2; lia].
  - unfold div_lengths, lt_one.
    apply bool_decide_ext.
    unfold Qclt. simpl.
    rewrite Qred_correct. unfold Qlt; simpl.
    rewrite <- (positive_nat_Z (Pos.of_nat (S d))), Nat2Pos.id by done. lia.
Qed.

(** The advisory fires exactly on the components with more than two data
    sources, at least one rule, and fewer rules than data sources. *)
Lemma advisory_iff localStorage JSON_parse node :
  AtomicKernel.advisory_emitted (AtomicKernel.parseAtom localStorage JSON_parse node).2 =
    bool_decide (0 < length (an_neutrons node) < length (an_protons node)
                 ∧ 2 < length (an_protons node)).
Proof.
  rewrite parseAtom_advisory, parseAtom_stability. unfold AtomicKernel.unstable.
  destruct (0 <? length (an_neutrons node)) eqn:Hn.
  - apply Nat.ltb_lt in Hn. rewrite div_lengths_lt_one.
    destruct (2 <? length (an_protons node)) eqn:Hp.
    + apply Nat.ltb_lt in Hp. rewrite andb_true_r. apply bool_decide_ext. lia.
    + apply Nat.ltb_ge in Hp. rewrite andb_false_r. symmetry.
      apply bool_decide_eq_false_2. lia.
  - apply Nat.ltb_ge in Hn. simpl. symmetry. apply bool_decide_eq_false_2. lia.
Qed.

(** The advisory never fires on a component of at most two data sources. *)
Lemma advisory_small_component localStorage JSON_parse node :
  length (an_protons node) ≤ 2 →
  AtomicKernel.advisory_emitted (AtomicKernel.parseAtom localStorage JSON_parse node).2 = false.
Proof. intros Hp. rewrite advisory_iff. apply bool_decide_eq_false_2. lia. Qed.

(** C5. The stability of a parsed component is guarded on the rule count,
    not on the source count: three data sources and no rule give [1.0] where
    the ratio is [0]; two rules and no data source are divided by zero and
    give [Infinity] where the convention is [1.0]. *)
Theorem stability_guards_rule_count localStorage JSON_parse :
  stability (AtomicKernel.parseAtom localStorage JSON_parse three_sources).1 = Finite 1%Qc ∧
  stability_as_specified 0 3 = Finite 0%Qc ∧
  stability (AtomicKernel.parseAtom localStorage JSON_parse rules_only).1 = Infinity ∧
  stability_as_specified 2 0 = Finite 1%Qc.
Proof.
  rewrite !parseAtom_stability. split_and!; try reflexivity.
  unfold stability_as_specified, div_lengths; simpl. f_equal. by apply Qc_is_canon.
Qed.

(** C4. On a component of three data sources and no rule the ratio of the
    rule count to the source count is below [1.0] and the source count is
    above two, and the advisory is not emitted. *)
Theorem advisory_misses_atoms_without_rules localStorage JSON_parse :
  advisory_as_specified 0 3 = true ∧
  AtomicKernel.advisory_emitted
    (AtomicKernel.parseAtom localStorage JSON_parse three_sources).2 = false.
Proof.
  split.
  - unfold advisory_as_specified. by rewrite div_lengths_lt_one.
  - by rewrite advisory_iff.
Qed.

(** * The heap of the store *)

Section StoreProperties.

Import Store.

Lemma json_nested_ind (P : json → Prop) :
  P JNull → (∀ b, P (JBool b)) → (∀ n, P (JNum n)) → (∀ s, P (JStr s)) →
  (∀ items, Forall P items → P (JArr items)) →
  (∀ props, Forall (λ p, P p.2) props → P (JObj props)) →
  ∀ t, P t.
Proof.
  intros Hnull Hbool Hnum Hstr Harr Hobj.
  fix IH 1. intros [| b | n | s | items | props].
  - exact Hnull.
  - apply Hbool.
  - apply Hnum.
  - apply Hstr.
  - apply Harr. induction items as [|i items IHitems]; constructor; [apply IH|exact IHitems].
  - apply Hobj. induction props as [|p props IHprops]; constructor; [apply IH|exact IHprops].
Qed.

Lemma agree_refl h : agree h h.
Proof. by intros i o. Qed.

Lemma agree_trans h1 h2 h3 : agree h1 h2 → agree h2 h3 → agree h1 h3.
Proof. intros H12 H23 i o Hi. eauto. Qed.

Lemma agree_app h ext : agree h (h ++ ext).
Proof. intros i o Hi. by apply lookup_app_l_Some. Qed.

Lemma agree_write h h' l o : agree h h' → length h ≤ l → agree h (write h' l o).
Proof.
  intros Hag Hl i o' Hi. unfold write.
  rewrite list_lookup_insert_ne; [by apply Hag|].
  apply lookup_lt_Some in Hi. lia.
Qed.

Lemma read_agree fuel h h' v t :
  agree h h' → read fuel h v = Some t → read fuel h' v = Some t.
Proof.
  intros Hag. revert v t.
  induction fuel as [|fuel IH]; intros [| b | n | s | l] t; simpl; try done.
  destruct (h !! l) as [[vs|ps]|] eqn:Hl; [| |done]; rewrite (Hag _ _ Hl).
  - destruct (mapM (read fuel h) vs) as [ts|] eqn:Hm; [|done].
    simpl. intros [= <-].
    apply mapM_Some in Hm.
    assert (mapM (read fuel h') vs = Some ts) as ->; [|done].
    apply mapM_Some. eapply Forall2_impl; [exact Hm|]. auto.
  - destruct (mapM _ ps) as [ts|] eqn:Hm; [|done].
    simpl. intros [= <-].
    apply mapM_Some in Hm.
    assert (mapM (λ p, (λ t, (p.1, t)) <$> read fuel h' p.2) ps = Some ts) as ->; [|done].
    apply mapM_Some. eapply Forall2_impl; [exact Hm|].
    intros p q Hpq; simpl in *.
    destruct (read fuel h p.2) as [t'|] eqn:Hr; [|done].
    by rewrite (IH _ _ Hr).
Qed.

Lemma read_fuel fuel fuel' h v t :
  fuel ≤ fuel' → read fuel h v = Some t → read fuel' h v = Some t.
Proof.
  revert fuel' v t.
  induction fuel as [|fuel IH]; intros fuel' [| b | n | s | l] t Hle;
    destruct fuel' as [|fuel']; simpl; try done; try lia.
  destruct (h !! l) as [[vs|ps]|] eqn:Hl; [| |done].
  - destruct (mapM (read fuel h) vs) as [ts|] eqn:Hm; [|done].
    simpl. intros [= <-].
    apply mapM_Some in Hm.
    assert (mapM (read fuel' h) vs = Some ts) as ->; [|done].
    apply mapM_Some. eapply Forall2_impl; [exact Hm|].
    intros; apply (IH fuel'); [lia|done].
  - destruct (mapM _ ps) as [ts|] eqn:Hm; [|done].
    simpl. intros [= <-].
    apply mapM_Some in Hm.
    assert (mapM (λ p, (λ t, (p.1, t)) <$> read fuel' h p.2) ps = Some ts) as ->; [|done].
    apply mapM_Some. eapply Forall2_impl; [exact Hm|].
    intros p q Hpq; simpl in *.
    destruct (read fuel h p.2) as [t'|] eqn:Hr; [|done].
    by rewrite (IH fuel' _ _ ltac:(lia) Hr).
Qed.

(** What a readable value reaches in a larger heap it reaches in the
    smaller one. *)
Lemma reaches_agree fuel h h' v t l :
  agree h h' → read fuel h v = Some t → reaches h' v l →
  reaches h v l ∧ l < length h.
Proof.
  intros Hag Hread Hreach. revert fuel t Hread.
  induction Hreach as [l | l items v l' Hl Hv Hreach IH | l props k v l' Hl Hv Hreach IH];
    intros [|fuel] t Hread; simpl in Hread; try done.
  - destruct (h !! l) eqn:Hhl; [|done].
    split; [constructor|]. by eapply lookup_lt_Some.
  - destruct (h !! l) as [o|] eqn:Hhl; [|done].
    pose proof (Hag _ _ Hhl) as Hh'l. rewrite Hl in Hh'l. injection Hh'l as <-.
    destruct (mapM (read fuel h) items) as [ts|] eqn:Hm; [|done].
    apply mapM_Some in Hm.
    apply list_elem_of_lookup in Hv as [i Hi].
    destruct (Forall2_lookup_l _ _ _ _ _ Hm Hi) as (tv & _ & Hrv).
    destruct (IH _ _ Hrv) as [Hr Hlt].
    split; [|done]. eapply reaches_item; [done| |done].
    apply list_elem_of_lookup; eauto.
  - destruct (h !! l) as [o|] eqn:Hhl; [|done].
    pose proof (Hag _ _ Hhl) as Hh'l. rewrite Hl in Hh'l. injection Hh'l as <-.
    destruct (mapM _ props) as [ts|] eqn:Hm; [|done].
    apply mapM_Some in Hm.
    apply list_elem_of_lookup in Hv as [i Hi].
    destruct (Forall2_lookup_l _ _ _ _ _ Hm Hi) as (tv & _ & Hrv).
    simpl in Hrv.
    destruct (read fuel h v) as [t'|] eqn:Hr'; [|done].
    destruct (IH _ _ Hr') as [Hr Hlt].
    split; [|done]. eapply reaches_prop; [done| |done].
    apply list_elem_of_lookup; eauto.
Qed.

Section AllocAllSpec.

Context {A B : Type} (f : A → heap → B * heap).
Context (tree_of : A → json) (val_of : B → val) (R : A → B → Prop).

Lemma alloc_all_allocated xs :
  Forall (λ x, ∀ h, allocated h (tree_of x) (val_of (f x h).1) (f x h).2 ∧ R x (f x h).1) xs →
  ∀ h,
    agree h (alloc_all f xs h).2 ∧ length h ≤ length (alloc_all f xs h).2 ∧
    Forall2 (λ x y, R x y ∧
               read (depth (tree_of x)) (alloc_all f xs h).2 (val_of y) = Some (tree_of x))
            xs (alloc_all f xs h).1 ∧
    foldr (λ x d, depth (tree_of x) `max` d) 0 xs + length h ≤ length (alloc_all f xs h).2 ∧
    ∀ y l, y ∈ (alloc_all f xs h).1 → reaches (alloc_all f xs h).2 (val_of y) l →
           length h ≤ l < length (alloc_all f xs h).2.
Proof.
  induction 1 as [|x xs Hx _ IH]; intros h; simpl.
  - split_and!; [apply agree_refl|done|constructor|done|].
    intros y l Hy. by apply elem_of_nil in Hy.
  - destruct (Hx h) as [(Hag1 & Hlen1 & Hread1 & Hdepth1 & Hreach1) HR].
    destruct (f x h) as [y h1] eqn:Hf; simpl in *.
    destruct (IH h1) as (Hag2 & Hlen2 & Hread2 & Hdepth2 & Hreach2).
    destruct (alloc_all f xs h1) as [ys h2] eqn:Hall; simpl in *.
    split; [by eapply agree_trans|]. split; [lia|].
    split; [constructor; [|done]|].
    { split; [done|]. by eapply read_agree. }
    split; [lia|].
    intros y' l [->|Hy']%elem_of_cons Hreach.
    + destruct (reaches_agree _ _ _ _ _ _ Hag2 Hread1 Hreach) as [Hr _].
      apply Hreach1 in Hr. lia.
    + specialize (Hreach2 _ _ Hy' Hreach). lia.
Qed.

End AllocAllSpec.

Lemma read_members {A B} (tree_of : A → json) (val_of : B → val) (R : A → B → Prop)
    (xs : list A) (ys : list B) h h' d :
  Forall2 (λ x y, R x y ∧ read (depth (tree_of x)) h (val_of y) = Some (tree_of x)) xs ys →
  agree h h' →
  foldr (λ x d, depth (tree_of x) `max` d) 0 xs ≤ d →
  Forall2 (λ x y, R x y ∧ read d h' (val_of y) = Some (tree_of x)) xs ys.
Proof.
  intros Hall Hag. induction Hall as [|x y xs ys [HR Hxy] _ IH]; simpl; intros Hd;
    constructor.
  - split; [done|]. eapply read_fuel; [|by eapply read_agree]. lia.
  - apply IH. lia.
Qed.

Lemma alloc_allocated t : ∀ h, allocated h t (alloc t h).1 (alloc t h).2.
Proof.
  induction t as [| b | n | s | items IH | props IH] using json_nested_ind; intros h;
    unfold allocated;
    try (simpl; split_and!; [apply agree_refl|done|done|lia|]; intros l Hl; inversion Hl).
  - simpl.
    pose proof (alloc_all_allocated alloc id id (λ _ _, True) items) as Hall.
    destruct (Hall (Forall_impl _ _ _ IH (λ x Hx h, conj (Hx h) I)) h)
      as (Hag & Hlen & Hread & Hdepth & Hreach); clear Hall.
    destruct (alloc_all alloc items h) as [vs h1]; simpl in *.
    assert (Hag1 : agree h1 (h1 ++ [OArr vs])) by apply agree_app.
    assert (Hhere : (h1 ++ [OArr vs]) !! length h1 = Some (OArr vs)).
    { by rewrite list_lookup_middle. }
    pose proof (read_members _ _ _ _ _ _ _ _ Hread Hag1 (le_n _)) as Hread'.
    split_and!.
    + by eapply agree_trans.
    + rewrite length_app; simpl; lia.
    + rewrite Hhere.
      assert (mapM (read (foldr (λ i d, depth i `max` d) 0 items) (h1 ++ [OArr vs])) vs
              = Some items) as ->; [|done].
      apply mapM_Some. apply Forall2_flip.
      eapply Forall2_impl; [exact Hread'|]. by intros x y [_ ?].
    + rewrite length_app; simpl; lia.
    + intros l Hl. rewrite length_app; simpl.
      inversion Hl as [| l0 items0 v l' Hl0 Hv Hr | l0 props0 k v l' Hl0 Hv Hr]; subst.
      * lia.
      * rewrite Hhere in Hl0. injection Hl0 as <-.
        apply list_elem_of_lookup in Hv as Hi. destruct Hi as [i Hi].
        destruct (Forall2_lookup_r _ _ _ _ _ Hread Hi) as (t & _ & _ & Ht).
        destruct (reaches_agree _ _ _ _ _ _ Hag1 Ht Hr) as [Hr1 _].
        specialize (Hreach _ _ Hv Hr1). lia.
      * rewrite Hhere in Hl0. done.
  - simpl.
    pose proof (alloc_all_allocated
      (λ p h, let '(v, h') := alloc p.2 h in ((p.1, v), h')) snd snd
      (λ p q, p.1 = q.1) props) as Hall.
    assert (Hprops : Forall (λ x : string * json, ∀ h0 : heap,
      allocated h0 x.2 ((let '(v, h') := alloc x.2 h0 in (x.1, v, h')).1).2
        (let '(v, h') := alloc x.2 h0 in (x.1, v, h')).2 ∧
      x.1 = ((let '(v, h') := alloc x.2 h0 in (x.1, v, h')).1).1) props).
    { eapply Forall_impl; [exact IH|]. intros p Hp h0. specialize (Hp h0).
      by destruct (alloc p.2 h0). }
    destruct (Hall Hprops h) as (Hag & Hlen & Hread & Hdepth & Hreach); clear Hall Hprops.
    destruct (alloc_all _ props h) as [ps h1]; simpl in *.
    assert (Hag1 : agree h1 (h1 ++ [OObj ps])) by apply agree_app.
    assert (Hhere : (h1 ++ [OObj ps]) !! length h1 = Some (OObj ps)).
    { by rewrite list_lookup_middle. }
    pose proof (read_members _ _ _ _ _ _ _ _ Hread Hag1 (le_n _)) as Hread'.
    split_and!.
    + by eapply agree_trans.
    + rewrite length_app; simpl; lia.
    + rewrite Hhere.
      assert (mapM (λ p, (λ t, (p.1, t)) <$>
                read (foldr (λ p d, depth p.2 `max` d) 0 props) (h1 ++ [OObj ps]) p.2) ps
              = Some props) as ->; [|done].
      apply mapM_Some. apply Forall2_flip.
      eapply Forall2_impl; [exact Hread'|].
      intros [k t] [k' v] [Hk Hv]; simpl in *. subst k'. by rewrite Hv.
    + rewrite length_app; simpl; lia.
    + intros l Hl. rewrite length_app; simpl.
      inversion Hl as [| l0 items0 v l' Hl0 Hv Hr | l0 props0 k v l' Hl0 Hv Hr]; subst.
      * lia.
      * rewrite Hhere in Hl0. done.
      * rewrite Hhere in Hl0. injection Hl0 as <-.
        apply list_elem_of_lookup in Hv as Hi. destruct Hi as [i Hi].
        destruct (Forall2_lookup_r _ _ _ _ _ Hread Hi) as (t & _ & _ & Ht).
        destruct (reaches_agree _ _ _ _ _ _ Hag1 Ht Hr) as [Hr1 _].
        specialize (Hreach _ _ Hv Hr1). lia.
Qed.

Lemma agree_length h h' : agree h h' → length h ≤ length h'.
Proof.
  intros Hag. destruct (decide (length h = 0)) as [->|Hne]; [lia|].
  destruct (lookup_lt_is_Some_2 h (length h - 1)) as [o Ho]; [lia|].
  apply Hag, lookup_lt_Some in Ho. lia.
Qed.

Lemma alloc_isArray t h :
  isArray (alloc t h).2 (alloc t h).1 = match t with JArr _ => true | _ => false end.
Proof.
  destruct t as [| b | n | s | items | props]; simpl; try done.
  - destruct (alloc_all alloc items h) as [vs h1]; simpl.
    by rewrite list_lookup_middle.
  - destruct (alloc_all _ props h) as [ps h1]; simpl.
    by rewrite list_lookup_middle.
Qed.

Lemma alloc_typeof_object t h :
  typeof_object (alloc t h).1 =
    match t with JBool _ | JNum _ | JStr _ => false | _ => true end.
Proof.
  destruct t as [| b | n | s | items | props]; simpl; try done.
  - by destruct (alloc_all alloc items h).
  - by destruct (alloc_all _ props h).
Qed.

Lemma alloc_truthy t h : truthy_val (alloc t h).1 = truthy t.
Proof.
  destruct t as [| b | n | s | items | props]; simpl; try done.
  - by destruct (alloc_all alloc items h).
  - by destruct (alloc_all _ props h).
Qed.

Lemma alloc_compound t h : is_compound t = true → ∃ l, (alloc t h).1 = VRef l.
Proof.
  destruct t as [| b | n | s | items | props]; simpl; try done; intros _.
  - destruct (alloc_all alloc items h); simpl; eauto.
  - destruct (alloc_all _ props h); simpl; eauto.
Qed.

(** * Registration against a schema *)

Lemma validate_mismatch h t sch :
  mismatches sch t = true →
  ∃ msg, validate (alloc t h).2 (alloc t h).1 sch = Throw (Error msg).
Proof.
  unfold mismatches, validate.
  destruct (schema_type sch) as [ty|]; [|done].
  destruct (decide (ty = "array")) as [->|Harr].
  - intros Ht. rewrite bool_decide_eq_true_2 by done.
    rewrite alloc_isArray. destruct t; try done; simpl; eauto.
  - destruct (decide (ty = "object")) as [->|Hobj]; [|done].
    intros Ht. rewrite bool_decide_eq_false_2 by congruence.
    rewrite bool_decide_eq_true_2 by done.
    rewrite alloc_typeof_object. destruct t; try done; simpl; eauto.
Qed.

Section Load.

Variable JSON_parse : string → option json.

(** C7 (amended). Registering a raw payload that mismatches the declared type
    of its registered schema (not an array under [array]; a number, a string
    or a boolean under [object]) makes [Store.validate] throw to [load], its
    immediate caller, which catches the error and logs it: [load] completes
    normally, and the registration is aborted, the store being left as it
    was. *)
Theorem load_schema_mismatch s h node t sname sch :
  JS.truthy_attr (node_compute node) = false →
  JSON_parse (JS.trim (node_textContent node)) = Some t →
  node_schema node = Some sname →
  JS.truthy_str sname = true →
  schemas s !! sname = Some sch →
  mismatches sch t = true →
  ∃ msg,
    validate (alloc t h).2 (alloc t h).1 sch = Throw (Error msg) ∧
    load JSON_parse s h node =
      Ok (s, (alloc t h).2, [console_error (LoadFailed (node_name node) (Error msg))]).
Proof.
  intros Hcompute Hparse Hschema Hsname Hsch Hmis.
  destruct (validate_mismatch h t sch Hmis) as [msg Hmsg].
  exists msg. split; [done|].
  unfold load. rewrite Hcompute, Hparse.
  destruct (alloc t h) as [payload h1] eqn:Halloc; simpl in *.
  unfold checkSchema. by rewrite Hschema, Hsname, Hsch, Hmsg.
Qed.

(** C2 (amended). A raw payload registered under a name is read back by
    [get] as an independent deep copy whenever the payload is truthy (every
    array and object is) and no computed binding is declared under that name:
    the copy and the canonical value stand for the same tree, an array or
    object payload gives a copy of another identity, the copy shares no
    object with the canonical value, and no write to an object of the copy
    changes what the canonical value stands for. The read may come at any
    later time at which the name is still bound to the payload and the
    objects of the heap at registration are where they were. *)
Theorem get_returns_independent_copy s h node t s2 h2 :
  JS.truthy_attr (node_compute node) = false →
  JSON_parse (JS.trim (node_textContent node)) = Some t →
  checkSchema s (alloc t h).2 (node_schema node) (alloc t h).1 = Ok true →
  truthy t = true →
  let name := key_of (node_name node) in
  let payload := (alloc t h).1 in
  let h1 := (alloc t h).2 in
  let copy := (alloc t h2).1 in
  let h3 := (alloc t h2).2 in
  data s2 !! name = Some payload →
  JS.truthy_attr (computed s2 !! name) = false →
  agree h1 h2 →
  (∃ s1 log, load JSON_parse s h node = Ok (s1, h1, log) ∧ data s1 !! name = Some payload) ∧
  get s2 h2 name = Ok (copy, h3, []) ∧
  read (S (length h3)) h3 copy = Some t ∧
  read (S (length h3)) h3 payload = Some t ∧
  (is_compound t = true → copy ≠ payload) ∧
  (∀ l, reaches h3 copy l → ¬ reaches h3 payload l) ∧
  (∀ l o, reaches h3 copy l →
     read (S (length (write h3 l o))) (write h3 l o) payload = Some t).
Proof.
  intros Hcompute Hparse Hschema Htruthy name payload h1 copy h3 Hdata Hnocomputed Hag2.
  destruct (alloc_allocated t h) as (Hag1 & Hlen1 & Hread1 & Hdepth1 & Hreach1).
  destruct (alloc_allocated t h2) as (Hag3 & Hlen3 & Hread3 & Hdepth3 & Hreach3).
  fold payload h1 in Hag1, Hlen1, Hread1, Hdepth1, Hreach1, Hschema.
  fold copy h3 in Hag3, Hlen3, Hread3, Hdepth3, Hreach3.
  pose proof (agree_length _ _ Hag2) as Hlen2.
  assert (Hread2 : read (S (length h2)) h2 payload = Some t).
  { eapply read_fuel; [|by eapply read_agree]. lia. }
  assert (Hold : ∀ l, reaches h3 payload l → l < length h1).
  { intros l Hl.
    by destruct (reaches_agree _ _ _ _ _ _ (agree_trans _ _ _ Hag2 Hag3) Hread1 Hl). }
  split_and!.
  - unfold load. rewrite Hcompute, Hparse.
    pose proof (surjective_pairing (alloc t h)) as Hpair. fold payload h1 in Hpair.
    rewrite Hpair, Hschema.
    eexists _, _. split; [reflexivity|]. simpl. by rewrite lookup_insert_eq.
  - unfold get. rewrite Hnocomputed, Hdata; simpl.
    unfold payload at 1. rewrite alloc_truthy, Htruthy; simpl.
    unfold structuredClone. by rewrite Hread2.
  - eapply read_fuel; [|exact Hread3]. lia.
  - eapply read_fuel; [|eapply read_agree; [exact Hag3|exact Hread2]]. lia.
  - intros Hc Heq.
    destruct (alloc_compound t h2 Hc) as [l Hl]. fold copy in Hl.
    assert (reaches h3 copy l) as Hrc by (rewrite Hl; constructor).
    assert (reaches h3 payload l) as Hrp by (rewrite <- Heq, Hl; constructor).
    apply Hreach3 in Hrc. apply Hold in Hrp. lia.
  - intros l Hrc Hrp. apply Hreach3 in Hrc. apply Hold in Hrp. lia.
  - intros l o Hrc. apply Hreach3 in Hrc.
    unfold write. rewrite length_insert.
    eapply read_fuel; [|eapply (read_agree _ h1); [|exact Hread1]]; [lia|].
    apply agree_write; [by eapply agree_trans|lia].
Qed.

End Load.

Lemma load_schema_mismatch_witness :
  ∃ msg,
    validate (alloc (JNum 5) tasks_heap).2 (alloc (JNum 5) tasks_heap).1
      {| schema_type := Some "array" |} = Throw (Error msg) ∧
    load parse_five schema_store tasks_heap five_node =
      Ok (schema_store, (alloc (JNum 5) tasks_heap).2,
          [console_error (LoadFailed (node_name five_node) (Error msg))]).
Proof.
  apply (load_schema_mismatch parse_five schema_store tasks_heap five_node (JNum 5) "list"
           {| schema_type := Some "array" |});
    reflexivity.
Defined.

(** C7, as stated, fails: the schema error of a registration is not surfaced
    to the caller of [load], which completes normally, and the store still
    holds the entry registered earlier under the name. *)
Lemma load_catches_schema_error :
  load parse_five schema_store tasks_heap five_node =
    Ok (schema_store, tasks_heap,
        [console_error (LoadFailed (Some "tasks") (Error "Data must be an array"))]) ∧
  (∀ e, load parse_five schema_store tasks_heap five_node ≠ Throw e) ∧
  data schema_store !! "tasks" = Some (VRef 0).
Proof. split_and!; [reflexivity|done|reflexivity]. Qed.

Lemma get_returns_independent_copy_witness :
  get users_store users_heap "users" =
    Ok ((alloc users_json users_heap).1, (alloc users_json users_heap).2, []) ∧
  read (S (length (alloc users_json users_heap).2)) (alloc users_json users_heap).2
    (alloc users_json users_heap).1 = Some users_json ∧
  (alloc users_json users_heap).1 ≠ (alloc users_json []).1.
Proof.
  pose proof (get_returns_independent_copy parse_users Store.empty [] users_node users_json
                users_store users_heap eq_refl eq_refl eq_refl eq_refl eq_refl eq_refl
                (agree_refl _)) as (_ & Hget & Hcopy & _ & Hident & _).
  split; [exact Hget|]. split; [exact Hcopy|]. exact (Hident eq_refl).
Defined.

(** C2, as stated, fails when a computed binding is declared under the name
    of the collection: [get] evaluates the binding, here to the number of
    users, and returns no copy of the registered payload. *)
Lemma get_prefers_computed_binding :
  load parse_users Store.empty [] users_count_node =
    Ok (set_computed Store.empty "users" "users.count", [], [node_remove]) ∧
  load parse_users (set_computed Store.empty "users" "users.count") [] users_node =
    Ok (set_data (set_computed Store.empty "users" "users.count") "users" (VRef 2),
        users_heap, [node_remove]) ∧
  get (set_data (set_computed Store.empty "users" "users.count") "users" (VRef 2))
      users_heap "users" = Ok (VNum 2, users_heap, []) ∧
  read 4 users_heap (VRef 2) = Some users_json ∧
  read 4 users_heap (VNum 2) ≠ Some users_json.
Proof. split_and!; done. Qed.

(** A falsy payload is registered and never read back: [get] takes it for
    missing. *)
Lemma get_takes_falsy_payload_for_missing :
  load (λ _, Some (JNum 0)) Store.empty []
    {| node_name := Some "total"; node_persist := None; node_schema := None;
       node_compute := None; node_textContent := "0" |} =
    Ok (set_data Store.empty "total" (VNum 0), [], [node_remove]) ∧
  get (set_data Store.empty "total" (VNum 0)) [] "total" =
    Ok (VNull, [], [console_warn (DataNotFound "total")]).
Proof. split; reflexivity. Qed.

(** * The expression evaluator *)

Lemma collection_Some s h name items :
  collection s h name = Some items →
  ∃ l, data s !! name = Some (VRef l) ∧ h !! l = Some (OArr items).
Proof.
  unfold collection.
  destruct (data s !! name) as [[| | | |l]|]; try done.
  destruct (h !! l) as [[vs|]|] eqn:Hl; try done.
  intros [= ->]. eauto.
Qed.

(** C8. The expression [<collection>.count] evaluates to the number of
    elements of the named collection, and to [0] when the collection is
    missing or is not an array: [0] over an empty collection, [5] over one of
    five elements. *)
Theorem count_expression s h name :
  is_word name = true →
  evalComputed s h (name +:+ ".count") =
    Ok (VNum (Z.of_nat (match collection s h name with
                        | Some items => length items
                        | None => 0
                        end)), h).
Proof.
  intros Hname. destruct (search_count name Hname) as [Hfilter Hcount].
  unfold evalComputed, collection. rewrite Hfilter, Hcount.
  destruct (data s !! name) as [[| | | |l]|]; try done.
  by destruct (h !! l) as [[vs|]|].
Qed.

Lemma get_prop_field h item key :
  item ≠ VNull → get_prop h item key = Ok (field_of h item key).
Proof.
  intros Hitem. unfold field_of.
  destruct (get_prop h item key) eqn:Hg; [done|].
  destruct item as [| b | n | s | l]; simpl in Hg; try done.
  - by destruct (decide (key = "length")).
  - destruct (h !! l) as [[vs|ps]|]; try done.
    by destruct (decide (key = "length")).
Qed.

Lemma filter_items_pure h key lit items :
  Forall (λ item, item ≠ VNull) items →
  filter_items (matches h key lit) items =
    Ok (filter (λ item, literal_matches lit (field_of h item key)) items).
Proof.
  induction 1 as [|item items Hitem _ IH]; [done|].
  simpl. rewrite IH. unfold matches at 1. rewrite (get_prop_field _ _ _ Hitem). simpl.
  rewrite filter_cons. fold (literal_matches lit (field_of h item key)).
  by destruct (literal_matches lit (field_of h item key)).
Qed.

(** C3 (amended). Over a named collection that is an array without [null]
    elements, the expression [<collection>.filter(<key>=<literal>)]
    evaluates to a new array of exactly the elements of the collection whose
    field named by the key matches the literal, in their order: [true] and
    [false] match the booleans, any other token matches the string equal to
    it. *)
Theorem filter_expression s h name key lit items :
  is_word name = true → is_word key = true → is_word lit = true →
  collection s h name = Some items →
  Forall (λ item, item ≠ VNull) items →
  evalComputed s h (name +:+ ".filter(" +:+ key +:+ "=" +:+ lit +:+ ")") =
    Ok (VRef (length h),
        h ++ [OArr (filter (λ item, literal_matches lit (field_of h item key)) items)]).
Proof.
  intros Hname Hkey Hlit Hcoll Hitems.
  apply collection_Some in Hcoll as (l & Hdata & Hl).
  unfold evalComputed. rewrite (search_filter _ _ _ Hname Hkey Hlit).
  rewrite Hdata; simpl. rewrite Hl.
  by rewrite (filter_items_pure _ _ _ _ Hitems).
Qed.

(** Over a missing collection, or a falsy one, the filter expression
    evaluates to [null]. *)
Lemma filter_expression_missing s h name key lit :
  is_word name = true → is_word key = true → is_word lit = true →
  truthy_data (data s !! name) = false →
  evalComputed s h (name +:+ ".filter(" +:+ key +:+ "=" +:+ lit +:+ ")") = Ok (VNull, h).
Proof.
  intros Hname Hkey Hlit Hdata.
  unfold evalComputed. rewrite (search_filter _ _ _ Hname Hkey Hlit).
  by rewrite Hdata.
Qed.

(** C3, as stated, fails on a collection that holds [null]: over
    [[{active:true}, null]] the callback of the filter throws on the second
    element, and the evaluation returns no element. *)
Lemma filter_expression_null_item :
  load parse_flagged Store.empty [] flagged_node =
    Ok (flagged_store, flagged_heap, [node_remove]) ∧
  collection flagged_store flagged_heap "users" = Some [VRef 0; VNull] ∧
  literal_matches "true" (field_of flagged_heap (VRef 0) "active") = true ∧
  evalComputed flagged_store flagged_heap "users.filter(active=true)" =
    Throw (TypeError "Cannot read properties of null (reading 'active')").
Proof. split_and!; reflexivity. Qed.

(** A registered payload that is not an array has no [filter]. *)
Example filter_expression_not_an_array :
  evalComputed (set_data Store.empty "users" (VRef 0)) [OObj [("active", VBool true)]]
    "users.filter(active=true)" = Throw (TypeError "data.filter is not a function").
Proof. reflexivity. Qed.

Lemma count_expression_witness :
  evalComputed tasks_store tasks_heap "tasks.count" = Ok (VNum 5, tasks_heap) ∧
  evalComputed tasks_store tasks_heap "done.count" = Ok (VNum 0, tasks_heap) ∧
  evalComputed tasks_store tasks_heap "missing.count" = Ok (VNum 0, tasks_heap).
Proof.
  split_and!.
  - exact (count_expression tasks_store tasks_heap "tasks" eq_refl).
  - exact (count_expression tasks_store tasks_heap "done" eq_refl).
  - exact (count_expression tasks_store tasks_heap "missing" eq_refl).
Defined.

Lemma filter_expression_witness :
  evalComputed users_store users_heap "users.filter(active=true)" =
    Ok (VRef 3, users_heap ++ [OArr [VRef 0]]) ∧
  read 2 (users_heap ++ [OArr [VRef 0]]) (VRef 3) =
    Some (JArr [JObj [("id", JNum 1); ("active", JBool true)]]).
Proof.
  split; [|reflexivity].
  apply (filter_expression users_store users_heap "users" "active" "true"
           [VRef 0; VRef 1]); try reflexivity.
  repeat constructor; discriminate.
Defined.

End StoreProperties.

(** * Further properties *)

(** * More on the regular expressions *)

(** Whatever matches is a split of the input into a run of the class, not
    empty, and a rest the continuation accepts. *)
Lemma plus_class_Some_run {A} p s (k : string → string → option A) x :
  JS.plus_class p s k = Some x →
  ∃ m r, s = m +:+ r ∧ JS.truthy_str m = true ∧ all_chars p m = true ∧ k m r = Some x.
Proof.
  revert k. induction s as [|c s IH]; intros k; simpl; [done|].
  destruct (p c) eqn:Hc; [|done].
  destruct (JS.plus_class p s _) eqn:Hrec.
  - intros [= ->]. apply IH in Hrec as (m & r & -> & _ & Hall & Hk).
    exists (String c m), r. simpl. by rewrite Hc, Hall.
  - intros Hk. exists (String c EmptyString), s. simpl. by rewrite Hc.
Qed.

(** Backtracking is complete: if some split is accepted, the match succeeds. *)
Lemma plus_class_complete {A} p m r (k : string → string → option A) :
  JS.truthy_str m = true → all_chars p m = true → is_Some (k m r) →
  is_Some (JS.plus_class p (m +:+ r) k).
Proof.
  revert k. induction m as [|c m IH]; intros k Hne Hall Hk; [done|].
  simpl in Hall. apply andb_true_iff in Hall as [Hc Hall].
  simpl. rewrite Hc.
  destruct (JS.plus_class p (m +:+ r) _) eqn:Hrec; [done|].
  destruct m as [|c' m]; [done|].
  assert (is_Some (JS.plus_class p (String c' m +:+ r) (λ m0 r0, k (String c m0) r0))) as Hs.
  { by apply IH. }
  rewrite Hrec in Hs. by destruct Hs.
Qed.

Lemma append_empty_r s : s +:+ EmptyString = s.
Proof.
  induction s as [|c s IH]; [done|].
  change (String c s +:+ EmptyString) with (String c (s +:+ EmptyString)). by rewrite IH.
Qed.

Lemma is_empty_true s : JS.is_empty s = true → s = EmptyString.
Proof. by destruct s. Qed.

(** X1. [isValidEmail] accepts a string exactly when it splits into a local
    part, [@], a domain, a dot and a last part, each part not empty and free
    of whitespace and of [@]; the parts themselves may hold further dots. *)
Theorem isValidEmail_shape E s :
  NucleusManager.isValidEmail E (Data (JStr s)) = true ↔
  ∃ l d t, s = l +:+ "@" +:+ d +:+ "." +:+ t ∧
           email_part l = true ∧ email_part d = true ∧ email_part t = true.
Proof.
  unfold NucleusManager.isValidEmail, JS.email_re, email_part.
  cbn [to_string].
  rewrite bool_decide_eq_true. split.
  - intros [u Hu].
    apply plus_class_Some_run in Hu as (l & r1 & -> & Hl1 & Hl2 & Hk1).
    cbv beta in Hk1. destruct (JS.strip_prefix "@" r1) as [r2|] eqn:Hr1; [|done].
    apply strip_prefix_Some in Hr1 as ->. cbn [mbind option_bind] in Hk1.
    apply plus_class_Some_run in Hk1 as (d & r3 & -> & Hd1 & Hd2 & Hk2).
    cbv beta in Hk2. destruct (JS.strip_prefix "." r3) as [r4|] eqn:Hr3; [|done].
    apply strip_prefix_Some in Hr3 as ->. cbn [mbind option_bind] in Hk2.
    apply plus_class_Some_run in Hk2 as (t & r5 & -> & Ht1 & Ht2 & Hk3).
    cbv beta in Hk3. destruct (JS.is_empty r5) eqn:Hr5; [|done].
    apply is_empty_true in Hr5 as ->. rewrite append_empty_r.
    exists l, d, t. by rewrite Hl1, Hl2, Hd1, Hd2, Ht1, Ht2.
  - intros (l & d & t & -> & [Hl1 Hl2]%andb_true_iff & [Hd1 Hd2]%andb_true_iff
            & [Ht1 Ht2]%andb_true_iff).
    apply plus_class_complete; [done..|].
    rewrite strip_prefix_app. cbn [mbind option_bind].
    apply plus_class_complete; [done..|].
    rewrite strip_prefix_app. cbn [mbind option_bind].
    rewrite <- (append_empty_r t).
    apply plus_class_complete; [done..|]. done.
Qed.

(** * Decimal numerals *)

Lemma append_assoc a b c : (a +:+ b) +:+ c = a +:+ (b +:+ c).
Proof.
  induction a as [|x a IH]; [done|].
  change (String x a +:+ b) with (String x (a +:+ b)).
  change (String x (a +:+ b) +:+ c) with (String x ((a +:+ b) +:+ c)).
  by rewrite IH.
Qed.

Lemma all_chars_app p a b : all_chars p (a +:+ b) = all_chars p a && all_chars p b.
Proof.
  induction a as [|x a IH]; [done|].
  change (String x a +:+ b) with (String x (a +:+ b)). simpl.
  by rewrite IH, andb_assoc.
Qed.

Lemma parse_digits_app acc a b :
  JS.parse_digits acc (a +:+ b) = JS.parse_digits (JS.parse_digits acc a) b.
Proof.
  revert acc. induction a as [|x a IH]; intros acc; [done|].
  change (String x a +:+ b) with (String x (a +:+ b)). simpl. apply IH.
Qed.

Lemma pretty_N_char_digit x :
  (x < 10)%N →
  JS.is_digit (pretty_N_char x) = true ∧ JS.digit_val (pretty_N_char x) = Z.of_N x.
Proof.
  intros Hx.
  assert (x = 0 ∨ x = 1 ∨ x = 2 ∨ x = 3 ∨ x = 4 ∨ x = 5 ∨ x = 6 ∨ x = 7 ∨ x = 8 ∨ x = 9)%N
    as Hcases by lia.
  destruct Hcases as [->|[->|[->|[->|[->|[->|[->|[->|[->| ->]]]]]]]]];
    by vm_compute.
Qed.

(** The digits [pretty] writes for [x] in front of [s], and their value. *)
Lemma pretty_N_go_digits x : ∀ s,
  ∃ d, pretty_N_go x s = d +:+ s ∧ all_chars JS.is_digit d = true ∧
       (0 < x → JS.truthy_str d = true)%N ∧
       ∀ acc, JS.parse_digits acc d = (acc * 10 ^ Z.of_nat (String.length d) + Z.of_N x)%Z.
Proof.
  induction (N.lt_wf_0 x) as [x _ IH]. intros s.
  destruct (decide (x = 0%N)) as [->|Hx].
  - exists EmptyString. rewrite pretty_N_go_0. split_and!; [done|done|lia|].
    intros acc. simpl. lia.
  - rewrite pretty_N_go_step by lia.
    destruct (IH (x `div` 10)%N ltac:(apply N.div_lt; lia)
                (String (pretty_N_char (x `mod` 10)) s)) as (d & -> & Hall & _ & Hval).
    destruct (pretty_N_char_digit (x `mod` 10)%N) as [Hdig Hdv].
    { apply N.mod_lt. lia. }
    exists (d +:+ String (pretty_N_char (x `mod` 10)) EmptyString).
    split_and!.
    + by rewrite append_assoc.
    + rewrite all_chars_app, Hall. simpl. by rewrite Hdig.
    + intros _. by destruct d.
    + intros acc. rewrite parse_digits_app, Hval. simpl. rewrite Hdv.
      assert (String.length (d +:+ String (pretty_N_char (x `mod` 10)) EmptyString)
              = S (String.length d)) as ->.
      { clear. induction d as [|c d IH]; [done|].
        change (String c d +:+ ?t) with (String c (d +:+ t)). simpl. by rewrite IH. }
      rewrite Nat2Z.inj_succ, Z.pow_succ_r by lia.
      pose proof (N.div_mod x 10 ltac:(lia)) as Hdm.
      rewrite N2Z.inj_div, N2Z.inj_mod. simpl Z.of_N.
      pose proof (Z.div_mod (Z.of_N x) 10 ltac:(lia)).
      generalize (10 ^ Z.of_nat (String.length d))%Z. intros P. clear Hdm Hdv.
      revert H. generalize (Z.of_N x / 10)%Z. intros q.
      generalize (Z.of_N x mod 10)%Z. intros r.
      generalize (Z.of_N x). intros X ->. ring.
Qed.

(** [parseInt] reads back the decimal numeral of a natural number, which
    is a run of digits. *)
Lemma pretty_nat_digits (n : nat) :
  all_chars JS.is_digit (pretty n) = true ∧ JS.truthy_str (pretty n) = true ∧
  JS.parseInt (pretty n) = Z.of_nat n.
Proof.
  unfold pretty, pretty_nat, pretty, pretty_N.
  destruct (decide (N.of_nat n = 0%N)) as [Hn|Hn].
  - assert (n = 0) as -> by lia. by split_and!.
  - destruct (pretty_N_go_digits (N.of_nat n) EmptyString) as (d & Hd & Hall & Hne & Hval).
    rewrite Hd. 
    assert (d +:+ EmptyString = d) as ->.
    { clear. induction d as [|c d IH]; [done|].
      change (String c d +:+ ?t) with (String c (d +:+ t)). by rewrite IH. }
    split_and!; [done|apply Hne; lia|].
    unfold JS.parseInt. rewrite Hval. lia.
Qed.

(** A search skips the characters at which the pattern cannot start. *)
Lemma search_skip {A} (m : string → option A) (p : ascii → bool) pre s :
  (∀ c t, p c = false → m (String c t) = None) →
  all_chars (λ c, negb (p c)) pre = true →
  JS.search m (pre +:+ s) = JS.search m s.
Proof.
  intros Hm. induction pre as [|c pre IH]; [done|].
  simpl. intros [Hc Hpre]%andb_true_iff. apply negb_true_iff in Hc.
  change (String c pre +:+ s) with (String c (pre +:+ s)).
  cbn [JS.search]. rewrite (Hm c _ Hc). by apply IH.
Qed.

Lemma digits_re_start c t : JS.is_digit c = false → JS.digits_re (String c t) = None.
Proof. intros Hc. unfold JS.digits_re. simpl. by rewrite Hc. Qed.

(** The first run of digits of [minLength(<n>)] is the numeral. *)
Lemma minLength_digits (n : nat) :
  JS.search JS.digits_re ("minLength(" +:+ pretty n +:+ ")") = Some (pretty n).
Proof.
  destruct (pretty_nat_digits n) as (Hall & Hne & _).
  rewrite (search_skip _ JS.is_digit "minLength(" _ digits_re_start) by reflexivity.
  apply search_here. unfold JS.digits_re. by apply plus_class_run.
Qed.

Lemma startsWith_minLength rest : JS.startsWith ("minLength(" +:+ rest) "minLength" = true.
Proof.
  unfold JS.startsWith.
  change ("minLength(" +:+ rest) with ("minLength" +:+ "(" +:+ rest).
  rewrite strip_prefix_app. by apply bool_decide_eq_true_2.
Qed.

Lemma entries_singleton {V} (e : string * V) : entries [e] = [e].
Proof.
  unfold entries, index_entries. simpl. rewrite filter_cons, filter_nil.
  destruct (array_index e.1); [by rewrite decide_False|by rewrite decide_True].
Qed.

Lemma numeric_lt_integers (n m : Z) :
  numeric_lt (Num (inject_Z n)) (Num (inject_Z m)) = bool_decide (n < m)%Z.
Proof.
  unfold numeric_lt. destruct (Qle_bool _ _) eqn:Hle.
  - apply Qle_bool_iff in Hle. rewrite <- Zle_Qle in Hle.
    by rewrite bool_decide_eq_false_2 by lia.
  - rewrite bool_decide_eq_true_2; [done|].
    apply Z.nle_gt. intros Hle'. rewrite Zle_Qle in Hle'.
    apply Qle_bool_iff in Hle'. congruence.
Qed.

Section MinLength.

Variable E : engine.

Lemma checkRule_minLength_string s (n : nat) fieldErrors :
  (Z.of_nat n < 2 ^ 53)%Z →
  NucleusManager.checkRule E (Data (JStr s)) fieldErrors
      ("minLength(" +:+ pretty n +:+ ")") =
    Ok (if (n <=? String.length s)%nat then fieldErrors
        else fieldErrors ++ ["Minimum length is " +:+ pretty (Z.of_nat n)]).
Proof.
  intros Hsafe.
  assert (safe (Z.of_nat n) = true) as Hn by (apply Z.ltb_lt; lia).
  unfold NucleusManager.checkRule.
  rewrite (bool_decide_eq_false_2 (_ = "required")) by done.
  rewrite (bool_decide_eq_false_2 (_ = "email-format")) by done.
  rewrite startsWith_minLength, minLength_digits. cbn [andb].
  unfold NucleusManager.parseInt.
  destruct (pretty_nat_digits n) as (_ & _ & ->). rewrite Hn.
  cbn [NucleusManager.length_of mbind result_bind NucleusManager.minLen_text].
  unfold number_to_string. rewrite Hn.
  unfold NucleusManager.less_than. cbn [from_option to_number].
  rewrite numeric_lt_integers.
  destruct (n <=? String.length s)%nat eqn:Hle.
  - apply Nat.leb_le in Hle. by rewrite bool_decide_eq_false_2 by lia.
  - apply Nat.leb_gt in Hle. by rewrite bool_decide_eq_true_2 by lia.
Qed.

(** X2. For a field whose value is a string, the rule [minLength(N)] with
    [N] below [2^53] passes exactly when the string has at least [N]
    characters; otherwise the field gets the one message
    [Minimum length is N]. *)
Theorem validate_minLength data field s (n : nat) id type weight :
  (Z.of_nat n < 2 ^ 53)%Z →
  field ≠ "__proto__" →
  lookup E data field = Data (JStr s) →
  NucleusManager.validate E data
    {| neutron_id := id; neutron_type := type;
       neutron_rules := [(field, RList ["minLength(" +:+ pretty n +:+ ")"])];
       neutron_weight := weight |} =
    Ok (if (n <=? String.length s)%nat then {| valid := true; errors := [] |}
        else {| valid := false;
                errors := [(field, ["Minimum length is " +:+ pretty (Z.of_nat n)])] |}).
Proof.
  intros Hsafe Hproto Hfield. unfold NucleusManager.validate.
  cbn [neutron_rules]. rewrite entries_singleton.
  cbn [NucleusManager.forEach NucleusManager.checkField mbind result_bind].
  rewrite Hfield, checkRule_minLength_string by done.
  destruct (n <=? String.length s)%nat; [done|].
  cbn. unfold obj_put. by rewrite decide_False by done.
Qed.

End MinLength.

Lemma validate_minLength_witness :
  NucleusManager.validate reference_engine (plain [("password", JStr "hunter2")])
    password_rule =
    Ok {| valid := false; errors := [("password", ["Minimum length is 8"])] |}.
Proof.
  apply (validate_minLength reference_engine (plain [("password", JStr "hunter2")])
           "password" "hunter2" 8 "n0" (Some "validate") 1);
    [reflexivity|done|reflexivity].
Defined.

(** From [2^53] on the message shows the double [N] is read as. *)
Example validate_minLength_large :
  let rule N :=
    {| neutron_id := "n0"; neutron_type := Some "validate";
       neutron_rules := [("password", RList ["minLength(" +:+ N +:+ ")"])];
       neutron_weight := 1 |} in
  let data := plain [("password", JStr "hunter2")] in
  NucleusManager.validate reference_engine data (rule "9007199254740993") =
    Ok {| valid := false;
          errors := [("password", ["Minimum length is 9007199254740992"])] |} ∧
  NucleusManager.validate reference_engine data (rule "1000000000000000000000") =
    Ok {| valid := false; errors := [("password", ["Minimum length is 1e+21"])] |}.
Proof. split; by vm_compute. Qed.

(** * The two validations *)

Section TwoValidations.

Variable E : engine.

Lemma checkRule_grows value fieldErrors rule fieldErrors' :
  NucleusManager.checkRule E value fieldErrors rule = Ok fieldErrors' →
  ∃ more, fieldErrors' = fieldErrors ++ more ∧
          (rule = "required" → truthy_value value = false → more ≠ []).
Proof.
  unfold NucleusManager.checkRule.
  destruct (bool_decide (rule = "required")) eqn:Hreq.
  - apply bool_decide_eq_true in Hreq as ->.
    destruct (truthy_value value) eqn:Hv; simpl.
    + intros [= <-]. exists []. by rewrite app_nil_r.
    + intros [= <-]. by eexists.
  - apply bool_decide_eq_false in Hreq. simpl.
    destruct (_ && _).
    { intros [= <-]. by eexists. }
    destruct (JS.startsWith rule "minLength").
    + destruct (JS.search JS.digits_re rule); [|done].
      destruct (NucleusManager.length_of value); [|done]. simpl.
      destruct (NucleusManager.less_than _ _); intros [= <-].
      * by eexists.
      * exists []. by rewrite app_nil_r.
    + intros [= <-]. exists []. by rewrite app_nil_r.
Qed.

Lemma checkRules_required value rules fieldErrors fieldErrors' :
  NucleusManager.forEach (NucleusManager.checkRule E value) fieldErrors rules =
    Ok fieldErrors' →
  (fieldErrors ≠ [] ∨ ("required" ∈ rules ∧ truthy_value value = false)) →
  fieldErrors' ≠ [].
Proof.
  revert fieldErrors. induction rules as [|rule rules IH]; intros fe; simpl.
  - intros [= <-] [?|[[]%elem_of_nil _]]. done.
  - destruct (NucleusManager.checkRule E value fe rule) as [fe1|] eqn:Hrule; [|done]. simpl.
    apply checkRule_grows in Hrule as (more & -> & Hmore).
    intros Hrest Hcase. apply (IH _ Hrest).
    destruct Hcase as [Hfe|[Hin Hv]].
    + left. by destruct fe.
    + apply elem_of_cons in Hin as [<-|Hin]; [|by right].
      left. specialize (Hmore eq_refl Hv). destruct fe, more; done.
Qed.

Lemma obj_set_not_nil {V} k (v : V) o : obj_set k v o ≠ [].
Proof. destruct o as [|[k' v'] o]; simpl; [done|]. by destruct (decide (k' = k)). Qed.

Lemma obj_put_not_nil {V} k (v : V) o : k ≠ "__proto__" → obj_put k v o ≠ [].
Proof. intros Hk. unfold obj_put. rewrite decide_False by done. apply obj_set_not_nil. Qed.

Lemma checkFields_required data entries errs errs' :
  Forall (λ entry, entry.1 ≠ "__proto__") entries →
  NucleusManager.forEach (NucleusManager.checkField E data) errs entries = Ok errs' →
  (errs ≠ [] ∨ existsb (field_fails E data) entries = true) →
  errs' ≠ [].
Proof.
  intros Hfields. revert errs.
  induction Hfields as [|[field rv] entries Hfield _ IH]; intros errs; simpl.
  - intros [= <-] [?|?]; done.
  - destruct rv as [rules|expr]; [|done].
    destruct (NucleusManager.forEach (NucleusManager.checkRule E (lookup E data field))
                [] rules) as [fe|] eqn:Hfe; [|done]. simpl.
    intros Hrest Hcase.
    destruct (0 <? length fe) eqn:Hlen.
    + apply (IH _ Hrest). left. by apply obj_put_not_nil.
    + apply (IH _ Hrest). destruct Hcase as [?|Hcase]; [by left|].
      apply orb_true_iff in Hcase as [Hfails|?]; [|by right].
      exfalso. unfold field_fails in Hfails; simpl in Hfails.
      apply andb_true_iff in Hfails as [Hinc Hv%negb_true_iff].
      apply bool_decide_eq_true in Hinc.
      apply (checkRules_required _ _ _ _ Hfe); [by right|].
      apply Nat.ltb_ge in Hlen. destruct fe; [done|simpl in Hlen; lia].
Qed.

(** X3. The check of the submit path is the weaker one: data that every
    rule set of kind [validate] of a component passes under
    [NucleusManager.validate] also passes [validateWithNeutrons]. The rule
    sets are as the parser builds them: none has a field [__proto__]. *)
Theorem validate_implies_submit_check data a :
  Forall ordinary_fields (neutrons a) →
  (∀ n, n ∈ neutrons a → neutron_type n = Some "validate" →
        ∃ v, NucleusManager.validate E data n = Ok v ∧ valid v = true) →
  valid (ElectronShell.validateWithNeutrons E data a) = true.
Proof.
  intros Hordinary Hall. rewrite validateWithNeutrons_valid. apply negb_true_iff.
  apply not_true_is_false. intros (n & Hn & Hfails)%existsb_exists.
  apply list_elem_of_In in Hn.
  apply andb_true_iff in Hfails as [Hty%bool_decide_eq_true Hfails].
  destruct (Hall n Hn Hty) as (v & Hv & Hvalid).
  unfold NucleusManager.validate in Hv.
  destruct (NucleusManager.forEach (NucleusManager.checkField E data) []
              (entries (neutron_rules n))) as [errs|] eqn:Herrs; [|done].
  simpl in Hv. injection Hv as <-. simpl in Hvalid.
  apply bool_decide_eq_true in Hvalid.
  rewrite <- existsb_entries in Hfails.
  apply (checkFields_required _ _ _ _ (proj2 (entries_Forall _ _)
           (proj1 (Forall_forall _ _) Hordinary n Hn)) Herrs); [by right|].
  destruct errs; [done|simpl in Hvalid; lia].
Qed.

End TwoValidations.

Lemma validate_implies_submit_check_witness :
  valid (ElectronShell.validateWithNeutrons reference_engine
           (plain [("email", JStr "a@b.com")]) (login_atom (JStr "a@b.com"))) = true.
Proof.
  apply validate_implies_submit_check.
  - repeat constructor. by vm_compute.
  - intros n Hn _. apply list_elem_of_singleton in Hn as ->.
    eexists. split; reflexivity.
Defined.

(** A rule set with an own field [__proto__], which no parse gives: over
    data without a prototype [NucleusManager.validate] hands its message to
    the setter and reports no error, and the submit check fails. *)
Example submit_check_proto_field :
  let data := {| own := []; proto := Null_proto |} in
  let n := {| neutron_id := "n0"; neutron_type := Some "validate";
              neutron_rules := [("__proto__", RList ["required"])];
              neutron_weight := 1 |} in
  NucleusManager.validate reference_engine data n = Ok {| valid := true; errors := [] |} ∧
  valid (ElectronShell.validateWithNeutrons reference_engine data
           {| atom_name := None; atomicNumber := 0; atomicMass := 1;
              stability := Finite 1%Qc; protons := []; neutrons := [n];
              electrons := [] |}) = false.
Proof. split; reflexivity. Qed.

(** * The errors of the submit check *)

Section SubmitErrors.

Variable E : engine.

Lemma obj_set_Forall {V} (P : string * V → Prop) k v o :
  P (k, v) → Forall P o → Forall P (obj_set k v o).
Proof.
  intros Hkv. induction 1 as [|[k' v'] o Hx Ho IH]; simpl.
  - by constructor.
  - destruct (decide (k' = k)); constructor; auto.
Qed.

Lemma requireField_errors data entries acc field :
  Forall (λ entry, entry.1 ≠ "__proto__") entries →
  is_Some (obj_get field (errors (foldl (ElectronShell.requireField E data) acc entries))) ↔
  is_Some (obj_get field (errors acc)) ∨
  ∃ rules, (field, rules) ∈ entries ∧ field_fails E data (field, rules) = true.
Proof.
  intros Hfields. revert acc.
  induction Hfields as [|[f rules] entries Hf _ IH]; intros acc; simpl.
  - split; [by left|]. intros [?|(? & []%elem_of_nil & _)]. done.
  - rewrite IH. unfold ElectronShell.requireField. rewrite includes_required.
    change (lists_required rules && negb (truthy_value (lookup E data f)))
      with (field_fails E data (f, rules)).
    destruct (field_fails E data (f, rules)) eqn:Hfails; simpl.
    + rewrite obj_get_put, decide_False by done.
      destruct (decide (f = field)) as [->|Hne].
      * split; [|by eauto]. intros _. right. exists rules. split; [left|done].
      * split.
        -- intros [?|(r & Hr & ?)]; [by left|]. right. exists r. split; [by right|done].
        -- intros [?|(r & [[= -> ->]|Hr]%elem_of_cons & ?)]; [by left|done|].
           right. eauto.
    + split.
      * intros [?|(r & Hr & ?)]; [by left|]. right. exists r. split; [by right|done].
      * intros [?|(r & [[= -> ->]|Hr]%elem_of_cons & ?)]; [by left|congruence|].
        right. eauto.
Qed.

Lemma requireField_invariant data entries acc :
  Forall (λ entry, entry.1 ≠ "__proto__") entries →
  valid acc = bool_decide (errors acc = []) →
  Forall required_field_only (errors acc) →
  let acc' := foldl (ElectronShell.requireField E data) acc entries in
  valid acc' = bool_decide (errors acc' = []) ∧ Forall required_field_only (errors acc').
Proof.
  intros Hfields. revert acc.
  induction Hfields as [|[f rules] entries Hf _ IH]; intros acc Hv Hall; simpl.
  - done.
  - apply IH.
    + destruct (_ && _); [|done]. simpl. symmetry.
      by apply bool_decide_eq_false_2, obj_put_not_nil.
    + destruct (_ && _); [|done]. simpl. unfold obj_put.
      rewrite decide_False by done. by apply obj_set_Forall.
Qed.

(** X4. The result of [validateWithNeutrons] over rule sets as the parser
    builds them (none has a field [__proto__]): it is valid exactly when its
    error object is empty, every entry holds the one message
    [Required field], and a field has an entry exactly when a rule set of
    kind [validate] lists [required] for it and the value read from the
    data under its name is falsy. *)
Theorem validateWithNeutrons_errors data a :
  Forall ordinary_fields (neutrons a) →
  let v := ElectronShell.validateWithNeutrons E data a in
  valid v = bool_decide (errors v = []) ∧
  Forall required_field_only (errors v) ∧
  ∀ field,
    is_Some (obj_get field (errors v)) ↔
    ∃ n rules, n ∈ neutrons a ∧ neutron_type n = Some "validate" ∧
               (field, rules) ∈ neutron_rules n ∧ field_fails E data (field, rules) = true.
Proof.
  intros Hordinary. unfold ElectronShell.validateWithNeutrons.
  assert (∀ ns acc,
    Forall ordinary_fields ns →
    valid acc = bool_decide (errors acc = []) →
    Forall required_field_only (errors acc) →
    let v := foldl (ElectronShell.validateNeutron E data) acc ns in
    valid v = bool_decide (errors v = []) ∧
    Forall required_field_only (errors v) ∧
    ∀ field,
      is_Some (obj_get field (errors v)) ↔
      is_Some (obj_get field (errors acc)) ∨
      ∃ n rules, n ∈ ns ∧ neutron_type n = Some "validate" ∧
                 (field, rules) ∈ neutron_rules n ∧
                 field_fails E data (field, rules) = true)
    as Hgen.
  { intros ns acc Hns. revert acc.
    induction Hns as [|n ns Hn _ IH]; intros acc Hv Hall; simpl.
    - split_and!; [done..|]. intros field. split; [by left|].
      intros [?|(? & ? & []%elem_of_nil & _)]. done.
    - apply entries_Forall in Hn.
      remember (ElectronShell.validateNeutron E data acc n) as acc1 eqn:Hacc1.
      unfold ElectronShell.validateNeutron in Hacc1.
      destruct (decide (neutron_type n = Some "validate")) as [Hty|Hty]; subst acc1.
      + destruct (requireField_invariant data _ acc Hn Hv Hall) as [Hv' Hall'].
        destruct (IH _ Hv' Hall') as (H1 & H2 & H3).
        split_and!; [done..|]. intros field. rewrite H3, requireField_errors by done.
        split.
        * intros [[?|(r & Hr & Hf)]|(m & r & Hm & ?)]; [by left| |].
          -- apply (proj1 (entries_elem_of _ _)) in Hr.
             right. exists n, r. split_and!; [left|done..].
          -- right. exists m, r. split; [by right|done].
        * intros [?|(m & r & [->|Hm]%elem_of_cons & ? & Hr & ?)]; [by left; left| |].
          -- left. right. exists r. split; [|done]. by apply entries_elem_of.
          -- right. exists m, r. eauto.
      + destruct (IH _ Hv Hall) as (H1 & H2 & H3).
        split_and!; [done..|]. intros field. rewrite H3. split.
        * intros [?|(m & r & Hm & ?)]; [by left|]. right. exists m, r. split; [by right|done].
        * intros [?|(m & r & [->|Hm]%elem_of_cons & ? & ? & ?)]; [by left|done|].
          right. exists m, r. eauto. }
  destruct (Hgen (neutrons a) {| valid := true; errors := [] |} Hordinary eq_refl
              (Forall_nil_2 _)) as (H1 & H2 & H3).
  split_and!; [done..|]. intros field. rewrite H3. simpl. split.
  - intros [[? [=]]|?]; done.
  - by right.
Qed.

End SubmitErrors.

Lemma validateWithNeutrons_errors_witness :
  let v := ElectronShell.validateWithNeutrons reference_engine
             (ElectronShell.gatherProtonData (login_atom (JStr EmptyString)))
             (login_atom (JStr EmptyString)) in
  valid v = bool_decide (errors v = []) ∧
  Forall required_field_only (errors v) ∧
  ∀ field,
    is_Some (obj_get field (errors v)) ↔
    ∃ n rules, n ∈ neutrons (login_atom (JStr EmptyString)) ∧
               neutron_type n = Some "validate" ∧
               (field, rules) ∈ neutron_rules n ∧
               field_fails reference_engine
                 (ElectronShell.gatherProtonData (login_atom (JStr EmptyString)))
                 (field, rules) = true.
Proof.
  apply (validateWithNeutrons_errors reference_engine).
  repeat constructor. by vm_compute.
Defined.

(** * What an action does and never does *)

Section Actions.

Variable E : engine.

(** X5. The network calls of [executeAction]: one [fetch] to the endpoint,
    with the method of the electron and the gathered data as JSON body, when
    the action is [login], [send] or [submit], the endpoint is not empty and
    no rule set of kind [validate] lists [required] for a field whose value
    in the gathered data reads falsy; none in every other case, whatever the
    action and whatever is emitted. *)
Theorem executeAction_network e a settle :
  let data := ElectronShell.gatherProtonData a in
  ElectronShell.network_calls (ElectronShell.executeAction E e a settle) =
    if ElectronShell.is_submit_action (electron_action e) &&
       JS.truthy_attr (electron_endpoint e) &&
       negb (existsb (rule_set_fails E data) (neutrons a))
    then [fetch (default EmptyString (electron_endpoint e)) (electron_method e)
            "application/json" (stringify_object E data)]
    else [].
Proof.
  intros data. rewrite <- validateWithNeutrons_valid.
  unfold ElectronShell.executeAction.
  rewrite network_calls_app, emit_no_network, app_nil_r.
  destruct (ElectronShell.is_submit_action (electron_action e)); simpl.
  - unfold ElectronShell.handleSubmit. fold data.
    destruct (electron_endpoint e) as [endpoint|]; [|done]. simpl.
    destruct (JS.truthy_str endpoint); [|done]. simpl.
    destruct (valid (ElectronShell.validateWithNeutrons E data a)); [|done]. simpl.
    unfold ElectronShell.network_calls.
    rewrite !filter_cons_False, filter_cons_True by (simpl; auto).
    f_equal. apply (after_fetch_no_network e settle).
  - by repeat case_decide.
Qed.

(** X6. [executeAction] dispatches exactly one event, [atom:<emit>] with
    the gathered data, when the electron has a non-empty [emit] attribute,
    and none otherwise: the event is emitted whatever the action is and
    also when the validation or the request of a submit failed. *)
Theorem executeAction_emits e a settle :
  filter is_dispatch (ElectronShell.executeAction E e a settle) =
    if JS.truthy_attr (electron_emit e)
    then [dispatchEvent ("atom:" +:+ default EmptyString (electron_emit e))
            (ElectronShell.gatherProtonData a)]
    else [].
Proof.
  unfold ElectronShell.executeAction. rewrite filter_app.
  assert (filter is_dispatch
            (if ElectronShell.is_submit_action (electron_action e)
             then ElectronShell.handleSubmit E e a settle
             else if decide (electron_action e = Some "validate")
                  then ElectronShell.handleValidation E e a
                  else if decide (electron_action e = Some "redirect")
                       then [set_location (electron_redirect e)]
                       else [console_warn (UnknownAction (electron_action e))]) = []) as ->.
  { destruct (ElectronShell.is_submit_action (electron_action e)).
    - unfold ElectronShell.handleSubmit.
      destruct (electron_endpoint e) as [endpoint|]; [|done].
      destruct (JS.truthy_str endpoint); [|done].
      destruct (valid _); simpl; [|done].
      destruct settle as [r|]; [|done].
      destruct (ElectronShell.ok r); [|done].
      by destruct (JS.truthy_attr (electron_redirect e)).
    - by repeat case_decide. }
  destruct (electron_emit e) as [name|]; [|done]. simpl.
  by destruct (JS.truthy_str name).
Qed.

(** X7. The navigations of [executeAction]: a submit-class action
    navigates to its [redirect] only after a request that was answered with
    [response.ok], and only when the attribute is not empty; the action
    [redirect] always navigates, also without the attribute; no other action
    navigates. *)
Theorem executeAction_navigation e a settle :
  filter is_navigation (ElectronShell.executeAction E e a settle) =
    if ElectronShell.is_submit_action (electron_action e) then
      if JS.truthy_attr (electron_endpoint e) &&
         valid (ElectronShell.validateWithNeutrons E (ElectronShell.gatherProtonData a) a) &&
         answered_ok settle &&
         JS.truthy_attr (electron_redirect e)
      then [set_location (electron_redirect e)] else []
    else if decide (electron_action e = Some "redirect")
         then [set_location (electron_redirect e)] else [].
Proof.
  unfold ElectronShell.executeAction. rewrite filter_app.
  assert (filter is_navigation
            match electron_emit e with
            | Some name => if JS.truthy_str name then ElectronShell.emitEvent name a else []
            | None => []
            end = []) as ->.
  { destruct (electron_emit e) as [name|]; [|done]. by destruct (JS.truthy_str name). }
  rewrite app_nil_r.
  destruct (ElectronShell.is_submit_action (electron_action e)).
  - unfold ElectronShell.handleSubmit.
    destruct (electron_endpoint e) as [endpoint|]; [|done]. simpl.
    destruct (JS.truthy_str endpoint); [|done]. simpl.
    destruct (valid _); simpl; [|done].
    destruct settle as [[[]]|]; simpl; try done.
    by destruct (JS.truthy_attr (electron_redirect e)).
  - destruct (decide (electron_action e = Some "validate")) as [Hv|Hv].
    + rewrite decide_False by congruence. done.
    + by case_decide.
Qed.

End Actions.

(** * Trimming *)

Lemma trim_start_clean s : starts_clean (JS.trim_start s) = true.
Proof.
  induction s as [|c s IH]; [done|]. cbn [JS.trim_start].
  destruct (JS.is_space c) eqn:Hc; [done|]. cbn [starts_clean]. by rewrite Hc.
Qed.

Lemma trim_start_id s : starts_clean s = true → JS.trim_start s = s.
Proof.
  destruct s as [|c s]; [done|].
  cbn [starts_clean JS.trim_start]. by destruct (JS.is_space c).
Qed.

Lemma trim_end_clean s : starts_clean s = true → starts_clean (JS.trim_end s) = true.
Proof.
  destruct s as [|c s]; [done|].
  cbn [starts_clean JS.trim_end]. intros Hc.
  destruct (JS.trim_end s); cbn [starts_clean]; [|done].
  destruct (JS.is_space c) eqn:Hspace; [done|]. cbn [starts_clean]. by rewrite Hspace.
Qed.

Lemma trim_end_idemp s : JS.trim_end (JS.trim_end s) = JS.trim_end s.
Proof.
  induction s as [|c s IH]; [done|]. cbn [JS.trim_end].
  destruct (JS.trim_end s) as [|d u] eqn:Hu.
  - destruct (JS.is_space c) eqn:Hc; [done|]. cbn [JS.trim_end]. by rewrite Hc.
  - cbn [JS.trim_end] in *. by rewrite IH.
Qed.

Lemma trim_trimmed s : trimmed (JS.trim s).
Proof.
  unfold trimmed, JS.trim.
  rewrite (trim_start_id (JS.trim_end _)) by apply trim_end_clean, trim_start_clean.
  apply trim_end_idemp.
Qed.

Lemma split_not_nil sep s : JS.split sep s ≠ [].
Proof.
  destruct s as [|c s]; simpl; [done|].
  destruct (Ascii.eqb c sep); [done|]. by destruct (JS.split sep s).
Qed.

(** X8. The items [renderSidebar] makes buttons of are not empty and carry
    no whitespace at either end. *)
Theorem sidebarItems_clean textContent :
  Forall (λ item, JS.truthy_str item = true ∧ trimmed item)
    (H6XRuntime.sidebarItems textContent).
Proof.
  unfold H6XRuntime.sidebarItems. apply Forall_forall. intros item Hitem.
  apply list_elem_of_filter in Hitem as [Hne Hitem].
  split; [done|].
  apply list_elem_of_fmap in Hitem as (line & -> & _). apply trim_trimmed.
Qed.

(** * The entries of a parsed rule set *)

Lemma parseLine_entry sep mk rules line :
  NucleusManager.parseLine sep mk rules line =
    match line_entry sep mk line with
    | Some e => obj_put e.1 e.2 rules
    | None => rules
    end.
Proof.
  unfold NucleusManager.parseLine, line_entry.
  destruct (map JS.trim (JS.split sep line)) as [|field [|rulesStr parts]]; try done.
  by destruct (_ && _).
Qed.

Lemma parseLines_entries sep mk lines rules :
  foldl (NucleusManager.parseLine sep mk) rules lines =
    foldl (λ o e, obj_put e.1 e.2 o) rules (omap (line_entry sep mk) lines).
Proof.
  revert rules. induction lines as [|line lines IH]; intros rules; simpl; [done|].
  rewrite parseLine_entry, IH. by destruct (line_entry sep mk line).
Qed.

Lemma Forall_filter_keep {A} (P Q : A → Prop) `{∀ x, Decision (Q x)} (l : list A) :
  Forall P l → Forall P (filter Q l).
Proof.
  rewrite !Forall_forall. intros Hl x [_ Hx]%list_elem_of_filter. by apply Hl.
Qed.

(** The assignments to [__proto__] add nothing. *)
Lemma obj_puts_sets {V} (es : list (string * V)) o :
  foldl (λ o e, obj_put e.1 e.2 o) o es =
    foldl (λ o e, obj_set e.1 e.2 o) o (filter (λ e, e.1 ≠ "__proto__") es).
Proof.
  revert o. induction es as [|e es IH]; intros o; [done|].
  cbn [foldl]. rewrite IH, filter_cons. unfold obj_put.
  destruct (decide (e.1 = "__proto__")) as [He|He].
  - by rewrite decide_False by (by intros []).
  - by rewrite decide_True by done.
Qed.

Lemma parseNeutronRules_declared content type :
  NucleusManager.parseNeutronRules content type =
    foldl (λ o e, obj_set e.1 e.2 o) []
      (filter (λ e, e.1 ≠ "__proto__") (declared type content)).
Proof.
  rewrite <- obj_puts_sets.
  unfold NucleusManager.parseNeutronRules, declared, rule_shape.
  repeat case_decide; try done; apply parseLines_entries.
Qed.

Lemma obj_sets_lookup {V} (es : list (string * V)) o k :
  obj_get k (foldl (λ o e, obj_set e.1 e.2 o) o es) =
    match last (filter (λ e, e.1 = k) es) with
    | Some e => Some e.2
    | None => obj_get k o
    end.
Proof.
  revert o. induction es as [|e es IH] using rev_ind; intros o; [done|].
  rewrite foldl_app, filter_app; simpl.
  rewrite obj_get_set, filter_cons, filter_nil.
  destruct (decide (e.1 = k)).
  - by rewrite last_snoc.
  - by rewrite app_nil_r, IH.
Qed.

Lemma filter_field_ordinary {V} (es : list (string * V)) field :
  filter (λ e, e.1 = field) (filter (λ e, e.1 ≠ "__proto__") es) =
    if decide (field = "__proto__") then [] else filter (λ e, e.1 = field) es.
Proof.
  induction es as [|e es IH]; [by case_decide|].
  rewrite !filter_cons.
  destruct (decide (e.1 = "__proto__")) as [He|He].
  - rewrite decide_False by (by intros []). rewrite IH.
    destruct (decide (field = "__proto__")) as [->|Hfield]; [done|].
    by rewrite decide_False by congruence.
  - rewrite decide_True by done. rewrite filter_cons, IH.
    destruct (decide (field = "__proto__")) as [->|Hfield]; [|done].
    by rewrite decide_False.
Qed.

(** X9. What a parsed rule set holds for a field other than [__proto__] is
    what the last line declaring the field gives: a later line replaces the
    rules of an earlier one, it does not add to them; no line gives the
    rule set a field [__proto__]; and a rule set of an unknown kind holds
    nothing. *)
Theorem parseNeutronRules_last_line_wins content type field :
  obj_get field (NucleusManager.parseNeutronRules content type) =
    if decide (field = "__proto__") then None
    else snd <$> last (filter (λ e, e.1 = field) (declared type content)).
Proof.
  rewrite parseNeutronRules_declared, obj_sets_lookup, filter_field_ordinary.
  case_decide; [done|]. by destruct (last _).
Qed.

Lemma obj_set_keys {V} k (v : V) o :
  NoDup (obj_keys o) → NoDup (obj_keys (obj_set k v o)) ∧
  ∀ k', k' ∈ obj_keys (obj_set k v o) ↔ k' = k ∨ k' ∈ obj_keys o.
Proof.
  unfold obj_keys. induction o as [|[k0 v0] o IH]; simpl.
  - intros _. split; [apply NoDup_singleton|]. intros k'.
    rewrite list_elem_of_singleton, elem_of_nil. tauto.
  - intros [Hk0 Ho]%NoDup_cons. destruct (decide (k0 = k)) as [->|Hne]; simpl.
    + split; [by apply NoDup_cons|]. intros k'. rewrite elem_of_cons. tauto.
    + destruct (IH Ho) as [Hnd Hin]. split.
      * apply NoDup_cons. split; [|done]. rewrite Hin. intros [?|?]; done.
      * intros k'. rewrite elem_of_cons, Hin, elem_of_cons. tauto.
Qed.

Lemma obj_sets_invariant {V} (P : string * V → Prop) (es : list (string * V)) o :
  NoDup (obj_keys o) → Forall P o → Forall P es →
  NoDup (obj_keys (foldl (λ o e, obj_set e.1 e.2 o) o es)) ∧
  Forall P (foldl (λ o e, obj_set e.1 e.2 o) o es).
Proof.
  intros Hnd Ho Hes. revert o Hnd Ho.
  induction Hes as [|[k v] es He _ IH]; intros o Hnd Ho; simpl; [done|].
  apply IH.
  - by apply obj_set_keys.
  - clear -He Ho. induction Ho as [|[k' v'] o Hx Ho IH']; simpl.
    + by constructor.
    + destruct (decide (k' = k)); constructor; auto.
Qed.

Lemma line_entry_invariant (Q : rule_val → Prop) sep mk line e :
  (∀ text, JS.truthy_str text = true → trimmed text → Q (mk text)) →
  line_entry sep mk line = Some e →
  JS.truthy_str e.1 = true ∧ trimmed e.1 ∧ Q e.2.
Proof.
  intros Hmk. unfold line_entry.
  destruct (JS.split sep line) as [|a [|b parts]]; simpl; try done.
  destruct (JS.truthy_str (JS.trim a)) eqn:Ha; [|done].
  destruct (JS.truthy_str (JS.trim b)) eqn:Hb; [|done]. simpl.
  intros [= <-]. simpl. split_and!; [done|apply trim_trimmed|].
  apply Hmk; [done|apply trim_trimmed].
Qed.

Lemma listOf_well_formed text : well_formed_value (NucleusManager.listOf text).
Proof.
  unfold NucleusManager.listOf. simpl. split.
  - pose proof (split_not_nil "," text). by destruct (JS.split "," text).
  - apply Forall_forall. intros token Htoken.
    apply list_elem_of_fmap in Htoken as (part & -> & _).
    apply trim_trimmed.
Qed.

Lemma declared_well_formed type content :
  Forall (λ entry, JS.truthy_str entry.1 = true ∧ trimmed entry.1 ∧
                   well_formed_value entry.2 ∧ value_of_kind type entry.2)
    (declared type content).
Proof.
  apply Forall_forall. intros e He. unfold declared, rule_shape in He.
  repeat case_decide; try (by apply elem_of_nil in He);
    apply list_elem_of_omap in He as (line & _ & Hline);
    apply (line_entry_invariant
             (λ v, well_formed_value v ∧ value_of_kind type v)) in Hline; try done.
  all: intros text Ht Htr.
  all: first [ by split_and! | split; [apply listOf_well_formed | simpl; auto] ].
Qed.

(** X10. A parsed rule set has no field twice; every field name is not
    empty and trimmed; the value of a field is a list of trimmed tokens, not
    empty, for the kinds [validate] and [transform], and a trimmed
    expression, not empty, for the kind [compute]. *)
Theorem parseNeutronRules_well_formed content type :
  let rules := NucleusManager.parseNeutronRules content type in
  NoDup (obj_keys rules) ∧
  Forall (λ entry, JS.truthy_str entry.1 = true ∧ trimmed entry.1 ∧
                   well_formed_value entry.2 ∧ value_of_kind type entry.2) rules.
Proof.
  simpl. rewrite parseNeutronRules_declared.
  apply obj_sets_invariant; [apply NoDup_nil_2|done|].
  apply Forall_filter_keep, declared_well_formed.
Qed.

(** The parser gives no rule set a field [__proto__]. *)
Lemma parseNeutronRules_ordinary content type :
  Forall (λ entry : string * rule_val, entry.1 ≠ "__proto__")
    (NucleusManager.parseNeutronRules content type).
Proof.
  rewrite parseNeutronRules_declared.
  apply obj_sets_invariant; [apply NoDup_nil_2|done|].
  apply Forall_forall. by intros e [He _]%list_elem_of_filter.
Qed.

Lemma extractNeutron_ordinary index node :
  ordinary_fields (NucleusManager.extractNeutron index node).
Proof. apply parseNeutronRules_ordinary. Qed.

(** X29. No rule set of a parsed atom has a field [__proto__]: a line that
    declares it is parsed, and its assignment adds no property. *)
Theorem parseAtom_ordinary_fields localStorage JSON_parse node :
  Forall ordinary_fields (neutrons (AtomicKernel.parseAtom localStorage JSON_parse node).1).
Proof.
  unfold AtomicKernel.parseAtom, NucleusManager.extractProtons,
    NucleusManager.extractNeutrons. cbn [fst neutrons].
  apply Forall_forall. intros n Hn.
  apply elem_of_lookup_imap in Hn as (i & nn & -> & _).
  apply extractNeutron_ordinary.
Qed.

(** X11. [NucleusManager.validate] on a rule set of kind [compute] that
    declares at least one name throws a [TypeError]: the value of a name is
    a string, which has no [forEach]. *)
Theorem validate_throws_on_compute_rules E data index node :
  nn_type node = Some "compute" →
  neutron_rules (NucleusManager.extractNeutron index node) ≠ [] →
  NucleusManager.validate E data (NucleusManager.extractNeutron index node) =
    Throw (TypeError "rules.forEach is not a function").
Proof.
  intros Hty Hne.
  pose proof (declared_well_formed (nn_type node) (JS.trim (nn_textContent node))) as Hall.
  apply (Forall_filter_keep _ (λ e, e.1 ≠ "__proto__")) in Hall.
  apply (obj_sets_invariant _ _ [] NoDup_nil_2 (Forall_nil_2 _)) in Hall as [_ Hall].
  rewrite <- parseNeutronRules_declared in Hall.
  unfold NucleusManager.validate, NucleusManager.extractNeutron in *. simpl in *.
  apply entries_Forall in Hall. apply entries_not_nil in Hne.
  destruct (entries (NucleusManager.parseNeutronRules _ _)) as [|[name v] rules]; [done|].
  apply Forall_cons in Hall as [(_ & _ & _ & Hkind) _]. simpl in *.
  destruct v as [tokens|expr]; [|done].
  rewrite Hty in Hkind. by destruct Hkind.
Qed.

Lemma validate_throws_on_compute_rules_witness :
  NucleusManager.validate reference_engine (plain [])
    (NucleusManager.extractNeutron 0
       {| nn_type := Some "compute"; nn_textContent := "isValid = email.valid" |}) =
    Throw (TypeError "rules.forEach is not a function").
Proof. by apply validate_throws_on_compute_rules. Defined.

(** * Identifiers *)

Lemma imap_ids_NoDup {A} (prefix : string) (l : list A) (n : nat) :
  NoDup (imap (λ i _, prefix +:+ pretty (n + i)) l).
Proof.
  revert n. induction l as [|x l IH]; intros n; simpl; [apply NoDup_nil_2|].
  apply NoDup_cons. split.
  - intros Hin. apply elem_of_lookup_imap in Hin as (i & y & Heq & _).
    simpl in Heq. apply (inj (String.append prefix)) in Heq.
    apply (inj pretty) in Heq. lia.
  - specialize (IH (S n)).
    erewrite imap_ext; [exact IH|]. intros i y _. simpl. f_equal. f_equal. lia.
Qed.

Section ParseAtomMore.

Variable localStorage : gmap string string.
Variable JSON_parse : string → option json.

(** X12. Within a parsed atom the ids of the protons are pairwise distinct,
    and so are the ids of the neutrons and those of the electrons. *)
Theorem parseAtom_ids_distinct node :
  let a := (AtomicKernel.parseAtom localStorage JSON_parse node).1 in
  NoDup (proton_id <$> protons a) ∧
  NoDup (neutron_id <$> neutrons a) ∧
  NoDup (electron_id <$> electrons a).
Proof.
  unfold AtomicKernel.parseAtom, NucleusManager.extractProtons,
    NucleusManager.extractNeutrons, ElectronShell.extractElectrons; simpl.
  rewrite !fmap_imap. split_and!.
  - apply (imap_ids_NoDup "p" _ 0).
  - apply (imap_ids_NoDup "n" _ 0).
  - apply (imap_ids_NoDup "e" _ 0).
Qed.

Lemma remote_loads_imap (f : nat → proton_node → proton) nodes :
  (∀ i node, proton_source (f i node) = pn_source node) →
  NucleusManager.remote_loads (imap f nodes) =
    omap (λ node, if JS.truthy_attr (pn_source node)
                  then Some (fetch_get (default EmptyString (pn_source node)))
                  else None) nodes.
Proof.
  revert f. induction nodes as [|node nodes IH]; intros f Hf; [done|].
  unfold NucleusManager.remote_loads in *. cbn [imap omap list_omap].
  rewrite IH by (intros; apply Hf). rewrite Hf.
  unfold JS.truthy_attr. destruct (pn_source node) as [src|]; [|done].
  by destruct (JS.truthy_str src).
Qed.

Lemma network_calls_remote_loads ps :
  ElectronShell.network_calls (NucleusManager.remote_loads ps) =
    NucleusManager.remote_loads ps.
Proof.
  unfold ElectronShell.network_calls, NucleusManager.remote_loads.
  induction ps as [|p ps IH]; [done|]. simpl.
  destruct (proton_source p) as [src|]; [|done].
  destruct (JS.truthy_str src); [|done].
  rewrite filter_cons_True by done. f_equal. exact IH.
Qed.

(** X13. Parsing an atom starts exactly one [GET] for every proton with a
    non-empty [source], in document order, whether or not the proton also
    has a local key, and issues no other network call. *)
Theorem parseAtom_network node :
  ElectronShell.network_calls (AtomicKernel.parseAtom localStorage JSON_parse node).2 =
    omap (λ p, if JS.truthy_attr (pn_source p)
               then Some (fetch_get (default EmptyString (pn_source p)))
               else None) (an_protons node).
Proof.
  unfold AtomicKernel.parseAtom, NucleusManager.extractProtons; simpl.
  unfold ElectronShell.network_calls. rewrite !filter_app.
  fold (ElectronShell.network_calls
          (NucleusManager.remote_loads
             (imap (NucleusManager.extractProton localStorage JSON_parse) (an_protons node)))).
  rewrite network_calls_remote_loads.
  rewrite <- (remote_loads_imap
                (NucleusManager.extractProton localStorage JSON_parse)) by done.
  destruct (AtomicKernel.unstable _ _); simpl;
    rewrite ?filter_cons_False, ?filter_nil, ?app_nil_r by (simpl; auto); done.
Qed.

End ParseAtomMore.

(** * Bonds *)

Lemma dispatch_app ls1 ls2 event sender :
  ElectronShell.dispatch (ls1 ++ ls2) event sender =
    ElectronShell.dispatch ls1 event sender ++ ElectronShell.dispatch ls2 event sender.
Proof. unfold ElectronShell.dispatch. apply bind_app. Qed.

Lemma bondEvent_emitted e signal :
  ElectronShell.bondEvent e = ElectronShell.emitted signal ↔
  default "null" (electron_listen e) = signal.
Proof.
  unfold ElectronShell.bondEvent, ElectronShell.emitted. split; [|by intros ->].
  apply (inj (String.append "atom:")).
Qed.

Lemma dispatch_cons l ls event sender :
  ElectronShell.dispatch (l :: ls) event sender =
    (if decide (ElectronShell.listener_event l = event)
     then ElectronShell.onSignal l sender else []) ++
    ElectronShell.dispatch ls event sender.
Proof. done. Qed.

Lemma dispatch_bindEvents a signal sender :
  ElectronShell.dispatch (ElectronShell.bindEvents a).2 (ElectronShell.emitted signal) sender =
    filter (λ e, listens_for signal e = true) (electrons a) ≫=
      λ e, ElectronShell.onSignal (ElectronShell.createBond a e) sender.
Proof.
  unfold ElectronShell.bindEvents. cbn [snd].
  induction (electrons a) as [|e es IH]; [done|].
  cbn [omap list_omap].
  destruct (JS.truthy_attr (electron_bond e)) eqn:Hbond.
  - rewrite dispatch_cons, IH. cbn [ElectronShell.listener_event ElectronShell.createBond].
    case_decide as Hev.
    + rewrite filter_cons_True.
      * done.
      * unfold listens_for. rewrite Hbond. apply bool_decide_eq_true_2.
        by apply bondEvent_emitted.
    + rewrite filter_cons_False; [done|].
      unfold listens_for. rewrite Hbond. intros Hl%bool_decide_eq_true_1.
      by apply Hev, bondEvent_emitted.
  - rewrite filter_cons_False; [exact IH|].
    unfold listens_for. by rewrite Hbond.
Qed.

(** X14. When the signal [atom:<signal>] is dispatched, the listeners run in
    the order the atoms and their electrons were bound, one run for every
    electron that has a non-empty [bond] attribute and listens for the
    signal (a missing [listen] attribute listens for [null]); electrons that
    listen for another signal do not run; the bond target plays no part, so
    a signal from any sender is received. *)
Theorem bond_routing atoms signal sender :
  ElectronShell.dispatch (window_listeners atoms) (ElectronShell.emitted signal) sender =
    atoms ≫= λ a,
      filter (λ e, listens_for signal e = true) (electrons a) ≫=
        λ e, ElectronShell.onSignal (ElectronShell.createBond a e) sender.
Proof.
  unfold window_listeners.
  induction atoms as [|a atoms IH]; [done|]. cbn [mbind list_bind].
  rewrite dispatch_app, dispatch_bindEvents. f_equal. exact IH.
Qed.

Lemma listeners_bonds a from (f : nat → electron_node → electron) nodes :
  (∀ i node, electron_bond (f i node) = en_bond node) →
  omap (λ l, electron_bond (ElectronShell.listener_electron l))
      (omap (λ e, if JS.truthy_attr (electron_bond e)
                  then Some (ElectronShell.createBond a e) else None) (imap f nodes)) =
    filter (λ target, JS.truthy_str target = true)
      (BondingManager.bond_to <$>
         omap (λ eNode, match en_bond eNode with
                        | Some target =>
                            Some {| BondingManager.bond_from := from;
                                    BondingManager.bond_to := target;
                                    BondingManager.bond_type := "covalent" |}
                        | None => None
                        end) nodes).
Proof.
  revert f. induction nodes as [|node nodes IH]; intros f Hf; [done|].
  cbn [imap omap list_omap]. rewrite Hf.
  specialize (IH (f ∘ S) (λ i, Hf (S i))).
  unfold JS.truthy_attr at 1. destruct (en_bond node) as [target|] eqn:Hbond.
  - cbn [fmap list_fmap BondingManager.bond_to].
    destruct (JS.truthy_str target) eqn:Htarget.
    + cbn [omap list_omap ElectronShell.createBond ElectronShell.listener_electron].
      rewrite Hf, Hbond. rewrite filter_cons_True by done. f_equal. exact IH.
    + rewrite filter_cons_False by (by rewrite Htarget). exact IH.
  - exact IH.
Qed.

Section Listeners.

Variable localStorage : gmap string string.
Variable JSON_parse : string → option json.

(** X15. The window listeners [bindEvents] adds for a parsed atom are, in
    order, the bonds [detectBonds] reports for its markup whose target is
    not empty: an electron with an empty [bond] attribute is a bond for the
    [BondingManager] and gets no listener. *)
Theorem listeners_are_detected_bonds node :
  let a := (AtomicKernel.parseAtom localStorage JSON_parse node).1 in
  omap (λ l, electron_bond (ElectronShell.listener_electron l)) (ElectronShell.bindEvents a).2 =
    filter (λ target, JS.truthy_str target = true)
      (BondingManager.bond_to <$> BondingManager.bondsOf node).
Proof.
  unfold AtomicKernel.parseAtom, NucleusManager.extractProtons,
    ElectronShell.extractElectrons, ElectronShell.bindEvents, BondingManager.bondsOf.
  cbn [fst snd electrons].
  by apply listeners_bonds.
Qed.

End Listeners.

(** X16. [parseMolecule] appends the bonds [detectBonds] reports to the
    registry of bonds, in order, and keeps every bond that was there: no
    bond is merged or dropped. *)
Theorem parseMolecule_appends bonds atoms :
  BondingManager.parseMolecule bonds atoms = bonds ++ BondingManager.detectBonds atoms.
Proof.
  unfold BondingManager.parseMolecule.
  generalize (BondingManager.detectBonds atoms) as found. intros found. revert bonds.
  induction found as [|[from to type] found IH]; intros bonds; simpl.
  - by rewrite app_nil_r.
  - rewrite IH. unfold BondingManager.createBond. simpl. rewrite <- app_assoc. reflexivity.
Qed.

(** * The registry of atoms *)

Lemma registered_snoc atoms a :
  registered (atoms ++ [a]) = <[atom_name a := a]> (registered atoms).
Proof. unfold registered. by rewrite foldl_app. Qed.

(** X17. After atoms are registered in the periodic table, [getElement]
    gives the last atom registered under the name, and nothing for a name
    that was never registered: a later registration replaces an earlier one
    and no registration is rejected. *)
Theorem registry_last_registration_wins atoms name :
  PeriodicTable.getElement (registered atoms) name =
    last (filter (λ a, atom_name a = name) atoms).
Proof.
  unfold PeriodicTable.getElement.
  induction atoms as [|a atoms IH] using rev_ind; [done|].
  rewrite registered_snoc, filter_app, filter_cons, filter_nil.
  destruct (decide (atom_name a = name)) as [<-|Hne].
  - by rewrite lookup_insert_eq, last_snoc.
  - by rewrite lookup_insert_ne, app_nil_r.
Qed.

(** X18. [getPeriod] is monotone in the atomic number and takes its values
    between 1 and 4. *)
Theorem getPeriod_monotone n m :
  n ≤ m →
  PeriodicTable.getPeriod n ≤ PeriodicTable.getPeriod m ∧
  1 ≤ PeriodicTable.getPeriod n ≤ 4.
Proof.
  unfold PeriodicTable.getPeriod. intros Hle.
  repeat match goal with
         | |- context [(?a <=? ?b)%nat] => destruct (Nat.leb_spec a b)
         end; lia.
Qed.

Lemma getPeriod_monotone_witness :
  PeriodicTable.getPeriod 3 ≤ PeriodicTable.getPeriod 11 ∧ 1 ≤ PeriodicTable.getPeriod 3 ≤ 4.
Proof. apply getPeriod_monotone. lia. Defined.

Section StoreMore.

Import Store.

Variable JSON_parse : string → option json.

Lemma load_state s h node :
  ∃ s' h' log, load JSON_parse s h node = Ok (s', h', log) ∧ state s' = state s.
Proof.
  unfold load.
  destruct (JS.truthy_attr (node_compute node)); [by eexists _, _, _|].
  destruct (JSON_parse _) as [t|]; [|by eexists _, _, _].
  destruct (alloc t h) as [payload h1].
  destruct (checkSchema _ _ _ _); by eexists _, _, _.
Qed.

Lemma load_Ok s h node : ∃ r, load JSON_parse s h node = Ok r.
Proof. destruct (load_state s h node) as (s' & h' & log & -> & _). by eexists. Qed.

(** X19. [Store.load] completes normally and leaves every object of the
    heap in place. When it logs an error the store is unchanged and the
    element is not removed. Otherwise the element is removed last, the state
    cells and the schemas are unchanged, no other name is touched, a
    computed declaration leaves the raw data alone and a raw declaration
    leaves the computed bindings alone. *)
Theorem load_outcome s h node :
  ∃ s' h' log,
    load JSON_parse s h node = Ok (s', h', log) ∧
    agree h h' ∧
    if existsb is_error log then s' = s ∧ node_remove ∉ log
    else
      last log = Some node_remove ∧
      state s' = state s ∧ schemas s' = schemas s ∧
      (∀ k, k = key_of (node_name node) ∨
            (data s' !! k = data s !! k ∧ computed s' !! k = computed s !! k)) ∧
      if JS.truthy_attr (node_compute node)
      then data s' = data s ∧ computed s' !! key_of (node_name node) = node_compute node
      else computed s' = computed s ∧ is_Some (data s' !! key_of (node_name node)).
Proof.
  unfold load.
  destruct (JS.truthy_attr (node_compute node)) eqn:Hcompute.
  - eexists _, _, _. split; [done|]. split; [apply agree_refl|]. simpl.
    split_and!; try done.
    + intros k. destruct (decide (k = key_of (node_name node))) as [|Hk]; [by left|].
      right. by rewrite lookup_insert_ne.
    + rewrite lookup_insert_eq. unfold JS.truthy_attr in Hcompute.
      by destruct (node_compute node).
  - destruct (JSON_parse _) as [t|].
    + pose proof (alloc_allocated t h) as (Hagree & _).
      destruct (alloc t h) as [payload h1]. simpl in Hagree.
      destruct (checkSchema _ _ _ _).
      * eexists _, _, _. split; [done|]. split; [done|].
        assert (existsb is_error
                  ((if decide (node_persist node = Some "indexeddb")
                    then [persistToIndexedDB (node_name node)] else []) ++ [node_remove])
                = false) as -> by (by case_decide).
        split_and!; try done.
        -- by rewrite last_snoc.
        -- intros k. destruct (decide (k = key_of (node_name node))) as [|Hk]; [by left|].
           right. simpl. by rewrite lookup_insert_ne.
        -- simpl. rewrite lookup_insert_eq. by eexists.
      * eexists _, _, _. split; [done|]. split; [done|]. simpl.
        split; [done|]. rewrite list_elem_of_singleton. done.
    + eexists _, _, _. split; [done|]. split; [apply agree_refl|]. simpl.
      split; [done|]. rewrite list_elem_of_singleton. done.
Qed.


Lemma loadAll_Ok nodes : ∀ s h, ∃ r, loadAll JSON_parse s h nodes = Ok r.
Proof.
  induction nodes as [|node nodes IH]; intros s h; simpl; [by eexists|].
  destruct (load_Ok s h node) as [r ->]. simpl.
  destruct (IH r.1.1 r.1.2) as [r' ->]. simpl. by eexists.
Qed.

Lemma loadAll_unparsable s h node nodes :
  JS.truthy_attr (node_compute node) = false →
  JSON_parse (JS.trim (node_textContent node)) = None →
  ∀ s' h' log,
    loadAll JSON_parse s h nodes = Ok (s', h', log) →
    loadAll JSON_parse s h (node :: nodes) =
      Ok (s', h', console_error (LoadFailed (node_name node) SyntaxError) :: log).
Proof.
  intros Hcompute Hparse s' h' log Hrest. simpl.
  unfold load. rewrite Hcompute, Hparse. simpl. by rewrite Hrest.
Qed.

(** X20. A data element with no [compute] attribute whose text is not JSON
    only adds its error to the log: the elements before and after it are
    loaded into the same store and heap as without it. *)
Theorem loadAll_skips_unparsable s h before node after :
  JS.truthy_attr (node_compute node) = false →
  JSON_parse (JS.trim (node_textContent node)) = None →
  ∃ s' h' log1 log2,
    loadAll JSON_parse s h (before ++ after) = Ok (s', h', log1 ++ log2) ∧
    loadAll JSON_parse s h (before ++ node :: after) =
      Ok (s', h', log1 ++ console_error (LoadFailed (node_name node) SyntaxError) :: log2).
Proof.
  intros Hcompute Hparse. revert s h.
  induction before as [|first before IH]; intros s h.
  - destruct (loadAll_Ok after s h) as [[[s' h'] log] Hafter].
    exists s', h', [], log. split; [done|]. by apply loadAll_unparsable.
  - simpl. destruct (load_Ok s h first) as [r ->]. simpl.
    destruct (IH r.1.1 r.1.2) as (s' & h' & log1 & log2 & -> & ->). simpl.
    exists s', h', (r.2 ++ log1), log2. by rewrite !app_assoc.
Qed.

End StoreMore.

Lemma loadAll_skips_unparsable_witness :
  ∃ s' h' log1 log2,
    Store.loadAll parse_users_only Store.empty [] ([] ++ [users_node]) =
      Ok (s', h', log1 ++ log2) ∧
    Store.loadAll parse_users_only Store.empty [] ([] ++ broken_node :: [users_node]) =
      Ok (s', h', log1 ++
            console_error (LoadFailed (Store.node_name broken_node) SyntaxError) :: log2).
Proof.
  apply (loadAll_skips_unparsable parse_users_only Store.empty [] [] broken_node [users_node]);
    reflexivity.
Defined.

Section Evaluator.

Import Store.

Lemma filter_items_sublist cb items kept :
  filter_items cb items = Ok kept → sublist kept items.
Proof.
  revert kept. induction items as [|item items IH]; intros kept; simpl.
  - intros [= <-]. constructor.
  - destruct (cb item) as [keep|]; [|done]. simpl.
    destruct (filter_items cb items) as [rest|]; [|done]. simpl.
    intros [= <-]. destruct keep; constructor; by apply IH.
Qed.

(** X21. [evalComputed] never changes an object of the heap. It returns
    [null] or a count without allocating, or else one new array whose
    members are members of the stored collection, in their order: the items
    of a filtered collection are the stored items themselves, not copies. *)
Theorem evalComputed_shares_items s h expr v h' :
  evalComputed s h expr = Ok (v, h') →
  (h' = h ∧ (v = VNull ∨ ∃ n, v = VNum (Z.of_nat n))) ∨
  ∃ name items kept,
    collection s h name = Some items ∧ sublist kept items ∧
    v = VRef (length h) ∧ h' = h ++ [OArr kept].
Proof.
  unfold evalComputed.
  destruct (JS.search JS.filter_re expr) as [[[dataName key] value]|].
  - destruct (truthy_data (data s !! dataName)); simpl.
    + destruct (data s !! dataName) as [[| | | |l]|] eqn:Hd; try done.
      destruct (h !! l) as [[items|props]|] eqn:Hl; try done.
      destruct (filter_items _ items) as [kept|] eqn:Hkept; [|done]. simpl.
      intros [= <- <-]. right. exists dataName, items, kept.
      split_and!; try done.
      * unfold collection. by rewrite Hd, Hl.
      * by eapply filter_items_sublist.
    + intros [= <- <-]. left. split; [done|]. by left.
  - destruct (JS.search JS.count_re expr) as [dataName|].
    + destruct (data s !! dataName) as [[| | | |l]|];
        try (intros [= <- <-]; left; split; [done|]; right; by exists 0).
      destruct (h !! l) as [[items|props]|];
        intros [= <- <-]; left; (split; [done|]); right;
        first [by exists (length items) | by exists 0].
    + intros [= <- <-]. left. split; [done|]. by left.
Qed.

Lemma evalComputed_shares_items_witness :
  (users_heap ++ [OArr [VRef 0]] = users_heap ∧
   (VRef 3 = VNull ∨ ∃ n, VRef 3 = VNum (Z.of_nat n))) ∨
  ∃ name items kept,
    collection users_store users_heap name = Some items ∧ sublist kept items ∧
    VRef 3 = VRef (length users_heap) ∧
    users_heap ++ [OArr [VRef 0]] = users_heap ++ [OArr kept].
Proof.
  apply (evalComputed_shares_items users_store users_heap "users.filter(active=true)").
  reflexivity.
Defined.

Lemma count_re_None t : has_char "." t = false → JS.count_re t = None.
Proof.
  intros Hno. destruct (JS.count_re t) as [x|] eqn:Hre; [|done].
  unfold JS.count_re in Hre.
  apply plus_class_Some in Hre as (m & r & -> & Hk).
  destruct (JS.strip_prefix ".count" r) as [r2|] eqn:Hr; [|done].
  apply strip_prefix_Some in Hr as ->.
  rewrite has_char_app in Hno. apply orb_false_elim in Hno as [_ Hno].
  done.
Qed.

Lemma filter_re_no_dot t : has_char "." t = false → JS.filter_re t = None.
Proof.
  intros Hno. destruct (JS.filter_re t) as [x|] eqn:Hre; [|done].
  unfold JS.filter_re in Hre.
  apply plus_class_Some in Hre as (m & r & -> & Hk).
  destruct (JS.strip_prefix ".filter(" r) as [r2|] eqn:Hr; [|done].
  apply strip_prefix_Some in Hr as ->.
  rewrite has_char_app in Hno. apply orb_false_elim in Hno as [_ Hno].
  done.
Qed.

(** X22. An expression without a dot evaluates to [null], whatever the
    store holds. *)
Theorem evalComputed_without_dot s h expr :
  has_char "." expr = false → evalComputed s h expr = Ok (VNull, h).
Proof.
  intros Hno. unfold evalComputed.
  rewrite (search_None _ "." expr filter_re_no_dot Hno).
  by rewrite (search_None _ "." expr count_re_None Hno).
Qed.

Lemma evalComputed_without_dot_witness :
  evalComputed users_store users_heap "users" = Ok (VNull, users_heap).
Proof. by apply evalComputed_without_dot. Defined.

(** X23. A falsy payload ([null], [false], [0] or the empty string) of a
    data element with no [compute] attribute and no schema is registered
    without an error, and, when no computed binding is declared under the
    name, [get] then reports the name as not found and returns [null]. *)
Theorem falsy_payload_reads_as_missing JSON_parse s h node t :
  JS.truthy_attr (node_compute node) = false →
  node_schema node = None →
  JSON_parse (JS.trim (node_textContent node)) = Some t →
  truthy t = false →
  JS.truthy_attr (computed s !! key_of (node_name node)) = false →
  ∃ s' log,
    load JSON_parse s h node = Ok (s', h, log) ∧
    existsb is_error log = false ∧
    data s' !! key_of (node_name node) = Some (alloc t h).1 ∧
    get s' h (key_of (node_name node)) =
      Ok (VNull, h, [console_warn (DataNotFound (key_of (node_name node)))]).
Proof.
  intros Hcompute Hschema Hparse Hfalsy Hcomputed.
  unfold load. rewrite Hcompute, Hparse, Hschema.
  pose proof (alloc_truthy t h) as Htruthy. rewrite Hfalsy in Htruthy.
  assert ((alloc t h).2 = h) as Hheap by (by destruct t).
  destruct (alloc t h) as [payload h1]. simpl in *. subst h1.
  eexists _, _. split; [done|]. split_and!.
  - by case_decide.
  - simpl. by rewrite lookup_insert_eq.
  - unfold get. simpl. rewrite Hcomputed, lookup_insert_eq. simpl.
    by rewrite Htruthy.
Qed.

Lemma falsy_payload_reads_as_missing_witness :
  ∃ s' log,
    load (λ _, Some (JNum 0)) Store.empty [] total_node = Ok (s', [], log) ∧
    existsb is_error log = false ∧
    data s' !! key_of (node_name total_node) = Some (alloc (JNum 0) []).1 ∧
    get s' [] (key_of (node_name total_node)) =
      Ok (VNull, [], [console_warn (DataNotFound (key_of (node_name total_node)))]).
Proof.
  apply (falsy_payload_reads_as_missing (λ _, Some (JNum 0)) Store.empty [] total_node
           (JNum 0)); reflexivity.
Defined.

End Evaluator.

(** * State cells *)

Section StateCells.

Import Store.

(** X24. After [setState], [getState] gives the new value for the name and
    what it gave before for every other name; the raw data and the computed
    bindings are unchanged; and exactly one [h6x:state-change] event is
    dispatched, carrying the name and the value [getState] now gives. *)
Theorem setState_then_getState s name value other :
  getState (setState s name value).1 other =
    (if decide (other = name) then Some value else getState s other) ∧
  data (setState s name value).1 = data s ∧
  computed (setState s name value).1 = computed s ∧
  filter is_dispatch (setState s name value).2 =
    [dispatchEvent "h6x:state-change"
       (plain [("name", JStr name);
               ("value", match getState (setState s name value).1 name with
                         | Some (Some v) => JStr v
                         | _ => JNull
                         end)])].
Proof.
  unfold getState, setState. simpl. rewrite lookup_insert_eq.
  split_and!; [|done|done|by destruct value].
  case_decide as Hother; [subst; by rewrite lookup_insert_eq|by rewrite lookup_insert_ne].
Qed.

Lemma loadStates_snoc s nodes node :
  loadStates s (nodes ++ [node]) =
    ((loadState (loadStates s nodes).1 node).1,
     (loadStates s nodes).2 ++ (loadState (loadStates s nodes).1 node).2).
Proof. unfold loadStates. by rewrite foldl_app. Qed.

Lemma loadStates_frame s nodes :
  data (loadStates s nodes).1 = data s ∧
  computed (loadStates s nodes).1 = computed s ∧
  (loadStates s nodes).2 = replicate (length nodes) node_remove.
Proof.
  induction nodes as [|node nodes IH] using rev_ind; [done|].
  destruct IH as (Hdata & Hcomputed & Hlog).
  rewrite loadStates_snoc. simpl. split_and!; try done.
  rewrite Hlog, length_app. simpl.
  by rewrite Nat.add_1_r, replicate_S_end.
Qed.

(** X25. After the state elements are loaded, a cell holds [initial || null]
    of the last element declaring its name, and what it held before when no
    element declares it; the raw data and the computed bindings are
    unchanged and every element is removed. *)
Theorem loadStates_last_declaration_wins s nodes name :
  getState (loadStates s nodes).1 name =
    match last (filter (λ node, key_of (state_name node) = name) nodes) with
    | Some node => Some (initial_or_null node)
    | None => getState s name
    end ∧
  data (loadStates s nodes).1 = data s ∧
  computed (loadStates s nodes).1 = computed s ∧
  (loadStates s nodes).2 = replicate (length nodes) node_remove.
Proof.
  split; [|apply loadStates_frame].
  induction nodes as [|node nodes IH] using rev_ind; [done|].
  rewrite loadStates_snoc, filter_app, filter_cons, filter_nil.
  unfold getState in *. simpl.
  destruct (decide (key_of (state_name node) = name)) as [<-|Hne].
  - by rewrite lookup_insert_eq, last_snoc.
  - by rewrite lookup_insert_ne, app_nil_r.
Qed.

Variable JSON_parse : string → option json.

Lemma loadAll_state nodes : ∀ s h s' h' log,
  loadAll JSON_parse s h nodes = Ok (s', h', log) → state s' = state s.
Proof.
  induction nodes as [|node nodes IH]; intros s h s' h' log; simpl.
  - by intros [= <- _ _].
  - destruct (load_state JSON_parse s h node) as (s1 & h1 & log1 & -> & Hstate).
    simpl. destruct (loadAll JSON_parse s1 h1 nodes) as [[[s2 h2] log2]|] eqn:Hrest; [|done].
    simpl. intros [= <- _ _]. by rewrite (IH _ _ _ _ _ Hrest).
Qed.

Lemma loadStates_state s1 s2 nodes :
  state s1 = state s2 → state (loadStates s1 nodes).1 = state (loadStates s2 nodes).1.
Proof.
  intros Heq. induction nodes as [|node nodes IH] using rev_ind; [done|].
  rewrite !loadStates_snoc. simpl. by rewrite IH.
Qed.

(** X26. The store after boot: the raw data and the computed bindings are
    those the data elements give, the state cells are those the state
    elements give over the initial cells, whatever the data elements are,
    and the log is the log of the data elements followed by one removal for
    each state element. *)
Theorem bootStore_phases s h dataNodes stateNodes :
  ∃ sd hd logd,
    loadAll JSON_parse s h dataNodes = Ok (sd, hd, logd) ∧
    ∃ s',
      bootStore JSON_parse s h dataNodes stateNodes =
        Ok (s', hd, logd ++ replicate (length stateNodes) node_remove) ∧
      data s' = data sd ∧ computed s' = computed sd ∧
      state s' = state (loadStates s stateNodes).1.
Proof.
  destruct (loadAll_Ok JSON_parse dataNodes s h) as [[[sd hd] logd] Hdata].
  exists sd, hd, logd. split; [done|].
  unfold bootStore. rewrite Hdata. simpl.
  destruct (loadStates_frame sd stateNodes) as (Hd & Hc & Hlog).
  eexists. split; [by rewrite Hlog|]. split_and!; try done.
  apply loadStates_state. by eapply loadAll_state.
Qed.

End StateCells.

(** * Sanitized text *)

Lemma escapeChar_no_angle c :
  has_char "<" (Renderer.escapeChar c) = false ∧ has_char ">" (Renderer.escapeChar c) = false.
Proof. destruct c as [[] [] [] [] [] [] [] []]; by vm_compute. Qed.

Lemma escapeText_no_angle s :
  has_char "<" (Renderer.escapeText s) = false ∧ has_char ">" (Renderer.escapeText s) = false.
Proof.
  induction s as [|c s [IH1 IH2]]; [done|]. cbn [Renderer.escapeText].
  rewrite !has_char_app, IH1, IH2.
  by destruct (escapeChar_no_angle c) as [-> ->].
Qed.

(** X27. The text [sanitize] returns holds no angle bracket, whatever the
    value. *)
Theorem sanitize_no_angle_brackets E value :
  has_char "<" (Renderer.sanitize E value) = false ∧
  has_char ">" (Renderer.sanitize E value) = false.
Proof.
  unfold Renderer.sanitize.
  destruct value as [v|]; [|done].
  destruct v; try done; apply escapeText_no_angle.
Qed.

Lemma escapeText_plain s : all_chars plain_char s = true → Renderer.escapeText s = s.
Proof.
  induction s as [|c s IH]; [done|]. cbn [all_chars Renderer.escapeText].
  intros [Hc Hs]%andb_true_iff. rewrite (IH Hs).
  unfold plain_char in Hc. unfold Renderer.escapeChar.
  apply negb_true_iff in Hc.
  repeat (apply orb_false_elim in Hc as [Hc ?]).
  by repeat match goal with H : (_ =? _)%nat = false |- _ => rewrite H; clear H end.
Qed.

(** X28. [sanitize] returns a string without ampersand, angle bracket and
    no-break space as it is. *)
Theorem sanitize_plain_text E s :
  all_chars plain_char s = true → Renderer.sanitize E (Some (JStr s)) = s.
Proof. intros Hs. unfold Renderer.sanitize. simpl. by apply escapeText_plain. Qed.

Lemma sanitize_plain_text_witness :
  Renderer.sanitize reference_engine (Some (JStr "Ada Lovelace")) = "Ada Lovelace".
Proof. by apply sanitize_plain_text. Defined.
